(** * Loops_Detector: the numerical core of [declooptor/utils.py]

    A shallow embedding of the Hi-C utilities ([scn_func], [distance_law],
    [despeckles], [picker], [detrend], [xcorr2], [corrcoef2d]), the
    properties their specification states about them, and further
    properties read off the code.

    Conventions of the embedding.
    - A NumPy array of doubles is a [list (list float)] (rows of the
      matrix), a scalar is a binary64 [float] of the kernel, so that
      not-a-number and the signed zeros behave as they do in NumPy. The
      lists that stand for arrays are the rectangular ones ([is_matrix]);
      an array without rows is taken to have no columns either.
    - Python exceptions are the [Raise] results of the [pyresult] monad.
    - In-place updates become explicit state passing: a loop is a fold
      over [seq 0 n] that threads the array(s) it mutates.
    - Library routines (NumPy reductions, SciPy's labelling and
      smoothing) are modelled from their documentation; SciPy's routines
      are arguments of the functions that call them. *)

From Stdlib Require Import Floats ZArith Lia.
From stdpp Require Import base option list gmap strings.

#[local] Set Warnings "-inexact-float".

Local Open Scope Z_scope.
Local Open Scope nat_scope.
Local Open Scope string_scope.
Local Open Scope list_scope.

(** ** Python exceptions *)

Inductive pyexc : Type :=
  | ValueError (msg : string)
  | IndexError
  | KeyError.

Inductive pyresult (A : Type) : Type :=
  | Ok (a : A)
  | Raise (e : pyexc).
Arguments Ok {A} a.
Arguments Raise {A} e.

#[global] Instance pyresult_ret : MRet pyresult := fun A a => Ok a.
#[global] Instance pyresult_bind : MBind pyresult := fun A B f m =>
  match m with
  | Ok a => f a
  | Raise e => Raise e
  end.

(** [for x in xs: s = body(s, x)], stopping at the first exception. *)
Fixpoint for_each {A S : Type} (xs : list A) (body : S -> A -> pyresult S)
    (s : S) : pyresult S :=
  match xs with
  | [] => Ok s
  | x :: xs' => s' ← body s x; for_each xs' body s'
  end.

(** ** Arrays *)

Abbreviation vector := (list float) (only parsing).
Abbreviation array2d := (list (list float)) (only parsing).

(** [m.shape] of a two-dimensional array. *)
Definition ncols {A : Type} (m : list (list A)) : nat :=
  match m with
  | [] => 0
  | row :: _ => length row
  end.

Definition shape {A : Type} (m : list (list A)) : nat * nat :=
  (length m, ncols m).

(** The arrays NumPy can build: [r] rows of [c] entries each. *)
Definition is_matrix {A : Type} (r c : nat) (m : list (list A)) : Prop :=
  length m = r /\ Forall (fun row => length row = c) m.

(** [m[i, j]] as an expression, for indices that are not negative. *)
Definition get2 {A : Type} (m : list (list A)) (i j : nat) : pyresult A :=
  match m !! i with
  | Some row =>
      match row !! j with
      | Some v => Ok v
      | None => Raise IndexError
      end
  | None => Raise IndexError
  end.

(** [m[i, j] = v]. *)
Definition set2 {A : Type} (m : list (list A)) (i j : nat) (v : A)
    : pyresult (list (list A)) :=
  match m !! i with
  | Some row =>
      if decide (j < length row) then Ok (<[i := <[j := v]> row]> m)
      else Raise IndexError
  | None => Raise IndexError
  end.

(** The entry at [(i, j)], when there is one. *)
Definition entry {A : Type} (m : list (list A)) (i j : nat) : option A :=
  m !! i ≫= (fun row => row !! j).

Definition np_zeros (r c : nat) : array2d := replicate r (replicate c 0%float).

(** ** NumPy reductions

    The sum of a one-dimensional array follows NumPy's pairwise
    summation, so that sums, means and standard deviations round as
    they do in NumPy; the sums along the first axis of a matrix add row
    after row. *)

Definition float_of_nat (n : nat) : float :=
  PrimFloat.of_uint63 (Uint63.of_Z (Z.of_nat n)).

(** The loop of the pairwise summation over the groups of 8 values:
    [r[k] += a[i + k]] for the 8 running sums [r]. *)
Fixpoint sum_lanes (groups : nat) (r l : list float) : list float :=
  match groups with
  | 0 => r
  | S groups' => sum_lanes groups' (zip_with PrimFloat.add r (take 8 l)) (drop 8 l)
  end.

(** [((r[0] + r[1]) + (r[2] + r[3])) + ((r[4] + r[5]) + (r[6] + r[7]))]. *)
Definition combine_lanes (r : list float) : float :=
  match r with
  | [r0; r1; r2; r3; r4; r5; r6; r7] =>
      (((r0 + r1) + (r2 + r3)) + ((r4 + r5) + (r6 + r7)))%float
  | _ => nan
  end.

(** A block of 8 to 128 values: the first 8 values start the running
    sums, the following groups of 8 are added to them, the running sums
    are combined, and the values left over (fewer than 8) are added one
    after the other. *)
Definition block_sum (l : list float) : float :=
  let n := length l in
  let r := sum_lanes ((n - n mod 8) / 8 - 1) (take 8 l) (drop 8 l) in
  fold_left PrimFloat.add (drop (n - n mod 8) l) (combine_lanes r).

(** NumPy's pairwise summation: fewer than 8 values are added one after
    the other, up to 128 values make one block, and a longer array is
    split in two at a multiple of 8 near its middle. ([fuel] bounds the
    depth of the splitting; the length of the array is enough.) *)
Fixpoint pairwise_sum (fuel : nat) (l : list float) : float :=
  let n := length l in
  if decide (n < 8) then fold_left PrimFloat.add l 0%float
  else if decide (n <= 128) then block_sum l
  else
    match fuel with
    | 0 => block_sum l
    | S fuel' =>
        let n2 := n / 2 - (n / 2) mod 8 in
        (pairwise_sum fuel' (take n2 l) + pairwise_sum fuel' (drop n2 l))%float
    end.

(** [np.sum] of a one-dimensional array (also [np.add.reduce], which
    [np.mean] and [np.std] call): the pairwise sum is added to the
    starting value [0.0]. *)
Definition np_sum (l : vector) : float := (0 + pairwise_sum (length l) l)%float.

Definition np_mean (l : vector) : float :=
  (np_sum l / float_of_nat (length l))%float.

(** [np.std]: the population standard deviation,
    [sqrt(mean(abs(x - x.mean())**2))]. *)
Definition np_std (l : vector) : float :=
  let m := np_mean l in
  PrimFloat.sqrt (np_mean (map (fun x => ((x - m) * (x - m))%float) l)).

Fixpoint insert_sorted (x : float) (l : vector) : vector :=
  match l with
  | [] => [x]
  | y :: l' => if (x <=? y)%float then x :: l else y :: insert_sorted x l'
  end.

Definition np_sort (l : vector) : vector := foldr insert_sorted [] l.

(** [np.median]: not-a-number as soon as one entry is (or none is there),
    else the middle of the sorted values, the mean of the two middle
    ones when their number is even. *)
Definition np_median (l : vector) : float :=
  if existsb PrimFloat.is_nan l then nan
  else
    let s := np_sort l in
    let n := length l in
    if decide (n = 0) then nan
    else if Nat.even n
    then np_mean [default nan (s !! (n / 2 - 1)); default nan (s !! (n / 2))]
    else default nan (s !! (n / 2)).

(** [m.sum(axis=0)]: the sums of the columns. *)
Definition np_sum_axis0 (m : array2d) : vector :=
  fold_left (zip_with PrimFloat.add) m (replicate (ncols m) 0%float).

(** [A[np.isnan(A)] = v]. *)
Definition replace_nan (v : float) (m : array2d) : array2d :=
  map (map (fun x => if PrimFloat.is_nan x then v else x)) m.

(** ** [distance_law] *)

(** [np.diag(matrix, -d)]: the entries [(d + i, i)], for as long as the
    row and the column both exist. *)
Fixpoint diag_from {A : Type} (rows : list (list A)) (i : nat) : list A :=
  match rows with
  | [] => []
  | row :: rows' =>
      match row !! i with
      | Some v => v :: diag_from rows' (S i)
      | None => []
      end
  end.

Definition np_diag_lower {A : Type} (m : list (list A)) (d : nat) : list A :=
  diag_from (drop d m) 0.

Definition distance_law (matrix : array2d) : vector :=
  let n := length matrix in
  let dist := replicate n 0%float in
  fold_left (fun dist diag => <[diag := np_mean (np_diag_lower matrix diag)]> dist)
    (seq 0 n) dist.

(** The values the specification averages for distance [d]: the entries
    [(i, i - d)] for the row indices [i] from [d] to [n - 1]. *)
Definition lower_diagonal (m : array2d) (d : nat) : vector :=
  omap (fun i => entry m i (i - d)) (seq d (length m - d)).

(** The worked example of the docstring: ones plus the row [1, 2, 3]. *)
Definition docstring_matrix : array2d :=
  map (fun row => zip_with PrimFloat.add row [1; 2; 3]%float)
    (replicate 3 (replicate 3 1%float)).

(** ** [scn_func] *)

(** [np.where(p(l))[0]]: the indices of the entries that satisfy [p],
    in increasing order. *)
Fixpoint indices_from {A : Type} (p : A -> bool) (i : nat) (l : list A) : list nat :=
  match l with
  | [] => []
  | x :: l' => if p x then i :: indices_from p (S i) l' else indices_from p (S i) l'
  end.

Definition indices_where {A : Type} (p : A -> bool) (l : list A) : list nat :=
  indices_from p 0 l.

Fixpoint py_mapM {A B : Type} (f : A -> pyresult B) (l : list A) : pyresult (list B) :=
  match l with
  | [] => Ok []
  | x :: l' => y ← f x; ys ← py_mapM f l'; Ok (y :: ys)
  end.

(** [A[rows, c]] and [A[r, cols]] with a list of indices. *)
Definition gather_col (A : array2d) (rows : list nat) (c : nat) : pyresult vector :=
  py_mapM (fun r => get2 A r c) rows.
Definition gather_row (A : array2d) (r : nat) (cols : list nat) : pyresult vector :=
  py_mapM (fun c => get2 A r c) cols.

(** [A[rows, c] = vals] and [A[r, cols] = vals]. *)
Definition scatter_col (A : array2d) (rows : list nat) (c : nat) (vals : vector)
    : pyresult array2d :=
  for_each (zip rows vals) (fun A '(r, v) => set2 A r c v) A.
Definition scatter_row (A : array2d) (r : nat) (cols : list nat) (vals : vector)
    : pyresult array2d :=
  for_each (zip cols vals) (fun A '(c, v) => set2 A r c v) A.

(** [A[rows, c] = v] and [A[r, cols] = v] with a scalar [v]. *)
Definition fill_col (A : array2d) (rows : list nat) (c : nat) (v : float)
    : pyresult array2d :=
  for_each rows (fun A r => set2 A r c v) A.
Definition fill_row (A : array2d) (r : nat) (cols : list nat) (v : float)
    : pyresult array2d :=
  for_each cols (fun A c => set2 A r c v) A.

(** The activity marks of the rows: [1.] when the row sum exceeds the
    threshold, else [0.]. *)
Definition scn_keep (A : array2d) (threshold : float) : vector :=
  map (fun row => if (threshold <? np_sum row)%float then 1%float else 0%float) A.

(** One pass over the columns: the active rows of a column are divided by
    their sum, the inactive ones are zeroed. *)
Definition scn_columns (indices1 indices2 : list nat) (n1 : nat) (A : array2d)
    : pyresult array2d :=
  for_each (seq 0 n1) (fun A i =>
    col ← gather_col A indices1 i;
    A ← scatter_col A indices1 i (map (fun v => (v / np_sum col)%float) col);
    fill_col A indices2 i 0%float) A.

(** One pass over the rows, likewise. *)
Definition scn_rows (indices1 indices2 : list nat) (n1 : nat) (A : array2d)
    : pyresult array2d :=
  for_each (seq 0 n1) (fun A i =>
    row ← gather_row A i indices1;
    A ← scatter_row A i indices1 (map (fun v => (v / np_sum row)%float) row);
    fill_row A i indices2 0%float) A.

Definition scn_iteration (indices1 indices2 : list nat) (n1 : nat) (A : array2d)
    : pyresult array2d :=
  A ← scn_columns indices1 indices2 n1 A;
  let A := replace_nan 0%float A in
  A ← scn_rows indices1 indices2 n1 A;
  Ok (replace_nan 0%float A).

Definition scn_func (A : array2d) (threshold : float) : pyresult array2d :=
  let n1 := length A in
  let n_iterations := 10 in
  let keep := scn_keep A threshold in
  let indices1 := indices_where (fun k => (0 <? k)%float) keep in
  let indices2 := indices_where (fun k => (k <=? 0)%float) keep in
  for_each (seq 0 n_iterations) (fun A _ => scn_iteration indices1 indices2 n1 A) A.

(** The bins [bin] whose row and column hold nothing but zeros. *)
Definition zero_bin (n : nat) (m : array2d) (bin : nat) : Prop :=
  forall k, k < n -> entry m bin k = Some 0%float /\ entry m k bin = Some 0%float.

(** The rows [scn_func] leaves out: their sum does not exceed the
    threshold. *)
Definition inactive_row (A : array2d) (threshold : float) (i : nat) : Prop :=
  exists row, A !! i = Some row /\ (threshold <? np_sum row)%float = false.


(** The rows a run of [scn_func] on [A] finds active ([indices1[0]])
    and inactive ([indices2[0]]). *)
Definition scn_active (A : array2d) (threshold : float) : list nat :=
  indices_where (fun k => (0 <? k)%float) (scn_keep A threshold).

Definition scn_inactive (A : array2d) (threshold : float) : list nat :=
  indices_where (fun k => (k <=? 0)%float) (scn_keep A threshold).

(** The run on [A] has converged at [B]: one more iteration of its loop
    (the pass over the columns, then the pass over the rows, with the
    rows that are active in [A]) leaves [B] as it is. *)
Definition scn_converged (A B : array2d) (threshold : float) : Prop :=
  scn_iteration (scn_active A threshold) (scn_inactive A threshold) (length A) B = Ok B.

(** The assignments of [scn_func] seen as lists of writes
    [(row, column, value)], done one after the other. *)
Definition apply_writes (ws : list (nat * nat * float)) (A : array2d) : pyresult array2d :=
  for_each ws (fun A w => set2 A w.1.1 w.1.2 w.2) A.

(** The writes of [A[rows, c] = vals] (with [pos r = (r, c)]) and of
    [A[r, cols] = vals] (with [pos c = (r, c)]). *)
Definition line_writes (pos : nat -> nat * nat) (idx : list nat) (vals : vector)
    : list (nat * nat * float) :=
  map (fun kv : nat * float => (pos kv.1, kv.2)) (zip idx vals).

(** One step of a pass of [scn_func] along the line [pos]: the entries at
    [idx1] are divided by their sum, those at [idx2] are zeroed. *)
Definition scn_line (pos : nat -> nat * nat) (idx1 idx2 : list nat) (A : array2d)
    : pyresult array2d :=
  vals ← py_mapM (fun k => get2 A (pos k).1 (pos k).2) idx1;
  apply_writes
    (line_writes pos idx1 (map (fun v => (v / np_sum vals)%float) vals)
     ++ map (fun k => (pos k, 0%float)) idx2) A.

(** ** [despeckles] *)

(** [d[k]] on a dictionary. *)
Definition dict_get {V : Type} (d : gmap nat V) (k : nat) : pyresult V :=
  match d !! k with
  | Some v => Ok v
  | None => Raise KeyError
  end.

(** The first pass: [dist[nw]] lists the values [A[j, j + nw]]. *)
Definition despeckles_group (A : array2d) (n1 nw : nat) : pyresult vector :=
  for_each (seq 0 n1) (fun group j =>
    let lp := j + nw in
    if decide (lp < n1) then v ← get2 A j lp; Ok (group ++ [v])
    else Ok group) [].

Definition despeckles_dist (A : array2d) (n1 : nat) : pyresult (gmap nat vector) :=
  for_each (seq 0 n1) (fun dist nw =>
    group ← despeckles_group A n1 nw;
    Ok (<[nw := group]> dist)) ∅.

(** The state of the second pass: the matrix, [n_speckles], [outlier]. *)
Abbreviation speckle_state := (list (list float) * nat * list (nat * nat))%type (only parsing).

(** [if A[j, c] > np.median(dist[nw]) + th2 * np.std(dist[nw]): ...],
    the test the second pass makes at [(j, lp)] and at [(j, kp)]. *)
Definition clip_at (dist : gmap nat vector) (th2 : float) (nw j c : nat)
    (st : speckle_state) : pyresult speckle_state :=
  let '(A, n_speckles, outlier) := st in
  v ← get2 A j c;
  d ← dict_get dist nw;
  if (np_median d + th2 * np_std d <? v)%float then
    A' ← set2 A j c 0%float;
    Ok (A', S n_speckles, outlier ++ [(j, c)])
  else Ok st.

Definition despeckles_step (dist : gmap nat vector) (th2 : float) (n1 nw : nat)
    (st : speckle_state) (j : nat) : pyresult speckle_state :=
  let lp := j + nw in
  let kp := (Z.of_nat j - Z.of_nat nw)%Z in
  st ← (if decide (lp < n1) then clip_at dist th2 nw j lp st else Ok st);
  if decide (0 <= kp)%Z then clip_at dist th2 nw j (Z.to_nat kp) st else Ok st.

Definition despeckles_clip (dist : gmap nat vector) (th2 : float) (n1 : nat)
    (st : speckle_state) : pyresult speckle_state :=
  for_each (seq 0 n1) (fun st nw =>
    for_each (seq 0 n1) (despeckles_step dist th2 n1 nw) st) st.

Definition despeckles (A : array2d) (th2 : float)
    : pyresult (gmap nat vector * array2d * nat * list (nat * nat)) :=
  let n_speckles := 0 in
  let outlier := [] in
  let n1 := length A in
  dist ← despeckles_dist A n1;
  '(A, n_speckles, outlier) ← despeckles_clip dist th2 n1 (A, n_speckles, outlier);
  Ok (dist, A, n_speckles, outlier).

(** The specification's reading of the filter: the statistics are taken
    from a snapshot of the input, every threshold is fixed before the
    first write, and the clipping pass only consults those thresholds. *)
Definition snapshot_values (A : array2d) (nw : nat) : vector :=
  omap (fun j => entry A j (j + nw)) (seq 0 (length A - nw)).

Definition snapshot_threshold (A : array2d) (th2 : float) (nw : nat) : float :=
  (np_median (snapshot_values A nw) + th2 * np_std (snapshot_values A nw))%float.

Definition snapshot_clip_at (thr : nat -> float) (nw j c : nat)
    (st : speckle_state) : pyresult speckle_state :=
  let '(B, n_speckles, outlier) := st in
  v ← get2 B j c;
  if (thr nw <? v)%float then
    B' ← set2 B j c 0%float;
    Ok (B', S n_speckles, outlier ++ [(j, c)])
  else Ok st.

Definition snapshot_step (thr : nat -> float) (n1 nw : nat)
    (st : speckle_state) (j : nat) : pyresult speckle_state :=
  st ← (if decide (j + nw < n1) then snapshot_clip_at thr nw j (j + nw) st else Ok st);
  if decide (nw <= j) then snapshot_clip_at thr nw j (j - nw) st else Ok st.

Definition snapshot_clip (thr : nat -> float) (n1 : nat) (st : speckle_state)
    : pyresult speckle_state :=
  for_each (seq 0 n1) (fun st nw => for_each (seq 0 n1) (snapshot_step thr n1 nw) st) st.

(** What the second pass keeps true from one test to the next. *)
Definition speckles_recorded (n1 : nat) (st : list (list float) * nat * list (nat * nat))
    : Prop :=
  is_matrix n1 n1 st.1.1 /\
  st.1.2 = length st.2 /\
  forall r c, (r, c) ∈ st.2 -> entry st.1.1 r c = Some 0%float.

(** A matrix with one speckle on each side of the diagonal. *)
Definition speckled_matrix : list (list float) :=
  [[1; 2; 3; 4]; [2; 1; 2; 3]; [3; 2; 1; 50]; [4; 3; 50; 1]]%float.

(** The distance of the pixel [(r, c)] to the diagonal, [|r - c|]. *)
Definition diagonal_distance (r c : nat) : nat := (r - c) + (c - r).

(** What the clipping pass leaves of the value [v] at [(r, c)] when the
    thresholds are [thr]. *)
Definition clipped (thr : nat -> float) (r c : nat) (v : float) : float :=
  if (thr (diagonal_distance r c) <? v)%float then 0%float else v.

(** [m] equals its transpose. *)
Definition symmetric {A : Type} (m : list (list A)) : Prop :=
  forall i j, entry m i j = entry m j i.

(** ** [picker] *)

(** What [picker] returns: the string ["NA"] or an array of coordinates. *)
Inductive picker_result : Type :=
  | NA
  | Coords (ijs : list (nat * nat)).

(** [np.any(p(m))]. *)
Definition np_any {A : Type} (p : A -> bool) (m : list (list A)) : bool :=
  existsb (existsb p) m.

(** [np.array(np.where(p(m))).T]: the positions of the entries that
    satisfy [p], row after row. *)
Fixpoint where_from {A : Type} (p : A -> bool) (i : nat) (m : list (list A))
    : list (nat * nat) :=
  match m with
  | [] => []
  | row :: m' => map (fun j => (i, j)) (indices_where p row) ++ where_from p (S i) m'
  end.

Definition np_where {A : Type} (p : A -> bool) (m : list (list A)) : list (nat * nat) :=
  where_from p 0 m.

(** [np.argmax] of a one-dimensional array of doubles: the first index of
    the maximum; a not-a-number, once met, is the maximum. *)
Fixpoint argmax_from (mp : float) (max_ind i : nat) (l : vector) : nat :=
  match l with
  | [] => max_ind
  | x :: l' =>
      if PrimFloat.is_nan mp then max_ind
      else if negb (x <=? mp)%float then argmax_from x i (S i) l'
      else argmax_from mp max_ind (S i) l'
  end.

Definition np_argmax (l : vector) : pyresult nat :=
  match l with
  | [] => Raise (ValueError "attempt to get an argmax of an empty sequence")
  | x :: l' => Ok (argmax_from x 0 1 l')
  end.

(** [l[i]] on a sequence, for an index that is not negative. *)
Definition get1 {A : Type} (l : list A) (i : nat) : pyresult A :=
  match l !! i with
  | Some v => Ok v
  | None => Raise IndexError
  end.

(** [a[mask]] with a boolean array: the entries of [a] where [mask]
    holds; the shapes must agree. *)
Definition bool_mask_index {A : Type} (a : list (list A)) (mask : list (list bool))
    : pyresult (list A) :=
  if decide (map length a = map length mask)
  then py_mapM (fun '(i, j) => get2 a i j) (np_where id mask)
  else Raise IndexError.

(** [a.sum()] of a boolean array. *)
Definition bool_sum (a : list (list bool)) : nat :=
  length (filter (fun b => b = true) (mjoin a)).

(** [scipy.ndimage.measurements.label] with its default structuring
    element: the labelled array and the number of features. *)
Abbreviation labeller := (list (list bool) -> list (list nat) * nat) (only parsing).

(** [a[~remove_p, :]]: the rows of [a] whose mark is off. *)
Definition select_kept {A : Type} (a : list A) (remove_p : list bool) : list A :=
  omap (fun xr : A * bool => if xr.2 then None else Some xr.1) (zip a remove_p).

Definition candidate_mask (raw_ijs : list (nat * nat)) : list (list bool) :=
  let I := max_list (raw_ijs.*1) in
  let J := max_list (raw_ijs.*2) in
  fold_left (fun (m : list (list bool)) '(i, j) =>
      <[i := <[j := true]> (default [] (m !! i))]> m)
    raw_ijs (replicate (I + 1) (replicate (J + 1) false)).

(** The body of the loop over the features. *)
Definition picker_feature (probas : array2d) (candidate_p : list (list bool))
    (labelled_mat : list (list nat))
    (st : list (nat * nat) * list bool) (ff : nat)
    : pyresult (list (nat * nat) * list bool) :=
  let '(ijs, remove_p) := st in
  let label_p := map (map (fun l => bool_decide (l = ff + 1))) labelled_mat in
  cand ← bool_mask_index candidate_p label_p;
  if decide (length (filter (fun b => b = true) cand) = 0)
  then Ok (ijs, <[ff := true]> remove_p)
  else if decide (bool_sum label_p = 1)
  then Ok (ijs, <[ff := true]> remove_p)
  else
    let label_ijs := np_where id label_p in
    vals ← py_mapM (fun '(i, j) => get2 probas i j) label_ijs;
    ijmax ← np_argmax vals;
    ij ← get1 label_ijs ijmax;
    Ok (<[ff := ij]> ijs, remove_p).

Definition picker (label : labeller) (probas : array2d) (thres : float)
    : pyresult picker_result :=
  if np_any (fun v => (1 <? v)%float) probas
  then Raise (ValueError "probas must be <= 1.0")
  else if np_any (fun v => (v <? 0)%float) probas
  then Raise (ValueError "probas must be >= 0.0")
  else
    let raw_ijs := np_where (fun v => (thres <? v)%float) probas in
    if decide (0 < length raw_ijs) then
      let candidate_p := candidate_mask raw_ijs in
      let '(labelled_mat, num_features) := label candidate_p in
      let ijs := replicate num_features (0, 0) in
      let remove_p := replicate num_features false in
      '(ijs, remove_p) ←
        for_each (seq 0 num_features)
          (picker_feature probas candidate_p labelled_mat) (ijs, remove_p);
      Ok (Coords (select_kept ijs remove_p))
    else Ok NA.

(** *** What SciPy documents about [label]

    With the default structuring element two pixels are neighbours when
    they differ by one step along one axis. Features are the classes of
    foreground pixels linked by chains of neighbours; they are numbered
    from 1 to the number of features, the background is 0. *)

Definition adjacent4 (p q : nat * nat) : Prop :=
  (p.1 = q.1 /\ (p.2 = S q.2 \/ q.2 = S p.2)) \/
  (p.2 = q.2 /\ (p.1 = S q.1 \/ q.1 = S p.1)).

Definition foreground (mask : list (list bool)) (p : nat * nat) : Prop :=
  entry mask p.1 p.2 = Some true.

Definition linked (mask : list (list bool)) (p q : nat * nat) : Prop :=
  foreground mask p /\ foreground mask q /\ adjacent4 p q.

Definition connected4 (mask : list (list bool)) : relation (nat * nat) :=
  rtc (linked mask).

Record label_contract (mask : list (list bool)) (res : list (list nat) * nat) : Prop := {
  label_shape : map length res.1 = map length mask;
  label_background : forall i j l,
    entry res.1 i j = Some l -> (l = 0 <-> entry mask i j = Some false);
  label_bound : forall i j l, entry res.1 i j = Some l -> l <= res.2;
  label_onto : forall l, 1 <= l <= res.2 -> exists i j, entry res.1 i j = Some l;
  label_adjacent : forall p q,
    linked mask p q -> entry res.1 p.1 p.2 = entry res.1 q.1 q.2;
  label_connected : forall p q l,
    l <> 0 -> entry res.1 p.1 p.2 = Some l -> entry res.1 q.1 q.2 = Some l ->
    connected4 mask p q
}.

(** *** A reference labelling, to run [picker]

    Every foreground pixel starts with a number of its own; the numbers
    then flow to the smallest among the neighbours until nothing can
    change, and are renamed 1, 2, ... in the order of a raster scan. *)

Definition flow_step (cur : list (list nat)) : list (list nat) :=
  imap (fun i row =>
    imap (fun j l =>
      if decide (l = 0) then 0
      else
        let around :=
          [entry cur (S i) j; entry cur i (S j);
           (if decide (i = 0) then None else entry cur (i - 1) j);
           (if decide (j = 0) then None else entry cur i (j - 1))] in
        fold_left (fun acc o =>
          match o with
          | Some k => if decide (k = 0) then acc else Nat.min acc k
          | None => acc
          end) around l) row) cur.

Definition flow_init (mask : list (list bool)) : list (list nat) :=
  imap (fun i row =>
    imap (fun j (b : bool) => if b then S (i * length row + j) else 0) row) mask.

Definition first_seen (ls : list nat) : list nat :=
  fold_left (fun seen l =>
    if decide (l = 0) then seen
    else if decide (l ∈ seen) then seen else seen ++ [l]) ls [].

Fixpoint position_of (l : nat) (seen : list nat) : nat :=
  match seen with
  | [] => 0
  | k :: seen' => if decide (k = l) then 1 else
      match position_of l seen' with
      | 0 => 0
      | S n => S (S n)
      end
  end.

Definition reference_label : labeller := fun mask =>
  let n := length (mjoin mask) in
  let flowed := Nat.iter n flow_step (flow_init mask) in
  let seen := first_seen (mjoin flowed) in
  (map (map (fun l => position_of l seen)) flowed, length seen).

(** *** The scene of the specification's example

    Two isolated pixels [a] and [b] and a blob [p1 - p2 - p3] (three
    pixels chained by neighbourhood) are the positions above the
    threshold. *)

Definition exceeds (probas : array2d) (thres : float) (p : nat * nat) : Prop :=
  exists v, entry probas p.1 p.2 = Some v /\ (thres <? v)%float = true.

Record blob_scene (probas : array2d) (thres : float) (a b p1 p2 p3 : nat * nat) : Prop := {
  scene_distinct : NoDup [a; b; p1; p2; p3];
  scene_candidates : forall p, exceeds probas thres p <-> p ∈ [a; b; p1; p2; p3];
  scene_a_isolated : forall q, q ∈ [b; p1; p2; p3] -> ~ adjacent4 a q;
  scene_b_isolated : forall q, q ∈ [a; p1; p2; p3] -> ~ adjacent4 b q;
  scene_blob : adjacent4 p1 p2 /\ adjacent4 p2 p3
}.

(** Some probability is above 1 or below 0: what the sanity check of
    [picker] looks for. *)
Definition out_of_range (probas : array2d) : Prop :=
  exists i j v, entry probas i j = Some v /\
    ((1 <? v)%float = true \/ (v <? 0)%float = true).

Definition in_unit_interval (probas : array2d) : Prop :=
  forall i j v, entry probas i j = Some v ->
    (0 <=? v)%float = true /\ (v <=? 1)%float = true.

(** A map to run [picker] on: two single pixels in the corners of the
    first row and an L-shaped blob of three pixels. *)
Definition example_probas : list (list float) :=
  [[0.9; 0; 0; 0; 0.95];
   [0; 0; 0; 0; 0];
   [0; 0.85; 0.9; 0; 0];
   [0; 0; 0.99; 0; 0]]%float.

(** The labelled array [picker] works on. *)
Definition picker_labels (label : list (list bool) -> list (list nat) * nat)
    (probas : list (list float)) (thres : float) : list (list nat) :=
  (label (candidate_mask (np_where (fun v => (thres <? v)%float) probas))).1.

(** What the loop of [picker] stores for a feature [ff] that it keeps:
    the pixel of the feature at which [np.argmax] finds the largest
    probability; such a feature is not a single pixel. *)
Definition picker_choice (probas : list (list float)) (labelled_mat : list (list nat))
    (ff : nat) (c : nat * nat) : Prop :=
  let label_p := map (map (fun l => bool_decide (l = ff + 1))) labelled_mat in
  let label_ijs := np_where id label_p in
  bool_sum label_p <> 1 /\
  exists vals ijmax,
    py_mapM (fun '(i, j) => get2 probas i j) label_ijs = Ok vals /\
    np_argmax vals = Ok ijmax /\
    label_ijs !! ijmax = Some c.

(** ** [detrend] *)

(** [scipy.signal.savgol_filter(x, window_length, polyorder)] with the
    default mode ['interp']: the arguments are checked, then the fitted
    values are returned. The fit itself is the argument [savgol_fit]; it
    returns as many values as it is given. *)
Definition savgol_filter (savgol_fit : nat -> nat -> vector -> vector)
    (x : vector) (window_length polyorder : nat) : pyresult vector :=
  if decide (window_length <= polyorder)
  then Raise (ValueError "polyorder must be less than window_length.")
  else if decide (length x < window_length)
  then Raise (ValueError
    "If mode is 'interp', window_length must be less than or equal to the size of x.")
  else Ok (savgol_fit window_length polyorder x).

(** [a / b] on two arrays of one shape. (Shapes that differ are refused;
    the broadcasting of an axis of length one is not modelled.) *)
Definition np_divide (a b : array2d) : pyresult array2d :=
  if decide (map length a = map length b)
  then Ok (zip_with (zip_with PrimFloat.div) a b)
  else Raise (ValueError "operands could not be broadcast together").

(** [m[i, :] = row]. *)
Definition set_row (m : array2d) (i : nat) (row : vector) : pyresult array2d :=
  match m !! i with
  | Some old =>
      if decide (length old = length row) then Ok (<[i := row]> m)
      else Raise (ValueError "shape mismatch")
  | None => Raise IndexError
  end.

(** [m[:, j] = col]. *)
Definition set_col (m : array2d) (j : nat) (col : vector) : pyresult array2d :=
  if decide (length m = length col)
  then for_each (zip (seq 0 (length m)) col) (fun m '(i, v) => set2 m i j v) m
  else Raise (ValueError "shape mismatch").

Definition np_ones (r c : nat) : array2d := replicate r (replicate c 1%float).

(** [m[rows, :] = block], row [k] of the block going to row [rows[k]]. *)
Definition assign_rows (m : array2d) (rows : list nat) (block : array2d) : pyresult array2d :=
  for_each (zip rows block) (fun m '(i, row) => set_row m i row) m.

(** [m[:, cols] = block], column [k] of the block going to column [cols[k]]. *)
Definition assign_cols (m : array2d) (cols : list nat) (block : array2d) : pyresult array2d :=
  for_each (imap (fun k j => (k, j)) cols) (fun m '(k, j) =>
    col ← py_mapM (fun row : vector => get1 row k) block;
    set_col m j col) m.

Definition detrend (savgol_fit : nat -> nat -> vector -> vector) (matrix : array2d)
    : pyresult (array2d * float) :=
  let threshold_vector :=
    (np_median (np_sum_axis0 matrix) - 2 * np_std (np_sum_axis0 matrix))%float in
  let poor_indices :=
    indices_where (fun s => (s <=? threshold_vector)%float) (np_sum_axis0 matrix) in
  matscn ← scn_func matrix threshold_vector;
  '(_, matscn, _, _) ← despeckles matscn 10%float;
  let y := distance_law matscn in
  let y := map (fun v => if PrimFloat.is_nan v then 0%float else v) y in
  y_savgol ← savgol_filter savgol_fit y 17 5;
  let n := length matrix in
  distance_law_matrix ←
    for_each (seq 0 n) (fun D i =>
      for_each (seq 0 n) (fun D j =>
        v ← get1 y_savgol (Z.abs_nat (Z.of_nat j - Z.of_nat i));
        set2 D i j v) D) (np_zeros n n);
  detrended ← np_divide matscn distance_law_matrix;
  let detrended := replace_nan 1%float detrended in
  let detrended :=
    map (map (fun v => if (v <? 0)%float then 1%float else v)) detrended in
  detrended ← assign_rows detrended poor_indices (np_ones (length poor_indices) n);
  detrended ← assign_cols detrended poor_indices (np_ones n (length poor_indices));
  Ok (detrended, threshold_vector).

(** A contact map to run [detrend] on: 17 bins, of which bin 3 has hardly
    any contact. *)
Definition example_contacts : list (list float) :=
  map (fun i =>
    map (fun j =>
      if decide (i = 3 \/ j = 3) then 1%float
      else float_of_nat (20 + (i * j) mod 7)) (seq 0 17)) (seq 0 17).

(** What [detrend] makes of the quotient of a contact by the smoothed
    distance law: an undefined or negative quotient becomes the neutral
    1.0. *)
Definition neutralized (q : float) : float :=
  let q := if PrimFloat.is_nan q then 1%float else q in
  if (q <? 0)%float then 1%float else q.

(** The values [detrend] lets through: numbers that are not negative. *)
Definition detrended_value (v : float) : Prop :=
  PrimFloat.is_nan v = false /\ (v <? 0)%float = false.

(** ** [xcorr2] *)

(** Where a slice bound lands on an axis of length [len]: a negative
    bound counts from the end, and every bound is clipped to the axis. *)
Definition slice_index (len : nat) (v : Z) : nat :=
  Z.to_nat (if (v <? 0)%Z then Z.max 0 (v + Z.of_nat len) else Z.min v (Z.of_nat len)).

(** [l[start:stop]]. *)
Definition py_slice {A : Type} (l : list A) (start stop : Z) : list A :=
  let a := slice_index (length l) start in
  let b := slice_index (length l) stop in
  take (b - a) (drop a l).

(** [m[r0:r1, c0:c1]]. *)
Definition py_slice2 {A : Type} (m : list (list A)) (r0 r1 c0 c1 : Z) : list (list A) :=
  map (fun row => py_slice row c0 c1) (py_slice m r0 r1).

(** [l[start:stop] = block], for a block of the length of the slice. *)
Definition set_slice {A : Type} (l : list A) (start stop : Z) (block : list A) : list A :=
  let a := slice_index (length l) start in
  let b := slice_index (length l) stop in
  take a l ++ block ++ drop (a + (b - a)) l.

(** [m[r0:r1, c0:c1] = block]; the block must have the shape of the
    region. *)
Definition set_slice2 (m : array2d) (r0 r1 c0 c1 : Z) (block : array2d) : pyresult array2d :=
  if decide (map length (py_slice2 m r0 r1 c0 c1) = map length block)
  then Ok (set_slice m r0 r1
             (zip_with (fun row brow => set_slice row c0 c1 brow) (py_slice m r0 r1) block))
  else Raise (ValueError "operands could not be broadcast together").

(** [k * block] for a scalar [k], and the sum of two arrays. *)
Definition np_scale (k : float) (block : array2d) : array2d :=
  map (map (fun v => (k * v)%float)) block.

Definition np_add (a b : array2d) : pyresult array2d :=
  if decide (map length a = map length b)
  then Ok (zip_with (zip_with PrimFloat.add) a b)
  else Raise (ValueError "operands could not be broadcast together").

(** [kernel[ki, kj]] inside the loops over [range(Mk)] and [range(Nk)]. *)
Definition kernel_at (kernel : array2d) (ki kj : nat) : float :=
  default nan (entry kernel ki kj).

Definition range (n : Z) : list nat := seq 0 (Z.to_nat n).

Definition xcorr2 (signal kernel : array2d) (centered_p : bool) : pyresult array2d :=
  let Ms := Z.of_nat (length signal) in
  let Ns := Z.of_nat (ncols signal) in
  let Mk := Z.of_nat (length kernel) in
  let Nk := Z.of_nat (ncols kernel) in
  if decide (Ms < Mk \/ Ns < Nk)%Z
  then Raise (ValueError "cannot have kernel bigger than signal")
  else if negb centered_p then
    let out := np_zeros (Z.to_nat (Ms - Mk + 1)) (Z.to_nat (Ns - Nk + 1)) in
    for_each (range Mk) (fun out ki =>
      for_each (range Nk) (fun out kj =>
        np_add out
          (np_scale (kernel_at kernel ki kj)
             (py_slice2 signal (Z.of_nat ki) (Ms - Mk + 1 + Z.of_nat ki)
                               (Z.of_nat kj) (Ns - Nk + 1 + Z.of_nat kj)))) out) out
  else
    let Ki := ((Mk - 1) / 2)%Z in
    let Kj := ((Nk - 1) / 2)%Z in
    let out := map (map (fun v => (v + nan)%float))
                 (np_zeros (Z.to_nat Ms) (Z.to_nat Ns)) in
    let r1 := (Ms - (Mk - 1 - Ki))%Z in
    let c1 := (Ns - (Nk - 1 - Kj))%Z in
    out ← set_slice2 out Ki r1 Kj c1
            (map (map (fun _ => 0%float)) (py_slice2 out Ki r1 Kj c1));
    for_each (range Mk) (fun out ki =>
      for_each (range Nk) (fun out kj =>
        cur ← np_add (py_slice2 out Ki r1 Kj c1)
                (np_scale (kernel_at kernel ki kj)
                   (py_slice2 signal (Z.of_nat ki) (Ms - Mk + 1 + Z.of_nat ki)
                                     (Z.of_nat kj) (Ns - Nk + 1 + Z.of_nat kj)));
        set_slice2 out Ki r1 Kj c1 cur) out) out.

(** The correlation the specification describes at the window whose top
    left corner is [(i, j)]: the products are added to [0.0], kernel row
    after kernel row. [window_row] adds the first [n] products of kernel
    row [ki] to [acc], [window_rows] does the first [n] kernel rows. *)
Definition window_row (signal kernel : array2d) (i j ki n : nat) (acc : float) : float :=
  fold_left (fun acc kj =>
    (acc + kernel_at kernel ki kj * default nan (entry signal (i + ki) (j + kj)))%float)
    (seq 0 n) acc.

Definition window_rows (signal kernel : array2d) (i j n : nat) : float :=
  fold_left (fun acc ki => window_row signal kernel i j ki (ncols kernel) acc)
    (seq 0 n) 0%float.

Definition window_sum (signal kernel : array2d) (i j : nat) : float :=
  window_rows signal kernel i j (length kernel).

(** The arrays all of whose rows have one length. *)
Definition rectangular {A : Type} (m : list (list A)) : Prop :=
  is_matrix (length m) (ncols m) m.

(** [m] is the [r] by [c] array whose entry [(i, j)] is [f i j]. *)
Definition has_entries (r c : nat) (f : nat -> nat -> float) (m : array2d) : Prop :=
  is_matrix r c m /\ forall i j, i < r -> j < c -> entry m i j = Some (f i j).

(** The indices [(Mk-1)//2 <= i < Ms-(Mk-1-(Mk-1)//2)] of one axis, as
    integers. *)
Definition centered_region (Ms Mk : Z) (i : nat) : bool :=
  bool_decide ((Mk - 1) / 2 <= Z.of_nat i < Ms - (Mk - 1 - (Mk - 1) / 2))%Z.

(** The result the specification describes for the "valid" mode. *)
Definition valid_output (signal kernel out : array2d) : Prop :=
  has_entries (length signal - length kernel + 1) (ncols signal - ncols kernel + 1)
    (window_sum signal kernel) out.

(** The result the specification describes for the centered mode: a
    correlation at every index of the region, the undefined marker at
    every other index. *)
Definition centered_output (signal kernel out : array2d) : Prop :=
  let Ms := Z.of_nat (length signal) in
  let Ns := Z.of_nat (ncols signal) in
  let Mk := Z.of_nat (length kernel) in
  let Nk := Z.of_nat (ncols kernel) in
  has_entries (length signal) (ncols signal)
    (fun i j =>
       if centered_region Ms Mk i && centered_region Ns Nk j
       then window_sum signal kernel
              (Z.to_nat (Z.of_nat i - (Mk - 1) / 2)) (Z.to_nat (Z.of_nat j - (Nk - 1) / 2))
       else nan) out.

(** ** [corrcoef2d] *)

(** [m.size]. *)
Definition np_size {A : Type} (m : list (list A)) : nat := length m * ncols m.

(** [a - b] on two arrays of one shape. *)
Definition np_subtract (a b : list (list float)) : pyresult (list (list float)) :=
  if decide (map length a = map length b)
  then Ok (zip_with (zip_with PrimFloat.sub) a b)
  else Raise (ValueError "operands could not be broadcast together").

(** [m ** 2]: NumPy squares an array of doubles by one multiplication. *)
Definition np_square (m : list (list float)) : list (list float) :=
  map (map (fun v => (v * v)%float)) m.

(** [m / k] and [m * k] for a scalar [k]. *)
Definition np_divide_scalar (m : list (list float)) (k : float) : list (list float) :=
  map (map (fun v => (v / k)%float)) m.

Definition np_multiply_scalar (m : list (list float)) (k : float) : list (list float) :=
  map (map (fun v => (v * k)%float)) m.

Definition corrcoef2d (signal kernel : list (list float)) (centered_p : bool)
    : pyresult (list (list float)) :=
  let kernel1 :=
    np_divide_scalar (np_ones (length kernel) (ncols kernel))
      (float_of_nat (np_size kernel)) in
  mean_signal ← xcorr2 signal kernel1 centered_p;
  second ← xcorr2 (np_square signal) kernel1 centered_p;
  variance ← np_subtract second (np_square mean_signal);
  let std_signal := map (map PrimFloat.sqrt) variance in
  let mean_kernel := np_mean (mjoin kernel) in
  let std_kernel := np_std (mjoin kernel) in
  cross ← xcorr2 signal (np_divide_scalar kernel (float_of_nat (np_size kernel))) centered_p;
  numerator ← np_subtract cross (np_multiply_scalar mean_signal mean_kernel);
  np_divide numerator (np_multiply_scalar std_signal std_kernel).

(** The coefficient of the window whose top left corner is [(i, j)], from
    the three window sums [corrcoef2d] takes there. *)
Definition corrcoef_at (signal kernel : list (list float)) (i j : nat) : float :=
  let kernel1 :=
    np_divide_scalar (np_ones (length kernel) (ncols kernel))
      (float_of_nat (np_size kernel)) in
  let mean_signal := window_sum signal kernel1 i j in
  let std_signal :=
    PrimFloat.sqrt (window_sum (np_square signal) kernel1 i j - mean_signal * mean_signal) in
  ((window_sum signal (np_divide_scalar kernel (float_of_nat (np_size kernel))) i j
    - mean_signal * np_mean (mjoin kernel))
   / (std_signal * np_std (mjoin kernel)))%float.

(** The result of the "valid" mode and of the centered mode. *)
Definition corrcoef_valid_output (signal kernel out : list (list float)) : Prop :=
  has_entries (length signal - length kernel + 1) (ncols signal - ncols kernel + 1)
    (corrcoef_at signal kernel) out.

Definition corrcoef_centered_output (signal kernel out : list (list float)) : Prop :=
  let Ms := Z.of_nat (length signal) in
  let Ns := Z.of_nat (ncols signal) in
  let Mk := Z.of_nat (length kernel) in
  let Nk := Z.of_nat (ncols kernel) in
  has_entries (length signal) (ncols signal)
    (fun i j =>
       if centered_region Ms Mk i && centered_region Ns Nk j
       then corrcoef_at signal kernel
              (Z.to_nat (Z.of_nat i - (Mk - 1) / 2)) (Z.to_nat (Z.of_nat j - (Nk - 1) / 2))
       else nan) out.

(** ** The order of the doubles

    Every double that is a number has a place in the lexicographic order
    of the triples [(class, exponent, mantissa)]; the comparisons of the
    kernel's floats follow that order. *)
Definition float_key (x : spec_float) : Z * Z * Z :=
  match x with
  | S754_zero _ => (0, 0, 0)%Z
  | S754_infinity false => (2, 0, 0)%Z
  | S754_infinity true => (-2, 0, 0)%Z
  | S754_nan => (3, 0, 0)%Z
  | S754_finite false m e => (1, e, Z.pos m)%Z
  | S754_finite true m e => (-1, - e, Z.neg m)%Z
  end.

Definition key_compare (k1 k2 : Z * Z * Z) : comparison :=
  match (k1.1.1 ?= k2.1.1)%Z with
  | Eq =>
      match (k1.1.2 ?= k2.1.2)%Z with
      | Eq => (k1.2 ?= k2.2)%Z
      | c => c
      end
  | c => c
  end.

Definition key_le (k1 k2 : Z * Z * Z) : Prop :=
  (k1.1.1 < k2.1.1 \/
   (k1.1.1 = k2.1.1 /\ (k1.1.2 < k2.1.2 \/ (k1.1.2 = k2.1.2 /\ k1.2 <= k2.2))))%Z.

(** * Properties *)

(** ** The exception monad and its loops *)

Lemma bind_Ok {A B : Type} (m : pyresult A) (f : A -> pyresult B) (b : B) :
  m ≫= f = Ok b <-> exists a, m = Ok a /\ f a = Ok b.
Proof.
  destruct m as [a|e]; simpl; split.
  - intros H; exists a; auto.
  - intros (a' & [= <-] & H); exact H.
  - discriminate.
  - intros (a' & [=] & _).
Qed.

Lemma bind_Raise {A B : Type} (m : pyresult A) (f : A -> pyresult B) (e : pyexc) :
  m ≫= f = Raise e <-> m = Raise e \/ exists a, m = Ok a /\ f a = Raise e.
Proof.
  destruct m as [a|e']; simpl; split.
  - intros H; right; exists a; auto.
  - intros [[=]|(a' & [= <-] & H)]; exact H.
  - intros [= ->]; left; reflexivity.
  - intros [[= ->]|(a' & [=] & _)]; reflexivity.
Qed.

Lemma bind_unit {A B : Type} (a : A) (f : A -> pyresult B) : Ok a ≫= f = f a.
Proof. reflexivity. Qed.

Lemma for_each_cons {A S : Type} (x : A) (xs : list A) (body : S -> A -> pyresult S)
    (s : S) :
  for_each (x :: xs) body s = body s x ≫= for_each xs body.
Proof. reflexivity. Qed.

(** A loop that keeps an invariant and never raises returns a state
    that satisfies the invariant. *)
Lemma for_each_total {A S : Type} (P : S -> Prop) (xs : list A)
    (body : S -> A -> pyresult S) (s : S) :
  P s ->
  (forall s x, x ∈ xs -> P s -> exists s', body s x = Ok s' /\ P s') ->
  exists s', for_each xs body s = Ok s' /\ P s'.
Proof.
  revert s; induction xs as [|x xs IH]; intros s Hs Hbody; simpl.
  - exists s; auto.
  - destruct (Hbody s x) as (s1 & -> & Hs1); [left | exact Hs |].
    simpl. apply IH; [exact Hs1 |].
    intros s2 y Hy; apply Hbody; right; exact Hy.
Qed.

(** The same with an invariant that follows the loop index. *)
Lemma for_each_seq_total {S : Type} (P : nat -> S -> Prop) (a n : nat)
    (body : S -> nat -> pyresult S) (s : S) :
  P a s ->
  (forall k s, a <= k < a + n -> P k s -> exists s', body s k = Ok s' /\ P (Datatypes.S k) s') ->
  exists s', for_each (seq a n) body s = Ok s' /\ P (a + n) s'.
Proof.
  revert a s; induction n as [|n IH]; intros a s Hs Hbody; simpl.
  - exists s; rewrite Nat.add_0_r; auto.
  - destruct (Hbody a s) as (s1 & -> & Hs1); [lia | exact Hs |].
    simpl. replace (a + Datatypes.S n) with (Datatypes.S a + n) by lia.
    apply IH; [exact Hs1 |].
    intros k s2 Hk; apply Hbody; lia.
Qed.

Lemma for_each_range_total {S : Type} (P : nat -> S -> Prop) (n : nat)
    (body : S -> nat -> pyresult S) (s : S) :
  P 0 s ->
  (forall k s, k < n -> P k s -> exists s', body s k = Ok s' /\ P (Datatypes.S k) s') ->
  exists s', for_each (seq 0 n) body s = Ok s' /\ P n s'.
Proof.
  intros Hs Hbody.
  apply (for_each_seq_total P 0 n body s Hs).
  intros k s1 Hk; apply Hbody; lia.
Qed.

(** What a loop that returned has established. *)
Lemma for_each_returned {A S : Type} (P : S -> Prop) (xs : list A)
    (body : S -> A -> pyresult S) (s s' : S) :
  for_each xs body s = Ok s' ->
  P s ->
  (forall s x s1, x ∈ xs -> P s -> body s x = Ok s1 -> P s1) ->
  P s'.
Proof.
  revert s; induction xs as [|x xs IH]; intros s Hrun Hs Hbody; simpl in Hrun.
  - injection Hrun as <-; exact Hs.
  - apply bind_Ok in Hrun as (s1 & Hx & Hrun).
    apply (IH s1 Hrun).
    + apply (Hbody s x); [left | exact Hs | exact Hx].
    + intros s2 y s3 Hy; apply Hbody; right; exact Hy.
Qed.

(** ** Arrays *)

Lemma is_matrix_row {A : Type} (r c : nat) (m : list (list A)) (i : nat) (row : list A) :
  is_matrix r c m -> m !! i = Some row -> length row = c.
Proof.
  intros [_ Hrows] Hi. rewrite Forall_forall in Hrows.
  apply Hrows. apply list_elem_of_lookup. exists i; exact Hi.
Qed.

Lemma is_matrix_entry {A : Type} (r c : nat) (m : list (list A)) (i j : nat) :
  is_matrix r c m -> i < r -> j < c -> exists v, entry m i j = Some v.
Proof.
  intros Hm Hi Hj. unfold entry.
  destruct (lookup_lt_is_Some_2 m i) as [row Hrow]; [destruct Hm; lia |].
  rewrite Hrow; simpl.
  apply lookup_lt_is_Some_2. rewrite (is_matrix_row r c m i row Hm Hrow). exact Hj.
Qed.

Lemma entry_Some_lt {A : Type} (r c : nat) (m : list (list A)) (i j : nat) (v : A) :
  is_matrix r c m -> entry m i j = Some v -> i < r /\ j < c.
Proof.
  intros Hm. unfold entry. destruct (m !! i) as [row|] eqn:Hrow; simpl; [|discriminate].
  intros Hj. split.
  - destruct Hm as [<- _]. eapply lookup_lt_Some; exact Hrow.
  - rewrite <- (is_matrix_row r c m i row Hm Hrow). eapply lookup_lt_Some; exact Hj.
Qed.

Lemma get2_entry {A : Type} (m : list (list A)) (i j : nat) (v : A) :
  get2 m i j = Ok v <-> entry m i j = Some v.
Proof.
  unfold get2, entry. destruct (m !! i) as [row|]; simpl; [|split; discriminate].
  destruct (row !! j); split; congruence.
Qed.

Lemma omap_fmap_list {A B C : Type} (g : A -> B) (f : B -> option C) (l : list A) :
  omap f (g <$> l) = omap (fun x => f (g x)) l.
Proof.
  induction l as [|x l IH]; csimpl; [reflexivity|].
  rewrite IH; reflexivity.
Qed.

Lemma omap_ext_list {A B : Type} (f g : A -> option B) (l : list A) :
  (forall x, x ∈ l -> f x = g x) -> omap f l = omap g l.
Proof.
  induction l as [|x l IH]; intros Hfg; csimpl; [reflexivity|].
  rewrite (Hfg x) by left. rewrite IH; [reflexivity|].
  intros y Hy; apply Hfg; right; exact Hy.
Qed.

(** ** [distance_law] *)

Lemma insert_loop_length {A : Type} (f : nat -> A) (ks : list nat) (l : list A) :
  length (fold_left (fun acc i => <[i := f i]> acc) ks l) = length l.
Proof.
  revert l; induction ks as [|k ks IH]; intros l; simpl; [reflexivity|].
  rewrite IH. apply length_insert.
Qed.

Lemma insert_loop_before {A : Type} (f : nat -> A) (a n d : nat) (l : list A) :
  d < a ->
  fold_left (fun acc i => <[i := f i]> acc) (seq a n) l !! d = l !! d.
Proof.
  revert a l; induction n as [|n IH]; intros a l Hd; simpl; [reflexivity|].
  rewrite IH by lia. apply list_lookup_insert_ne. lia.
Qed.

Lemma insert_loop_lookup {A : Type} (f : nat -> A) (a n d : nat) (l : list A) :
  a <= d < a + n -> d < length l ->
  fold_left (fun acc i => <[i := f i]> acc) (seq a n) l !! d = Some (f d).
Proof.
  revert a l; induction n as [|n IH]; intros a l Hd Hlen; simpl; [lia|].
  destruct (decide (d = a)) as [->|Hne].
  - rewrite insert_loop_before by lia. apply list_lookup_insert_eq. exact Hlen.
  - apply IH; [lia|]. rewrite length_insert. exact Hlen.
Qed.

Lemma diag_from_square {A : Type} (rows : list (list A)) (c i : nat) :
  Forall (fun row => length row = c) rows -> i + length rows <= c ->
  diag_from rows i = omap (fun k => rows !! k ≫= (fun row => row !! (i + k)))
                       (seq 0 (length rows)).
Proof.
  revert i; induction rows as [|row rows IH]; intros i Hrows Hi; simpl; [reflexivity|].
  inversion Hrows as [|? ? Hrow Hrows']; subst. simpl in Hi.
  rewrite Nat.add_0_r.
  destruct (lookup_lt_is_Some_2 row i) as [v Hv]; [lia|].
  rewrite Hv; simpl. f_equal.
  rewrite (IH (S i) Hrows') by lia.
  rewrite <- (fmap_S_seq 0), omap_fmap_list.
  apply omap_ext_list. intros k _; simpl.
  replace (i + S k) with (S i + k) by lia. reflexivity.
Qed.

Lemma np_diag_lower_square (m : array2d) (n d : nat) :
  is_matrix n n m -> d <= n ->
  np_diag_lower m d = lower_diagonal m d /\ length (lower_diagonal m d) = n - d.
Proof.
  intros [Hlen Hrows] Hd.
  assert (Hdiag : np_diag_lower m d = lower_diagonal m d).
  { unfold np_diag_lower, lower_diagonal.
    rewrite (diag_from_square (drop d m) n 0).
    - rewrite length_drop.
      replace (seq d (length m - d)) with ((fun k => d + k) <$> seq 0 (length m - d)).
      + rewrite omap_fmap_list. apply omap_ext_list. intros k _; simpl.
        unfold entry. rewrite lookup_drop.
        replace (d + k - d) with k by lia. reflexivity.
      + rewrite fmap_add_seq. f_equal; lia.
    - apply Forall_drop; exact Hrows.
    - rewrite length_drop; lia. }
  split; [exact Hdiag|].
  rewrite <- Hdiag. unfold np_diag_lower.
  assert (Hgen : forall (rows : list (list float)) i,
    Forall (fun row => length row = n) rows -> i + length rows <= n ->
    length (diag_from rows i) = length rows).
  { induction rows as [|row rows IH]; intros i Hr Hi; simpl; [reflexivity|].
    inversion Hr as [|? ? Hrow Hr']; subst. simpl in Hi.
    destruct (lookup_lt_is_Some_2 row i) as [v Hv]; [lia|].
    rewrite Hv; simpl. rewrite IH; [reflexivity | exact Hr' | lia]. }
  rewrite Hgen; [rewrite length_drop; lia | apply Forall_drop; exact Hrows |].
  rewrite length_drop; lia.
Qed.

(** C8. [distance_law] only reads its argument (it has no effect to
    thread: the matrix is the same before and after) and returns a vector
    of the size of the matrix whose entry [d] is the mean of the values
    of the [d]-th lower diagonal, that is of the [n - d] entries
    [(i, i - d)] with [d <= i < n]; on the matrix of the docstring, whose
    rows all are [2, 3, 4], it returns [3.0, 2.5, 2.0]. *)
Theorem distance_law_lower_diagonal_mean (m : array2d) (n d : nat) :
  is_matrix n n m -> d < n ->
  length (distance_law m) = n /\
  length (lower_diagonal m d) = n - d /\
  distance_law m !! d = Some (np_mean (lower_diagonal m d)) /\
  docstring_matrix = [[2; 3; 4]; [2; 3; 4]; [2; 3; 4]]%float /\
  distance_law docstring_matrix = [3; 2.5; 2]%float.
Proof.
  intros Hm Hd. pose proof Hm as [Hlen _].
  destruct (np_diag_lower_square m n d Hm) as [Hdiag Hsize]; [lia|].
  unfold distance_law.
  split; [rewrite insert_loop_length, length_replicate; exact Hlen|].
  split; [exact Hsize|].
  split; [|split; reflexivity].
  rewrite (insert_loop_lookup (fun diag => np_mean (np_diag_lower m diag))).
  - rewrite Hdiag; reflexivity.
  - lia.
  - rewrite length_replicate; lia.
Qed.

Lemma distance_law_lower_diagonal_mean_witness :
  is_matrix 3 3 docstring_matrix /\
  distance_law docstring_matrix !! 1 = Some (np_mean (lower_diagonal docstring_matrix 1)).
Proof.
  assert (Hm : is_matrix 3 3 docstring_matrix).
  { split; [reflexivity|]. repeat constructor. }
  split; [exact Hm|].
  apply (distance_law_lower_diagonal_mean docstring_matrix 3 1 Hm). lia.
Defined.

(** ** Arrays seen as functions of the indices *)

Lemma is_matrix_map_length {A B : Type} (r c : nat) (m1 : list (list A)) (m2 : list (list B)) :
  is_matrix r c m1 -> is_matrix r c m2 -> map length m1 = map length m2.
Proof.
  intros [Hl1 Hr1] [Hl2 Hr2]. apply list_eq; intros i.
  rewrite !list_lookup_fmap.
  destruct (m1 !! i) as [row1|] eqn:H1, (m2 !! i) as [row2|] eqn:H2; simpl.
  - rewrite Forall_lookup in Hr1. rewrite Forall_lookup in Hr2.
    rewrite (Hr1 i row1 H1), (Hr2 i row2 H2); reflexivity.
  - apply lookup_lt_Some in H1. apply lookup_ge_None in H2. lia.
  - apply lookup_lt_Some in H2. apply lookup_ge_None in H1. lia.
  - reflexivity.
Qed.

Lemma has_entries_zeros (r c : nat) :
  has_entries r c (fun _ _ => 0%float) (np_zeros r c).
Proof.
  unfold np_zeros. split; [split|].
  - apply length_replicate.
  - apply Forall_replicate, length_replicate.
  - intros i j Hi Hj. unfold entry.
    rewrite lookup_replicate_2 by exact Hi. simpl.
    apply lookup_replicate_2; exact Hj.
Qed.

Lemma has_entries_map (g : float -> float) (r c : nat) (f : nat -> nat -> float)
    (m : array2d) :
  has_entries r c f m -> has_entries r c (fun i j => g (f i j)) (map (map g) m).
Proof.
  intros [[Hlen Hrows] Hf]. split; [split|].
  - rewrite length_map; exact Hlen.
  - apply Forall_fmap. eapply Forall_impl; [exact Hrows|].
    intros row Hrow; simpl. rewrite length_map; exact Hrow.
  - intros i j Hi Hj. specialize (Hf i j Hi Hj). unfold entry in *.
    change (map (map g) m) with (map g <$> m). rewrite list_lookup_fmap.
    destruct (m !! i) as [row|]; csimpl in *; [|discriminate].
    change (map g row) with (g <$> row). rewrite list_lookup_fmap, Hf; reflexivity.
Qed.

Lemma has_entries_zip_with (op : float -> float -> float) (r c : nat)
    (f1 f2 : nat -> nat -> float) (m1 m2 : array2d) :
  has_entries r c f1 m1 -> has_entries r c f2 m2 ->
  has_entries r c (fun i j => op (f1 i j) (f2 i j)) (zip_with (zip_with op) m1 m2).
Proof.
  intros [[Hl1 Hr1] Hf1] [[Hl2 Hr2] Hf2]. split; [split|].
  - rewrite length_zip_with; lia.
  - apply Forall_lookup; intros i row. rewrite lookup_zip_with.
    destruct (m1 !! i) as [row1|] eqn:H1; csimpl; [|discriminate].
    destruct (m2 !! i) as [row2|] eqn:H2; csimpl; [|discriminate].
    intros [= <-]. rewrite length_zip_with.
    rewrite Forall_lookup in Hr1. rewrite Forall_lookup in Hr2.
    rewrite (Hr1 i row1 H1), (Hr2 i row2 H2); lia.
  - intros i j Hi Hj. specialize (Hf1 i j Hi Hj). specialize (Hf2 i j Hi Hj).
    unfold entry in *. rewrite lookup_zip_with.
    destruct (m1 !! i) as [row1|]; csimpl in *; [|discriminate].
    destruct (m2 !! i) as [row2|]; csimpl in *; [|discriminate].
    rewrite lookup_zip_with, Hf1, Hf2; reflexivity.
Qed.

Lemma has_entries_ext (r c : nat) (f g : nat -> nat -> float) (m : array2d) :
  has_entries r c f m -> (forall i j, i < r -> j < c -> f i j = g i j) ->
  has_entries r c g m.
Proof.
  intros [Hm Hf] Hfg. split; [exact Hm|].
  intros i j Hi Hj. rewrite <- Hfg by assumption. apply Hf; assumption.
Qed.

(** ** Slices *)

Lemma slice_index_inside (len : nat) (a : nat) :
  a <= len -> slice_index len (Z.of_nat a) = a.
Proof.
  intros Ha. unfold slice_index.
  destruct (Z.ltb_spec (Z.of_nat a) 0); lia.
Qed.

Lemma py_slice_inside {A : Type} (l : list A) (a b : nat) :
  a <= b <= length l ->
  py_slice l (Z.of_nat a) (Z.of_nat b) = take (b - a) (drop a l).
Proof.
  intros Hab. unfold py_slice.
  rewrite !slice_index_inside by lia. reflexivity.
Qed.

Lemma set_slice_inside {A : Type} (l : list A) (a b : nat) (block : list A) :
  a <= b <= length l ->
  set_slice l (Z.of_nat a) (Z.of_nat b) block = take a l ++ block ++ drop b l.
Proof.
  intros Hab. unfold set_slice.
  rewrite !slice_index_inside by lia.
  replace (a + (b - a)) with b by lia. reflexivity.
Qed.

Lemma set_slice_lookup {A : Type} (l : list A) (a b : nat) (block : list A) (i : nat) :
  a <= b <= length l -> length block = b - a ->
  (take a l ++ block ++ drop b l) !! i =
    if decide (a <= i < b) then block !! (i - a) else l !! i.
Proof.
  intros Hab Hblock.
  destruct (decide (i < a)) as [Hlt|Hge].
  - rewrite lookup_app_l by (rewrite length_take; lia).
    rewrite lookup_take_lt by exact Hlt.
    destruct (decide (a <= i < b)); [lia | reflexivity].
  - rewrite lookup_app_r by (rewrite length_take; lia).
    rewrite length_take. replace (a `min` length l) with a by lia.
    destruct (decide (a <= i < b)) as [Hin|Hout].
    + apply lookup_app_l; lia.
    + rewrite lookup_app_r by lia.
      rewrite lookup_drop. f_equal; lia.
Qed.

Lemma set_slice_length {A : Type} (l : list A) (a b : nat) (block : list A) :
  a <= b <= length l -> length block = b - a ->
  length (take a l ++ block ++ drop b l) = length l.
Proof.
  intros Hab Hblock. rewrite !length_app, length_take, length_drop. lia.
Qed.

Lemma has_entries_slice2 (r c : nat) (f : nat -> nat -> float) (m : array2d)
    (a b a' b' : nat) :
  has_entries r c f m -> a <= b <= r -> a' <= b' <= c ->
  has_entries (b - a) (b' - a') (fun i j => f (a + i) (a' + j))
    (py_slice2 m (Z.of_nat a) (Z.of_nat b) (Z.of_nat a') (Z.of_nat b')).
Proof.
  intros [[Hlen Hrows] Hf] Hab Hab'. unfold py_slice2.
  rewrite py_slice_inside by lia.
  assert (Hsub : forall i row, take (b - a) (drop a m) !! i = Some row ->
            i < b - a /\ m !! (a + i) = Some row).
  { intros i row. rewrite lookup_take.
    destruct (decide (i < b - a)); [|discriminate].
    rewrite lookup_drop. auto. }
  split; [split|].
  - rewrite length_map, length_take, length_drop. lia.
  - apply Forall_fmap, Forall_lookup. intros i row Hi; simpl.
    apply Hsub in Hi as [_ Hi].
    rewrite Forall_lookup in Hrows. pose proof (Hrows _ _ Hi) as Hrow.
    rewrite py_slice_inside by lia.
    rewrite length_take, length_drop. lia.
  - intros i j Hi Hj. specialize (Hf (a + i) (a' + j)).
    unfold entry in *.
    change (map ?g ?l) with (g <$> l). rewrite list_lookup_fmap.
    rewrite lookup_take_lt by exact Hi. rewrite lookup_drop.
    destruct (m !! (a + i)) as [row|] eqn:Hrow; csimpl in *;
      [|discriminate Hf; lia].
    rewrite Forall_lookup in Hrows. pose proof (Hrows _ _ Hrow) as Hlrow.
    rewrite py_slice_inside by lia.
    rewrite lookup_take_lt by exact Hj. rewrite lookup_drop.
    apply Hf; lia.
Qed.

Lemma has_entries_set_slice2 (r c : nat) (f g : nat -> nat -> float) (m block : array2d)
    (a b a' b' : nat) :
  has_entries r c f m -> has_entries (b - a) (b' - a') g block ->
  a <= b <= r -> a' <= b' <= c ->
  exists m',
    set_slice2 m (Z.of_nat a) (Z.of_nat b) (Z.of_nat a') (Z.of_nat b') block = Ok m' /\
    has_entries r c
      (fun i j => if decide (a <= i < b /\ a' <= j < b') then g (i - a) (j - a') else f i j)
      m'.
Proof.
  intros Hm Hblock Hab Hab'.
  pose proof (has_entries_slice2 r c f m a b a' b' Hm Hab Hab') as Hregion.
  unfold set_slice2.
  rewrite (is_matrix_map_length (b - a) (b' - a') _ block (proj1 Hregion) (proj1 Hblock)).
  destruct (decide _) as [_|Hne]; [|contradiction].
  eexists; split; [reflexivity|].
  destruct Hm as [[Hlen Hrows] Hf], Hblock as [[Hblen Hbrows] Hg].
  rewrite Forall_lookup in Hrows. rewrite Forall_lookup in Hbrows.
  rewrite py_slice_inside by lia.
  rewrite set_slice_inside by lia.
  set (rows := zip_with _ _ block).
  assert (Hrowslen : length rows = b - a).
  { unfold rows. rewrite length_zip_with, length_take, length_drop. lia. }
  assert (Hrowsi : forall i, i < b - a -> exists row brow,
            m !! (a + i) = Some row /\ block !! i = Some brow /\
            rows !! i = Some (take a' row ++ brow ++ drop b' row) /\
            length row = c /\ length brow = b' - a').
  { intros i Hi.
    destruct (lookup_lt_is_Some_2 m (a + i)) as [row Hrow]; [lia|].
    destruct (lookup_lt_is_Some_2 block i) as [brow Hbrow]; [lia|].
    exists row, brow. split; [exact Hrow|]. split; [exact Hbrow|].
    pose proof (Hrows _ _ Hrow) as Hlr. pose proof (Hbrows _ _ Hbrow) as Hlb.
    split; [|auto].
    unfold rows. rewrite lookup_zip_with.
    rewrite lookup_take_lt by exact Hi. rewrite lookup_drop, Hrow; simpl.
    rewrite Hbrow; simpl. rewrite set_slice_inside by lia. reflexivity. }
  split; [split|].
  - rewrite set_slice_length by lia. exact Hlen.
  - apply Forall_lookup. intros i row.
    rewrite set_slice_lookup by lia.
    destruct (decide (a <= i < b)) as [Hin|Hout].
    + destruct (Hrowsi (i - a)) as (row0 & brow & _ & _ & -> & Hlr & Hlb); [lia|].
      intros [= <-]. rewrite set_slice_length by lia. exact Hlr.
    + apply Hrows.
  - intros i j Hi Hj. unfold entry.
    rewrite set_slice_lookup by lia.
    destruct (decide (a <= i < b)) as [Hin|Hout].
    + destruct (Hrowsi (i - a)) as (row0 & brow & Hrow0 & Hbrow & -> & Hlr & Hlb); [lia|].
      simpl. rewrite set_slice_lookup by lia.
      replace (a + (i - a)) with i in Hrow0 by lia.
      destruct (decide (a' <= j < b')) as [Hin'|Hout'].
      * destruct (decide _) as [_|Hn]; [|lia].
        specialize (Hg (i - a) (j - a')). unfold entry in Hg.
        rewrite Hbrow in Hg; simpl in Hg. apply Hg; lia.
      * destruct (decide _) as [Hy|_]; [lia|].
        specialize (Hf i j Hi Hj). unfold entry in Hf.
        rewrite Hrow0 in Hf; exact Hf.
    + destruct (decide _) as [Hy|_]; [lia|].
      apply Hf; assumption.
Qed.

(** ** [xcorr2] *)

Lemma rectangular_has_entries (m : array2d) :
  rectangular m ->
  has_entries (length m) (ncols m) (fun i j => default nan (entry m i j)) m.
Proof.
  intros Hm. split; [exact Hm|].
  intros i j Hi Hj.
  destruct (is_matrix_entry _ _ m i j Hm Hi Hj) as [v ->]. reflexivity.
Qed.

Lemma window_row_S (signal kernel : array2d) (i j ki n : nat) (acc : float) :
  window_row signal kernel i j ki (S n) acc =
    (window_row signal kernel i j ki n acc
     + kernel_at kernel ki n * default nan (entry signal (i + ki) (j + n)))%float.
Proof. unfold window_row. rewrite seq_S, fold_left_app. reflexivity. Qed.

Lemma window_rows_S (signal kernel : array2d) (i j n : nat) :
  window_rows signal kernel i j (S n) =
    window_row signal kernel i j n (ncols kernel) (window_rows signal kernel i j n).
Proof. unfold window_rows. rewrite seq_S, fold_left_app. reflexivity. Qed.

Section Xcorr2.
Variables signal kernel : array2d.
Hypothesis signal_rectangular : rectangular signal.
Hypothesis kernel_rows : length kernel <= length signal.
Hypothesis kernel_cols : ncols kernel <= ncols signal.

Let Ms := length signal.
Let Ns := ncols signal.
Let Mk := length kernel.
Let Nk := ncols kernel.
Let R := Ms - Mk + 1.
Let C := Ns - Nk + 1.

(** The term one step of the loops adds: the kernel entry times the
    shifted window of the signal. *)
Lemma xcorr2_term (ki kj : nat) :
  ki < Mk -> kj < Nk ->
  has_entries R C
    (fun i j => (kernel_at kernel ki kj * default nan (entry signal (i + ki) (j + kj)))%float)
    (np_scale (kernel_at kernel ki kj)
       (py_slice2 signal (Z.of_nat ki) (Z.of_nat Ms - Z.of_nat Mk + 1 + Z.of_nat ki)
                         (Z.of_nat kj) (Z.of_nat Ns - Z.of_nat Nk + 1 + Z.of_nat kj))).
Proof.
  intros Hki Hkj. subst R C Ms Ns Mk Nk.
  replace (Z.of_nat (length signal) - Z.of_nat (length kernel) + 1 + Z.of_nat ki)%Z
    with (Z.of_nat (length signal - length kernel + 1 + ki)) by lia.
  replace (Z.of_nat (ncols signal) - Z.of_nat (ncols kernel) + 1 + Z.of_nat kj)%Z
    with (Z.of_nat (ncols signal - ncols kernel + 1 + kj)) by lia.
  pose proof (has_entries_slice2 _ _ _ signal ki
    (length signal - length kernel + 1 + ki) kj
    (ncols signal - ncols kernel + 1 + kj)
    (rectangular_has_entries signal signal_rectangular)) as Hslice.
  replace (length signal - length kernel + 1 + ki - ki)
    with (length signal - length kernel + 1) in Hslice by lia.
  replace (ncols signal - ncols kernel + 1 + kj - kj)
    with (ncols signal - ncols kernel + 1) in Hslice by lia.
  unfold np_scale.
  eapply has_entries_ext.
  - apply (has_entries_map (fun v => (kernel_at kernel ki kj * v)%float)).
    apply Hslice; lia.
  - intros i j _ _; simpl.
    rewrite (Nat.add_comm ki i), (Nat.add_comm kj j). reflexivity.
Qed.

Lemma np_add_entries (r c : nat) (f g : nat -> nat -> float) (a b : array2d) :
  has_entries r c f a -> has_entries r c g b ->
  exists out, np_add a b = Ok out /\
    has_entries r c (fun i j => (f i j + g i j)%float) out.
Proof.
  intros Ha Hb. unfold np_add.
  rewrite (is_matrix_map_length r c a b (proj1 Ha) (proj1 Hb)).
  destruct (decide _) as [_|Hne]; [|contradiction].
  eexists; split; [reflexivity|].
  apply (has_entries_zip_with PrimFloat.add); assumption.
Qed.

(** The "valid" mode: after the loops every entry is the whole sum. *)
Lemma xcorr2_valid_loops :
  exists out,
    for_each (seq 0 Mk) (fun out ki =>
      for_each (seq 0 Nk) (fun out kj =>
        np_add out
          (np_scale (kernel_at kernel ki kj)
             (py_slice2 signal (Z.of_nat ki) (Z.of_nat Ms - Z.of_nat Mk + 1 + Z.of_nat ki)
                (Z.of_nat kj) (Z.of_nat Ns - Z.of_nat Nk + 1 + Z.of_nat kj)))) out)
      (np_zeros R C) = Ok out /\
    has_entries R C (window_sum signal kernel) out.
Proof.
  pose proof (for_each_range_total
    (fun k out => has_entries R C (fun i j => window_rows signal kernel i j k) out)
    Mk) as Houter.
  apply Houter; clear Houter.
  - apply has_entries_zeros.
  - intros ki out Hki Hout.
    pose proof (for_each_range_total
      (fun k out => has_entries R C
         (fun i j => window_row signal kernel i j ki k (window_rows signal kernel i j ki)) out)
      Nk) as Hinner.
    destruct (Hinner
      (fun out kj => np_add out
          (np_scale (kernel_at kernel ki kj)
             (py_slice2 signal (Z.of_nat ki) (Z.of_nat Ms - Z.of_nat Mk + 1 + Z.of_nat ki)
                (Z.of_nat kj) (Z.of_nat Ns - Z.of_nat Nk + 1 + Z.of_nat kj)))) out)
      as (out' & Hrun & Hout'); clear Hinner.
    + exact Hout.
    + intros kj acc Hkj Hacc.
      destruct (np_add_entries R C _ _ acc _ Hacc (xcorr2_term ki kj ltac:(lia) ltac:(lia)))
        as (acc' & -> & Hacc').
      exists acc'; split; [reflexivity|].
      eapply has_entries_ext; [exact Hacc'|].
      intros i j _ _; simpl. rewrite window_row_S. reflexivity.
    + exists out'; split; [exact Hrun|].
      eapply has_entries_ext; [exact Hout'|].
      intros i j _ _; simpl. rewrite window_rows_S. reflexivity.
Qed.

(** The centered mode, for a region [a <= i < b], [a' <= j < b'] of
    the size of the "valid" result. *)
Lemma xcorr2_centered_loops (a b a' b' : nat) (out0 : array2d) :
  b - a = R -> b' - a' = C -> a <= b <= Ms -> a' <= b' <= Ns ->
  has_entries Ms Ns
    (fun i j => if decide (a <= i < b /\ a' <= j < b') then 0%float else nan) out0 ->
  exists out,
    for_each (seq 0 Mk) (fun out ki =>
      for_each (seq 0 Nk) (fun out kj =>
        cur ← np_add (py_slice2 out (Z.of_nat a) (Z.of_nat b) (Z.of_nat a') (Z.of_nat b'))
                (np_scale (kernel_at kernel ki kj)
                   (py_slice2 signal (Z.of_nat ki)
                      (Z.of_nat Ms - Z.of_nat Mk + 1 + Z.of_nat ki)
                      (Z.of_nat kj) (Z.of_nat Ns - Z.of_nat Nk + 1 + Z.of_nat kj)));
        set_slice2 out (Z.of_nat a) (Z.of_nat b) (Z.of_nat a') (Z.of_nat b') cur) out)
      out0 = Ok out /\
    has_entries Ms Ns
      (fun i j => if decide (a <= i < b /\ a' <= j < b')
                  then window_sum signal kernel (i - a) (j - a') else nan) out.
Proof.
  intros HR HC Hab Hab' Hout0.
  assert (Hstep : forall (G : nat -> nat -> float) ki kj acc,
    ki < Mk -> kj < Nk ->
    has_entries Ms Ns
      (fun i j => if decide (a <= i < b /\ a' <= j < b') then G (i - a) (j - a') else nan)
      acc ->
    exists acc',
      (cur ← np_add (py_slice2 acc (Z.of_nat a) (Z.of_nat b) (Z.of_nat a') (Z.of_nat b'))
                (np_scale (kernel_at kernel ki kj)
                   (py_slice2 signal (Z.of_nat ki)
                      (Z.of_nat Ms - Z.of_nat Mk + 1 + Z.of_nat ki)
                      (Z.of_nat kj) (Z.of_nat Ns - Z.of_nat Nk + 1 + Z.of_nat kj)));
       set_slice2 acc (Z.of_nat a) (Z.of_nat b) (Z.of_nat a') (Z.of_nat b') cur) = Ok acc' /\
      has_entries Ms Ns
        (fun i j => if decide (a <= i < b /\ a' <= j < b')
           then (G (i - a)%nat (j - a')%nat
                 + kernel_at kernel ki kj
                   * default nan (entry signal (i - a + ki)%nat (j - a' + kj)%nat))%float
           else nan) acc').
  { intros G ki kj acc Hki Hkj Hacc.
    pose proof (has_entries_slice2 _ _ _ acc a b a' b' Hacc Hab Hab') as Hregion.
    rewrite HR, HC in Hregion.
    assert (Hregion' : has_entries R C G
      (py_slice2 acc (Z.of_nat a) (Z.of_nat b) (Z.of_nat a') (Z.of_nat b'))).
    { eapply has_entries_ext; [exact Hregion|].
      intros i j Hi Hj; simpl.
      destruct (decide _) as [_|Hn]; [|lia].
      f_equal; lia. }
    destruct (np_add_entries R C _ _ _ _ Hregion' (xcorr2_term ki kj Hki Hkj))
      as (cur & -> & Hcur). simpl.
    rewrite <- HR, <- HC in Hcur.
    destruct (has_entries_set_slice2 _ _ _ _ acc cur a b a' b' Hacc Hcur Hab Hab')
      as (acc' & -> & Hacc').
    exists acc'; split; [reflexivity|].
    eapply has_entries_ext; [exact Hacc'|].
    intros i j _ _; simpl. destruct (decide _); reflexivity. }
  pose proof (for_each_range_total
    (fun k out => has_entries Ms Ns
       (fun i j => if decide (a <= i < b /\ a' <= j < b')
                   then window_rows signal kernel (i - a) (j - a') k else nan) out)
    Mk) as Houter.
  apply Houter; clear Houter.
  - exact Hout0.
  - intros ki out Hki Hout.
    pose proof (for_each_range_total
      (fun k out => has_entries Ms Ns
         (fun i j => if decide (a <= i < b /\ a' <= j < b')
            then window_row signal kernel (i - a) (j - a') ki k
                   (window_rows signal kernel (i - a) (j - a') ki)
            else nan) out)
      Nk) as Hinner.
    destruct (Hinner
      (fun out kj =>
        cur ← np_add (py_slice2 out (Z.of_nat a) (Z.of_nat b) (Z.of_nat a') (Z.of_nat b'))
                (np_scale (kernel_at kernel ki kj)
                   (py_slice2 signal (Z.of_nat ki)
                      (Z.of_nat Ms - Z.of_nat Mk + 1 + Z.of_nat ki)
                      (Z.of_nat kj) (Z.of_nat Ns - Z.of_nat Nk + 1 + Z.of_nat kj)));
        set_slice2 out (Z.of_nat a) (Z.of_nat b) (Z.of_nat a') (Z.of_nat b') cur) out)
      as (out' & Hrun & Hout'); clear Hinner.
    + exact Hout.
    + intros kj acc Hkj Hacc.
      destruct (Hstep
        (fun x y => window_row signal kernel x y ki kj (window_rows signal kernel x y ki))
        ki kj acc ltac:(lia) ltac:(lia) Hacc) as (acc' & Hacc'run & Hacc').
      exists acc'; split; [exact Hacc'run|].
      eapply has_entries_ext; [exact Hacc'|].
      intros i j _ _; simpl. rewrite window_row_S. reflexivity.
    + exists out'; split; [exact Hrun|].
      eapply has_entries_ext; [exact Hout'|].
      intros i j _ _; simpl. rewrite window_rows_S. reflexivity.
Qed.
End Xcorr2.

Lemma half_le (n : nat) : n / 2 <= n.
Proof. apply Nat.Div0.div_le_upper_bound. lia. Qed.

Lemma center_offset (Mk : nat) :
  1 <= Mk -> ((Z.of_nat Mk - 1) / 2)%Z = Z.of_nat ((Mk - 1) / 2).
Proof.
  intros HMk. replace (Z.of_nat Mk - 1)%Z with (Z.of_nat (Mk - 1)) by lia.
  rewrite Nat2Z.inj_div. reflexivity.
Qed.

Lemma centered_region_spec (Ms Mk i : nat) :
  1 <= Mk <= Ms ->
  centered_region (Z.of_nat Ms) (Z.of_nat Mk) i = true <->
  (Mk - 1) / 2 <= i < Ms - (Mk - 1 - (Mk - 1) / 2).
Proof.
  intros HMk. unfold centered_region. rewrite bool_decide_eq_true.
  rewrite center_offset by lia.
  pose proof (half_le (Mk - 1)). lia.
Qed.

Lemma map_length_map_map {A B : Type} (g : A -> B) (m : list (list A)) :
  map length (map (map g) m) = map length m.
Proof.
  rewrite map_map. apply map_ext. intros row. apply length_map.
Qed.

Lemma xcorr2_guard_passes (signal kernel : array2d) (centered_p : bool) :
  length kernel <= length signal -> ncols kernel <= ncols signal ->
  xcorr2 signal kernel centered_p =
    let Ms := Z.of_nat (length signal) in
    let Ns := Z.of_nat (ncols signal) in
    let Mk := Z.of_nat (length kernel) in
    let Nk := Z.of_nat (ncols kernel) in
    if negb centered_p then
      let out := np_zeros (Z.to_nat (Ms - Mk + 1)) (Z.to_nat (Ns - Nk + 1)) in
      for_each (range Mk) (fun out ki =>
        for_each (range Nk) (fun out kj =>
          np_add out
            (np_scale (kernel_at kernel ki kj)
               (py_slice2 signal (Z.of_nat ki) (Ms - Mk + 1 + Z.of_nat ki)
                                 (Z.of_nat kj) (Ns - Nk + 1 + Z.of_nat kj)))) out) out
    else
      let Ki := ((Mk - 1) / 2)%Z in
      let Kj := ((Nk - 1) / 2)%Z in
      let out := map (map (fun v => (v + nan)%float))
                   (np_zeros (Z.to_nat Ms) (Z.to_nat Ns)) in
      let r1 := (Ms - (Mk - 1 - Ki))%Z in
      let c1 := (Ns - (Nk - 1 - Kj))%Z in
      out ← set_slice2 out Ki r1 Kj c1
              (map (map (fun _ => 0%float)) (py_slice2 out Ki r1 Kj c1));
      for_each (range Mk) (fun out ki =>
        for_each (range Nk) (fun out kj =>
          cur ← np_add (py_slice2 out Ki r1 Kj c1)
                  (np_scale (kernel_at kernel ki kj)
                     (py_slice2 signal (Z.of_nat ki) (Ms - Mk + 1 + Z.of_nat ki)
                                       (Z.of_nat kj) (Ns - Nk + 1 + Z.of_nat kj)));
          set_slice2 out Ki r1 Kj c1 cur) out) out.
Proof.
  intros Hrows Hcols. unfold xcorr2.
  destruct (decide _) as [Hbig|_]; [lia | reflexivity].
Qed.

(** What [xcorr2] returns, in both modes, for a kernel with at least one
    row and one column that fits in the signal. *)
Lemma xcorr2_run (signal kernel : array2d) :
  rectangular signal ->
  1 <= length kernel <= length signal ->
  1 <= ncols kernel <= ncols signal ->
  (exists out, xcorr2 signal kernel false = Ok out /\ valid_output signal kernel out) /\
  (exists out, xcorr2 signal kernel true = Ok out /\ centered_output signal kernel out).
Proof.
  intros Hsignal HMk HNk.
  split.
  - rewrite xcorr2_guard_passes by lia. cbv zeta. simpl negb. cbv iota.
    unfold range. rewrite !Nat2Z.id.
    replace (Z.to_nat (Z.of_nat (length signal) - Z.of_nat (length kernel) + 1))
      with (length signal - length kernel + 1) by lia.
    replace (Z.to_nat (Z.of_nat (ncols signal) - Z.of_nat (ncols kernel) + 1))
      with (ncols signal - ncols kernel + 1) by lia.
    apply xcorr2_valid_loops; [exact Hsignal | lia | lia].
  - rewrite xcorr2_guard_passes by lia. cbv zeta. simpl negb. cbv iota.
    unfold range. rewrite !Nat2Z.id.
    set (Mk := length kernel) in *. set (Nk := ncols kernel) in *.
    set (Ms := length signal) in *. set (Ns := ncols signal) in *.
    rewrite !center_offset by lia.
    set (a := (Mk - 1) / 2). set (a' := (Nk - 1) / 2).
    pose proof (half_le (Mk - 1)) as Ha. pose proof (half_le (Nk - 1)) as Ha'.
    fold a in Ha. fold a' in Ha'.
    replace (Z.of_nat Ms - (Z.of_nat Mk - 1 - Z.of_nat a))%Z
      with (Z.of_nat (Ms - (Mk - 1 - a))) by lia.
    replace (Z.of_nat Ns - (Z.of_nat Nk - 1 - Z.of_nat a'))%Z
      with (Z.of_nat (Ns - (Nk - 1 - a'))) by lia.
    set (b := Ms - (Mk - 1 - a)). set (b' := Ns - (Nk - 1 - a')).
    assert (Hnan : has_entries Ms Ns (fun _ _ => nan)
              (map (map (fun v => (v + nan)%float)) (np_zeros Ms Ns))).
    { eapply has_entries_ext.
      - apply (has_entries_map (fun v => (v + nan)%float)), has_entries_zeros.
      - intros i j _ _. reflexivity. }
    assert (Hblock : has_entries (b - a) (b' - a') (fun _ _ => 0%float)
              (map (map (fun _ => 0%float))
                 (py_slice2 (map (map (fun v => (v + nan)%float)) (np_zeros Ms Ns))
                    (Z.of_nat a) (Z.of_nat b) (Z.of_nat a') (Z.of_nat b')))).
    { apply (has_entries_map (fun _ => 0%float) _ _ (fun i j => nan)).
      apply (has_entries_slice2 Ms Ns (fun _ _ => nan)); [exact Hnan | lia | lia]. }
    destruct (has_entries_set_slice2 Ms Ns _ _ _ _ a b a' b' Hnan Hblock)
      as (out0 & -> & Hout0); [lia | lia |].
    simpl.
    destruct (xcorr2_centered_loops signal kernel Hsignal ltac:(lia) ltac:(lia)
                a b a' b' out0) as (out & Hrun & Hout); [lia | lia | lia | lia | exact Hout0 |].
    exists out. split; [exact Hrun|].
    unfold centered_output. fold Ms Ns Mk Nk.
    eapply has_entries_ext; [exact Hout|].
    intros i j Hi Hj; simpl.
    rewrite !center_offset by lia. fold a a'.
    destruct (decide (a <= i < b /\ a' <= j < b')) as [[Hin Hin']|Hout'].
    + rewrite (proj2 (centered_region_spec Ms Mk i ltac:(lia))) by (fold a; lia).
      rewrite (proj2 (centered_region_spec Ns Nk j ltac:(lia))) by (fold a'; lia).
      simpl. f_equal; lia.
    + destruct (centered_region (Z.of_nat Ms) (Z.of_nat Mk) i) eqn:Hri; [|reflexivity].
      destruct (centered_region (Z.of_nat Ns) (Z.of_nat Nk) j) eqn:Hrj; [|reflexivity].
      apply centered_region_spec in Hri; [|lia].
      apply centered_region_spec in Hrj; [|lia].
      fold a in Hri. fold a' in Hrj. exfalso; apply Hout'. subst b b'. lia.
Qed.

(** C2, as the code has it: for a kernel with at least one row and one
    column that fits in the signal, the "valid" mode returns the
    [(Ms-Mk+1)] by [(Ns-Nk+1)] array of the window sums, and the centered
    mode returns an [Ms] by [Ns] array that holds the window sum at every
    index of the region [(Mk-1)//2 <= i < Ms-(Mk-1-(Mk-1)//2)],
    [(Nk-1)//2 <= j < Ns-(Nk-1-(Nk-1)//2)] and not-a-number (never zero)
    at every other index. *)
Theorem xcorr2_shape_and_region (signal kernel : array2d) :
  rectangular signal ->
  1 <= length kernel <= length signal ->
  1 <= ncols kernel <= ncols signal ->
  (exists out, xcorr2 signal kernel false = Ok out /\ valid_output signal kernel out) /\
  (exists out, xcorr2 signal kernel true = Ok out /\ centered_output signal kernel out) /\
  PrimFloat.is_nan nan = true /\ PrimFloat.is_nan 0%float = false.
Proof.
  intros Hsignal HMk HNk.
  destruct (xcorr2_run signal kernel Hsignal HMk HNk) as [Hvalid Hcentered].
  split; [exact Hvalid|]. split; [exact Hcentered|]. split; reflexivity.
Qed.

Lemma xcorr2_shape_and_region_witness :
  (exists out,
     xcorr2 [[1; 2; 3]; [4; 5; 6]; [7; 8; 9]]%float [[1; 0]; [0; 1]]%float false = Ok out /\
     valid_output [[1; 2; 3]; [4; 5; 6]; [7; 8; 9]]%float [[1; 0]; [0; 1]]%float out) /\
  (exists out,
     xcorr2 [[1; 2; 3]; [4; 5; 6]; [7; 8; 9]]%float [[1; 0]; [0; 1]]%float true = Ok out /\
     centered_output [[1; 2; 3]; [4; 5; 6]; [7; 8; 9]]%float [[1; 0]; [0; 1]]%float out) /\
  PrimFloat.is_nan nan = true /\ PrimFloat.is_nan 0%float = false.
Proof.
  apply (xcorr2_shape_and_region
           [[1; 2; 3]; [4; 5; 6]; [7; 8; 9]]%float [[1; 0]; [0; 1]]%float).
  - split; [reflexivity|]. repeat constructor.
  - simpl; lia.
  - simpl; lia.
Defined.

(** C2 as it is stated also covers a kernel without columns (or without
    rows), which fits in every signal. There the bound [(Nk-1)//2] is
    [-1], the slice of the code wraps around to the last column, and the
    other columns of the claimed region keep the undefined marker. *)
Lemma xcorr2_empty_kernel_counterexample :
  rectangular [[1; 2]; [3; 4]]%float /\
  length ([[]] : list (list float)) <= length [[1; 2]; [3; 4]]%float /\
  ncols ([[]] : list (list float)) <= ncols [[1; 2]; [3; 4]]%float /\
  xcorr2 [[1; 2]; [3; 4]]%float [[]] true = Ok [[nan; 0]; [nan; 0]]%float /\
  centered_region 2 1 0 && centered_region 2 0 0 = true /\
  ~ centered_output [[1; 2]; [3; 4]]%float [[]] [[nan; 0]; [nan; 0]]%float.
Proof.
  split; [split; [reflexivity | repeat constructor]|].
  split; [simpl; lia|]. split; [simpl; lia|].
  split; [reflexivity|]. split; [reflexivity|].
  intros [_ Hentries]. specialize (Hentries 0 0).
  simpl in Hentries. specialize (Hentries ltac:(lia) ltac:(lia)).
  apply (f_equal (fun o => match o with Some v => PrimFloat.is_nan v | None => false end))
    in Hentries.
  vm_compute in Hentries. discriminate Hentries.
Qed.

(** Whenever the kernel fits, [xcorr2] returns. *)
Lemma xcorr2_returns (signal kernel : array2d) (centered_p : bool) :
  rectangular signal ->
  length kernel <= length signal -> ncols kernel <= ncols signal ->
  exists out, xcorr2 signal kernel centered_p = Ok out.
Proof.
  intros Hsignal Hrows Hcols.
  destruct (decide (1 <= length kernel /\ 1 <= ncols kernel)) as [[HMk HNk]|Hempty].
  - destruct (xcorr2_run signal kernel Hsignal) as (Hv & Hc); [lia | lia |].
    destruct centered_p.
    + destruct Hc as (out & -> & _); eauto.
    + destruct Hv as (out & -> & _); eauto.
  - assert (Hloops : forall (body : list (list float) -> nat -> nat -> pyresult (list (list float))) out0,
      exists out,
        for_each (range (Z.of_nat (length kernel))) (fun out ki =>
          for_each (range (Z.of_nat (ncols kernel))) (fun out kj => body out ki kj) out) out0
        = Ok out).
    { intros body out0. unfold range. rewrite !Nat2Z.id.
      destruct (decide (length kernel = 0)) as [->|Hne]; [simpl; eauto|].
      assert (Hnk : ncols kernel = 0) by lia. rewrite Hnk.
      destruct (for_each_total (fun _ => True) (seq 0 (length kernel))
        (fun out ki => for_each (seq 0 0) (fun out kj => body out ki kj) out) out0)
        as (out & Hrun & _); [exact I | | eauto].
      intros out ki _ _. exists out. simpl. auto. }
    rewrite xcorr2_guard_passes by lia. cbv zeta.
    destruct centered_p; simpl negb; cbv iota.
    + match goal with
      | |- exists out, mbind ?f (set_slice2 ?m ?a ?b ?c ?d ?blk) = _ =>
          assert (Hset : exists o, set_slice2 m a b c d blk = Ok o)
      end.
      { unfold set_slice2. rewrite map_length_map_map.
        destruct (decide _) as [_|Hne]; [eauto | contradiction]. }
      destruct Hset as [o ->]. simpl.
      apply (Hloops (fun out ki kj => _ ≫= _)).
    + apply (Hloops (fun out ki kj => np_add out _)).
Qed.

(** ** The order of the doubles *)

Lemma key_compare_le (k1 k2 : Z * Z * Z) : key_compare k1 k2 <> Gt <-> key_le k1 k2.
Proof.
  unfold key_compare, key_le.
  destruct (Z.compare_spec k1.1.1 k2.1.1), (Z.compare_spec k1.1.2 k2.1.2),
    (Z.compare_spec k1.2 k2.2); split; intros Hc; try lia; try congruence.
Qed.

Lemma key_compare_lt (k1 k2 : Z * Z * Z) : key_compare k1 k2 = Lt <-> ~ key_le k2 k1.
Proof.
  unfold key_compare, key_le.
  destruct (Z.compare_spec k1.1.1 k2.1.1), (Z.compare_spec k1.1.2 k2.1.2),
    (Z.compare_spec k1.2 k2.2); split; intros Hc; try lia; try congruence.
Qed.

Lemma SFcompare_key (x y : spec_float) :
  x <> S754_nan -> y <> S754_nan ->
  SFcompare x y = Some (key_compare (float_key x) (float_key y)).
Proof.
  intros Hx Hy.
  destruct x as [sx|sx| |sx mx ex], y as [sy|sy| |sy my ey]; try congruence;
    try (destruct sx); try (destruct sy); try reflexivity.
  - unfold key_compare; simpl.
    rewrite Z.compare_opp, (Z.compare_antisym ex ey).
    destruct (ex ?= ey)%Z; reflexivity.
Qed.

Lemma spec_float_nan_dec (x : spec_float) : {x = S754_nan} + {x <> S754_nan}.
Proof. destruct x; (left; reflexivity) || (right; discriminate). Qed.

Lemma SFcompare_nan (x y : spec_float) :
  x = S754_nan \/ y = S754_nan -> SFcompare x y = None.
Proof. intros [-> | ->]; [reflexivity | destruct x; reflexivity]. Qed.

Lemma leb_key (x y : float) :
  (x <=? y)%float = true <->
  Prim2SF x <> S754_nan /\ Prim2SF y <> S754_nan /\
  key_le (float_key (Prim2SF x)) (float_key (Prim2SF y)).
Proof.
  rewrite FloatAxioms.leb_spec. unfold SFleb.
  destruct (spec_float_nan_dec (Prim2SF x)) as [Hx|Hx].
  { rewrite SFcompare_nan by auto. split; [discriminate | tauto]. }
  destruct (spec_float_nan_dec (Prim2SF y)) as [Hy|Hy].
  { rewrite SFcompare_nan by auto. split; [discriminate | tauto]. }
  rewrite SFcompare_key by assumption. rewrite <- key_compare_le.
  destruct (key_compare _ _); split; intros H; try discriminate; try tauto;
    repeat split; auto; discriminate.
Qed.

Lemma ltb_key (x y : float) :
  (x <? y)%float = true <->
  Prim2SF x <> S754_nan /\ Prim2SF y <> S754_nan /\
  ~ key_le (float_key (Prim2SF y)) (float_key (Prim2SF x)).
Proof.
  rewrite FloatAxioms.ltb_spec. unfold SFltb.
  destruct (spec_float_nan_dec (Prim2SF x)) as [Hx|Hx].
  { rewrite SFcompare_nan by auto. split; [discriminate | tauto]. }
  destruct (spec_float_nan_dec (Prim2SF y)) as [Hy|Hy].
  { rewrite SFcompare_nan by auto. split; [discriminate | tauto]. }
  rewrite SFcompare_key by assumption. rewrite <- key_compare_lt.
  destruct (key_compare _ _); split; intros H; try discriminate; try tauto;
    repeat split; auto; destruct H as (_ & _ & H); discriminate.
Qed.

Lemma is_nan_key (x : float) :
  PrimFloat.is_nan x = false <-> Prim2SF x <> S754_nan.
Proof.
  unfold PrimFloat.is_nan. rewrite FloatAxioms.eqb_spec. unfold SFeqb.
  destruct (spec_float_nan_dec (Prim2SF x)) as [Hx|Hx].
  { rewrite SFcompare_nan by auto. split; [discriminate | tauto]. }
  rewrite SFcompare_key by assumption.
  unfold key_compare. rewrite !Z.compare_refl. simpl. tauto.
Qed.

Lemma leb_is_number (x y : float) :
  (x <=? y)%float = true -> PrimFloat.is_nan x = false /\ PrimFloat.is_nan y = false.
Proof. rewrite leb_key, !is_nan_key. tauto. Qed.

Lemma ltb_is_number (x y : float) :
  (x <? y)%float = true -> PrimFloat.is_nan x = false /\ PrimFloat.is_nan y = false.
Proof. rewrite ltb_key, !is_nan_key. tauto. Qed.

Lemma leb_refl (x : float) : PrimFloat.is_nan x = false -> (x <=? x)%float = true.
Proof.
  rewrite is_nan_key, leb_key. intros Hx. repeat split; auto.
  unfold key_le. lia.
Qed.

Lemma leb_trans (x y z : float) :
  (x <=? y)%float = true -> (y <=? z)%float = true -> (x <=? z)%float = true.
Proof.
  rewrite !leb_key. unfold key_le. intros (Hx & Hy & Hxy) (_ & Hz & Hyz).
  repeat split; auto. lia.
Qed.

Lemma leb_total (x y : float) :
  PrimFloat.is_nan x = false -> PrimFloat.is_nan y = false ->
  (x <=? y)%float = false -> (y <=? x)%float = true.
Proof.
  rewrite !is_nan_key. intros Hx Hy Hxy.
  apply leb_key. repeat split; auto.
  assert (Hnle : ~ key_le (float_key (Prim2SF x)) (float_key (Prim2SF y))).
  { intros Hle. assert (Htrue : (x <=? y)%float = true) by (apply leb_key; auto).
    congruence. }
  unfold key_le in *. lia.
Qed.

Lemma leb_not_ltb (x y : float) :
  (x <=? y)%float = true -> (y <? x)%float = false.
Proof.
  intros Hle. destruct (y <? x)%float eqn:Hlt; [|reflexivity].
  apply leb_key in Hle as (_ & _ & Hle). apply ltb_key in Hlt as (_ & _ & Hlt).
  contradiction.
Qed.



(** ** Positions that satisfy a test *)

Lemma indices_from_elem {A : Type} (p : A -> bool) (i k : nat) (l : list A) :
  k ∈ indices_from p i l <-> i <= k /\ exists v, l !! (k - i) = Some v /\ p v = true.
Proof.
  revert i; induction l as [|x l IH]; intros i; simpl.
  - rewrite elem_of_nil. split; [tauto|]. intros (_ & v & Hv & _); discriminate.
  - assert (Hrest : k ∈ indices_from p (S i) l <->
              S i <= k /\ exists v, (x :: l) !! (k - i) = Some v /\ p v = true).
    { rewrite IH. split; intros (Hk & v & Hv & Hp); (split; [lia|]); exists v; split; auto.
      - replace (k - i) with (S (k - S i)) by lia. exact Hv.
      - replace (k - i) with (S (k - S i)) in Hv by lia. exact Hv. }
    destruct (p x) eqn:Hpx.
    + rewrite elem_of_cons, Hrest. split.
      * intros [-> | (Hk & v & Hv & Hp)].
        -- split; [lia|]. exists x. rewrite Nat.sub_diag. auto.
        -- split; [lia|]. eauto.
      * intros (Hk & v & Hv & Hp).
        destruct (decide (k = i)) as [->|Hne]; [left; reflexivity|].
        right. split; [lia|]. eauto.
    + rewrite Hrest. split.
      * intros (Hk & v & Hv & Hp). split; [lia|]. eauto.
      * intros (Hk & v & Hv & Hp).
        destruct (decide (k = i)) as [->|Hne].
        -- rewrite Nat.sub_diag in Hv. simpl in Hv. congruence.
        -- split; [lia|]. eauto.
Qed.

Lemma indices_where_elem {A : Type} (p : A -> bool) (k : nat) (l : list A) :
  k ∈ indices_where p l <-> exists v, l !! k = Some v /\ p v = true.
Proof.
  unfold indices_where. rewrite indices_from_elem, Nat.sub_0_r.
  split; [tauto|]. intros H; split; [lia | exact H].
Qed.

Lemma indices_from_NoDup {A : Type} (p : A -> bool) (i : nat) (l : list A) :
  NoDup (indices_from p i l).
Proof.
  revert i; induction l as [|x l IH]; intros i; simpl; [constructor|].
  destruct (p x); [|apply IH].
  constructor; [|apply IH].
  rewrite indices_from_elem. lia.
Qed.

Lemma where_from_elem {A : Type} (p : A -> bool) (i : nat) (m : list (list A)) (q : nat * nat) :
  q ∈ where_from p i m <->
  i <= q.1 /\ exists v, entry m (q.1 - i) q.2 = Some v /\ p v = true.
Proof.
  destruct q as [a b]; simpl.
  revert i; induction m as [|row m IH]; intros i; simpl.
  - rewrite elem_of_nil. split; [tauto|].
    intros (_ & v & Hv & _). discriminate.
  - rewrite elem_of_app, IH.
    change (map ?f ?l) with (f <$> l). rewrite list_elem_of_fmap.
    split.
    + intros [(j & [= -> ->] & Hj) | (Ha & v & Hv & Hp)].
      * split; [lia|]. rewrite Nat.sub_diag. unfold entry; simpl.
        apply indices_where_elem in Hj. exact Hj.
      * split; [lia|]. exists v. split; [|exact Hp].
        replace (a - i) with (S (a - S i)) by lia. exact Hv.
    + intros (Ha & v & Hv & Hp).
      destruct (decide (a = i)) as [->|Hne].
      * left. exists b. split; [reflexivity|].
        rewrite Nat.sub_diag in Hv. unfold entry in Hv; simpl in Hv.
        apply indices_where_elem. eauto.
      * right. split; [lia|]. exists v. split; [|exact Hp].
        replace (a - i) with (S (a - S i)) in Hv by lia. exact Hv.
Qed.

Lemma np_where_elem {A : Type} (p : A -> bool) (m : list (list A)) (i j : nat) :
  (i, j) ∈ np_where p m <-> exists v, entry m i j = Some v /\ p v = true.
Proof.
  unfold np_where. rewrite where_from_elem; simpl. rewrite Nat.sub_0_r.
  split; [tauto|]. intros H; split; [lia | exact H].
Qed.

Lemma where_from_NoDup {A : Type} (p : A -> bool) (i : nat) (m : list (list A)) :
  NoDup (where_from p i m).
Proof.
  revert i; induction m as [|row m IH]; intros i; simpl; [constructor|].
  apply NoDup_app. split; [|split; [|apply IH]].
  - apply NoDup_fmap_2; [intros j1 j2 [= ->]; reflexivity|].
    apply indices_from_NoDup.
  - intros q Hq Hq'.
    change (map ?f ?l) with (f <$> l) in Hq.
    apply list_elem_of_fmap in Hq as (j & -> & _).
    apply where_from_elem in Hq' as [Hq' _]. simpl in Hq'. lia.
Qed.

Lemma np_where_NoDup {A : Type} (p : A -> bool) (m : list (list A)) :
  NoDup (np_where p m).
Proof. apply where_from_NoDup. Qed.

Lemma np_any_true {A : Type} (p : A -> bool) (m : list (list A)) :
  np_any p m = true <-> exists i j v, entry m i j = Some v /\ p v = true.
Proof.
  unfold np_any. rewrite existsb_exists. split.
  - intros (row & Hrow & Hex). apply existsb_exists in Hex as (v & Hv & Hp).
    apply list_elem_of_In, list_elem_of_lookup in Hrow as [i Hi].
    apply list_elem_of_In, list_elem_of_lookup in Hv as [j Hj].
    exists i, j, v. unfold entry. rewrite Hi; simpl. auto.
  - intros (i & j & v & Hv & Hp). unfold entry in Hv.
    destruct (m !! i) as [row|] eqn:Hi; simpl in Hv; [|discriminate].
    exists row. split.
    + apply list_elem_of_In, list_elem_of_lookup. eauto.
    + apply existsb_exists. exists v. split; [|exact Hp].
      apply list_elem_of_In, list_elem_of_lookup. eauto.
Qed.

(** ** Reading several entries *)

Lemma py_mapM_Ok {A B : Type} (f : A -> pyresult B) (l : list A) (ys : list B) :
  py_mapM f l = Ok ys <-> Forall2 (fun x y => f x = Ok y) l ys.
Proof.
  revert ys; induction l as [|x l IH]; intros ys; simpl.
  - split; [intros [= <-]; constructor | intros H; inversion H; reflexivity].
  - split.
    + intros H. apply bind_Ok in H as (y & Hy & H).
      apply bind_Ok in H as (ys' & Hys' & [= <-]).
      constructor; [exact Hy | apply IH; exact Hys'].
    + intros H. inversion H as [|? y ? ys' Hy Hys']; subst.
      rewrite Hy; simpl. apply IH in Hys'. rewrite Hys'; reflexivity.
Qed.

Lemma py_mapM_total {A B : Type} (f : A -> pyresult B) (l : list A) :
  (forall x, x ∈ l -> exists y, f x = Ok y) -> exists ys, py_mapM f l = Ok ys.
Proof.
  induction l as [|x l IH]; intros Hf; simpl; [eauto|].
  destruct (Hf x) as [y ->]; [left|]. simpl.
  destruct IH as [ys ->]; [intros z Hz; apply Hf; right; exact Hz|]. simpl. eauto.
Qed.

Lemma py_mapM_Raise {A B : Type} (f : A -> pyresult B) (l : list A) (e : pyexc) :
  py_mapM f l = Raise e -> exists x, x ∈ l /\ f x = Raise e.
Proof.
  induction l as [|x l IH]; simpl; [discriminate|].
  intros H. apply bind_Raise in H as [H | (y & Hy & H)].
  - exists x. split; [left | exact H].
  - apply bind_Raise in H as [H | (ys & Hys & H)]; [|discriminate].
    destruct (IH H) as (z & Hz & Hfz). exists z. split; [right; exact Hz | exact Hfz].
Qed.

Lemma get2_Raise {A : Type} (m : list (list A)) (i j : nat) (e : pyexc) :
  get2 m i j = Raise e -> e = IndexError.
Proof.
  unfold get2. destruct (m !! i) as [row|]; [destruct (row !! j)|]; congruence.
Qed.

(** ** [picker] *)

Lemma for_each_Raise {A S : Type} (xs : list A) (body : S -> A -> pyresult S)
    (s : S) (e : pyexc) :
  for_each xs body s = Raise e -> exists s1 x, x ∈ xs /\ body s1 x = Raise e.
Proof.
  revert s; induction xs as [|x xs IH]; intros s; simpl; [discriminate|].
  intros H. apply bind_Raise in H as [H | (s1 & Hs1 & H)].
  - exists s, x. split; [left | exact H].
  - destruct (IH s1 H) as (s2 & y & Hy & Hbody).
    exists s2, y. split; [right; exact Hy | exact Hbody].
Qed.

Lemma for_each_seq_returned {S : Type} (P : nat -> S -> Prop) (a n : nat)
    (body : S -> nat -> pyresult S) (s s' : S) :
  for_each (seq a n) body s = Ok s' ->
  P a s ->
  (forall k s s1, a <= k < a + n -> P k s -> body s k = Ok s1 -> P (Datatypes.S k) s1) ->
  P (a + n) s'.
Proof.
  revert a s; induction n as [|n IH]; intros a s Hrun Hs Hbody; simpl in Hrun.
  - injection Hrun as <-. rewrite Nat.add_0_r. exact Hs.
  - apply bind_Ok in Hrun as (s1 & Hk & Hrun).
    replace (a + Datatypes.S n) with (Datatypes.S a + n) by lia.
    apply (IH (Datatypes.S a) s1 Hrun).
    + apply (Hbody a s); [lia | exact Hs | exact Hk].
    + intros k s2 s3 Hk'; apply Hbody; lia.
Qed.

Lemma bool_mask_index_Raise {A : Type} (a : list (list A)) (mask : list (list bool))
    (e : pyexc) :
  bool_mask_index a mask = Raise e -> e = IndexError.
Proof.
  unfold bool_mask_index. destruct (decide _); [|congruence].
  intros H. apply py_mapM_Raise in H as ([i j] & _ & H).
  eapply get2_Raise; exact H.
Qed.

Lemma bool_mask_index_length {A : Type} (a : list (list A)) (mask : list (list bool))
    (vals : list A) :
  bool_mask_index a mask = Ok vals -> length vals = length (np_where id mask).
Proof.
  unfold bool_mask_index. destruct (decide _); [|discriminate].
  intros H. apply py_mapM_Ok in H. symmetry. eapply Forall2_length; exact H.
Qed.

(** What one turn of the loop over the features can raise. *)
Lemma picker_feature_Raise (probas : array2d) (candidate_p : list (list bool))
    (labelled_mat : list (list nat)) (st : list (nat * nat) * list bool)
    (ff : nat) (e : pyexc) :
  picker_feature probas candidate_p labelled_mat st ff = Raise e -> e = IndexError.
Proof.
  destruct st as [ijs remove_p]. unfold picker_feature.
  intros H. apply bind_Raise in H as [H | (cand & Hcand & H)].
  { eapply bool_mask_index_Raise; exact H. }
  destruct (decide (length (filter _ cand) = 0)) as [|Hsome]; [discriminate|].
  destruct (decide (bool_sum _ = 1)); [discriminate|].
  apply bind_Raise in H as [H | (vals & Hvals & H)].
  { apply py_mapM_Raise in H as ([i j] & _ & H). eapply get2_Raise; exact H. }
  apply bind_Raise in H as [H | (ijmax & Hijmax & H)].
  { exfalso. apply bool_mask_index_length in Hcand.
    apply py_mapM_Ok, Forall2_length in Hvals.
    destruct vals as [|v vals]; [|discriminate H].
    simpl in Hvals. rewrite Hvals in Hcand.
    destruct cand; [|discriminate Hcand]. apply Hsome. reflexivity. }
  apply bind_Raise in H as [H | (ij & Hij & H)]; [|discriminate].
  unfold get1 in H. destruct (_ !! _); congruence.
Qed.

Lemma picker_guard_fails (label : labeller) (probas : array2d) (thres : float) :
  out_of_range probas ->
  picker label probas thres = Raise (ValueError "probas must be <= 1.0") \/
  picker label probas thres = Raise (ValueError "probas must be >= 0.0").
Proof.
  intros (i & j & v & Hv & Hbad). unfold picker.
  destruct (np_any (fun v => (1 <? v)%float) probas) eqn:Hhigh; [left; reflexivity|].
  destruct (np_any (fun v => (v <? 0)%float) probas) eqn:Hlow; [right; reflexivity|].
  exfalso. destruct Hbad as [Hbad|Hbad].
  - assert (Htrue : np_any (fun v => (1 <? v)%float) probas = true)
      by (apply np_any_true; eauto).
    congruence.
  - assert (Htrue : np_any (fun v => (v <? 0)%float) probas = true)
      by (apply np_any_true; eauto).
    congruence.
Qed.

Lemma picker_guard_passes (label : labeller) (probas : array2d) (thres : float) :
  ~ out_of_range probas ->
  picker label probas thres =
    let raw_ijs := np_where (fun v => (thres <? v)%float) probas in
    if decide (0 < length raw_ijs) then
      let candidate_p := candidate_mask raw_ijs in
      let '(labelled_mat, num_features) := label candidate_p in
      let ijs := replicate num_features (0, 0) in
      let remove_p := replicate num_features false in
      '(ijs, remove_p) ←
        for_each (seq 0 num_features)
          (picker_feature probas candidate_p labelled_mat) (ijs, remove_p);
      Ok (Coords (select_kept ijs remove_p))
    else Ok NA.
Proof.
  intros Hin. unfold picker.
  destruct (np_any (fun v => (1 <? v)%float) probas) eqn:Hhigh.
  { exfalso. apply Hin. apply np_any_true in Hhigh as (i & j & v & Hv & Hp).
    exists i, j, v. auto. }
  destruct (np_any (fun v => (v <? 0)%float) probas) eqn:Hlow.
  { exfalso. apply Hin. apply np_any_true in Hlow as (i & j & v & Hv & Hp).
    exists i, j, v. auto. }
  reflexivity.
Qed.

Lemma picker_ValueError (label : labeller) (probas : array2d) (thres : float) (msg : string) :
  picker label probas thres = Raise (ValueError msg) -> out_of_range probas.
Proof.
  intros Hraise.
  destruct (np_any (fun v => (1 <? v)%float) probas) eqn:Hhigh.
  { apply np_any_true in Hhigh as (i & j & v & Hv & Hp). exists i, j, v. auto. }
  destruct (np_any (fun v => (v <? 0)%float) probas) eqn:Hlow.
  { apply np_any_true in Hlow as (i & j & v & Hv & Hp). exists i, j, v. auto. }
  exfalso. unfold picker in Hraise. rewrite Hhigh, Hlow in Hraise.
  cbv zeta in Hraise.
  destruct (decide (0 < length _)); [|discriminate].
  destruct (label _) as [labelled_mat num_features].
  apply bind_Raise in Hraise as [Hloop | ([ijs remove_p] & _ & Hret)]; [|discriminate].
  apply for_each_Raise in Hloop as (st & ff & _ & Hbody).
  apply picker_feature_Raise in Hbody. discriminate.
Qed.

(** C6. With a rectangular signal, [xcorr2] raises if and only if the
    kernel has more rows or more columns than the signal, and what it
    raises then is the dimension error of its first test; [picker] raises
    a [ValueError] if and only if some probability is above 1 or below 0,
    and then it raises whatever the labelling routine is: the routine is
    not consulted. Both tests stand before every loop of their function,
    so nothing is accumulated or labelled when they fail. *)
Theorem input_contract_violations (label : labeller) (signal kernel probas : array2d)
    (centered_p : bool) (thres : float) :
  rectangular signal ->
  ((exists e, xcorr2 signal kernel centered_p = Raise e) <->
     (length signal < length kernel \/ ncols signal < ncols kernel)) /\
  (length signal < length kernel \/ ncols signal < ncols kernel ->
     xcorr2 signal kernel centered_p =
       Raise (ValueError "cannot have kernel bigger than signal")) /\
  ((exists msg, picker label probas thres = Raise (ValueError msg)) <->
     out_of_range probas) /\
  (out_of_range probas ->
     forall label' : labeller, picker label' probas thres = picker label probas thres).
Proof.
  intros Hsignal.
  assert (Hbig : length signal < length kernel \/ ncols signal < ncols kernel ->
    xcorr2 signal kernel centered_p =
      Raise (ValueError "cannot have kernel bigger than signal")).
  { intros Hk. unfold xcorr2. destruct (decide _) as [_|Hn]; [reflexivity|]. lia. }
  split; [|split; [exact Hbig | split]].
  - split; [|intros Hk; rewrite (Hbig Hk); eauto].
    intros [e He].
    destruct (decide (length signal < length kernel \/ ncols signal < ncols kernel))
      as [Hk|Hfits]; [exact Hk|].
    destruct (xcorr2_returns signal kernel centered_p Hsignal) as [out Hout]; [lia | lia |].
    congruence.
  - split.
    + intros [msg Hmsg]. eapply picker_ValueError; exact Hmsg.
    + intros Hbad. destruct (picker_guard_fails label probas thres Hbad) as [-> | ->]; eauto.
  - intros Hbad label'. unfold picker.
    destruct (np_any (fun v => (1 <? v)%float) probas) eqn:Hhigh; [reflexivity|].
    destruct (np_any (fun v => (v <? 0)%float) probas) eqn:Hlow; [reflexivity|].
    exfalso. destruct Hbad as (i & j & v & Hv & [Hp|Hp]).
    + assert (Ht : np_any (fun v => (1 <? v)%float) probas = true)
        by (apply np_any_true; eauto). congruence.
    + assert (Ht : np_any (fun v => (v <? 0)%float) probas = true)
        by (apply np_any_true; eauto). congruence.
Qed.

Lemma input_contract_violations_witness :
  ((exists e, xcorr2 [[1; 2]; [3; 4]]%float [[1; 1; 1]]%float true = Raise e) <->
     (length [[1; 2]; [3; 4]]%float < length [[1; 1; 1]]%float \/
      ncols [[1; 2]; [3; 4]]%float < ncols [[1; 1; 1]]%float)) /\
  (length [[1; 2]; [3; 4]]%float < length [[1; 1; 1]]%float \/
   ncols [[1; 2]; [3; 4]]%float < ncols [[1; 1; 1]]%float ->
     xcorr2 [[1; 2]; [3; 4]]%float [[1; 1; 1]]%float true =
       Raise (ValueError "cannot have kernel bigger than signal")) /\
  ((exists msg, picker reference_label [[0.9; 0; 1.5]]%float 0.8%float
                = Raise (ValueError msg)) <->
     out_of_range [[0.9; 0; 1.5]]%float) /\
  (out_of_range [[0.9; 0; 1.5]]%float ->
     forall label' : labeller,
       picker label' [[0.9; 0; 1.5]]%float 0.8%float =
       picker reference_label [[0.9; 0; 1.5]]%float 0.8%float).
Proof.
  apply (input_contract_violations reference_label
           [[1; 2]; [3; 4]]%float [[1; 1; 1]]%float [[0.9; 0; 1.5]]%float true 0.8%float).
  split; [reflexivity|]. repeat constructor.
Defined.

Lemma in_unit_interval_in_range (probas : array2d) :
  in_unit_interval probas -> ~ out_of_range probas.
Proof.
  intros Hunit (i & j & v & Hv & Hbad).
  destruct (Hunit i j v Hv) as [H0 H1].
  apply leb_not_ltb in H0. apply leb_not_ltb in H1.
  destruct Hbad; congruence.
Qed.

Lemma in_unit_interval_check (probas : array2d) :
  forallb (forallb (fun v => (0 <=? v)%float && (v <=? 1)%float)) probas = true ->
  in_unit_interval probas.
Proof.
  intros Hall i j v Hv. unfold entry in Hv.
  destruct (probas !! i) as [row|] eqn:Hi; simpl in Hv; [|discriminate].
  rewrite forallb_forall in Hall.
  assert (Hrow : forallb (fun v => (0 <=? v)%float && (v <=? 1)%float) row = true).
  { apply Hall. apply list_elem_of_In, list_elem_of_lookup. eauto. }
  rewrite forallb_forall in Hrow.
  assert (Hval : (0 <=? v)%float && (v <=? 1)%float = true).
  { apply Hrow. apply list_elem_of_In, list_elem_of_lookup. eauto. }
  apply andb_true_iff in Hval. exact Hval.
Qed.

(** C7. On a map whose values all lie between 0 and 1, [picker] returns
    the sentinel ["NA"] when no value is strictly above the threshold; it
    returns an array of coordinates only when some value is strictly
    above the threshold; and the sentinel is not the empty array. *)
Theorem picker_no_candidate_sentinel (label : labeller) (probas : array2d) (thres : float) :
  in_unit_interval probas ->
  ((forall i j v, entry probas i j = Some v -> (thres <? v)%float = false) ->
     picker label probas thres = Ok NA) /\
  (forall ijs, picker label probas thres = Ok (Coords ijs) ->
     exists i j v, entry probas i j = Some v /\ (thres <? v)%float = true) /\
  NA <> Coords [].
Proof.
  intros Hunit. apply in_unit_interval_in_range in Hunit.
  rewrite (picker_guard_passes label probas thres Hunit). cbv zeta.
  split; [|split; [|discriminate]].
  - intros Hnone.
    destruct (np_where (fun v => (thres <? v)%float) probas) as [|[i j] raw] eqn:Hraw;
      [reflexivity|].
    exfalso.
    assert (Hin : (i, j) ∈ np_where (fun v => (thres <? v)%float) probas)
      by (rewrite Hraw; left).
    apply np_where_elem in Hin as (v & Hv & Hp).
    rewrite (Hnone i j v Hv) in Hp. discriminate.
  - intros ijs Hret.
    destruct (decide (0 < length _)) as [Hsome|]; [|discriminate].
    destruct (np_where (fun v => (thres <? v)%float) probas) as [|[i j] raw] eqn:Hraw;
      [simpl in Hsome; lia|].
    assert (Hin : (i, j) ∈ np_where (fun v => (thres <? v)%float) probas)
      by (rewrite Hraw; left).
    apply np_where_elem in Hin as (v & Hv & Hp). eauto.
Qed.

Lemma picker_no_candidate_sentinel_witness :
  in_unit_interval example_probas /\
  ((forall i j v, entry example_probas i j = Some v -> (0.995 <? v)%float = false) ->
     picker reference_label example_probas 0.995%float = Ok NA) /\
  (forall ijs, picker reference_label example_probas 0.995%float = Ok (Coords ijs) ->
     exists i j v, entry example_probas i j = Some v /\ (0.995 <? v)%float = true) /\
  NA <> Coords [].
Proof.
  assert (Hunit : in_unit_interval example_probas)
    by (apply in_unit_interval_check; vm_compute; reflexivity).
  split; [exact Hunit|].
  apply (picker_no_candidate_sentinel reference_label example_probas 0.995%float Hunit).
Defined.

(** ** The candidate mask *)

Lemma entry_insert2 {A : Type} (r c : nat) (m : list (list A)) (i j a b : nat) (v : A) :
  is_matrix r c m -> i < r -> j < c ->
  is_matrix r c (<[i := <[j := v]> (default [] (m !! i))]> m) /\
  entry (<[i := <[j := v]> (default [] (m !! i))]> m) a b =
    if decide (a = i /\ b = j) then Some v else entry m a b.
Proof.
  intros Hm Hi Hj. pose proof Hm as [Hlen Hrows].
  destruct (lookup_lt_is_Some_2 m i) as [row Hrow]; [lia|].
  pose proof (is_matrix_row r c m i row Hm Hrow) as Hlrow.
  rewrite Hrow; simpl. split; [split|].
  - rewrite length_insert; exact Hlen.
  - apply Forall_insert; [exact Hrows|]. rewrite length_insert; exact Hlrow.
  - unfold entry. destruct (decide (a = i)) as [->|Hne].
    + rewrite list_lookup_insert_eq by lia. simpl.
      destruct (decide (b = j)) as [->|Hne'].
      * rewrite list_lookup_insert_eq by lia.
        destruct (decide _) as [_|Hn]; [reflexivity | tauto].
      * rewrite list_lookup_insert_ne by congruence. rewrite Hrow; simpl.
        destruct (decide _) as [[_ Hy]|_]; [congruence | reflexivity].
    + rewrite list_lookup_insert_ne by congruence.
      destruct (decide _) as [[Hy _]|_]; [congruence | reflexivity].
Qed.

Lemma mark_positions (r c : nat) (raw : list (nat * nat)) (m0 : list (list bool)) :
  is_matrix r c m0 ->
  (forall p, p ∈ raw -> p.1 < r /\ p.2 < c) ->
  is_matrix r c
    (fold_left (fun (m : list (list bool)) '(i, j) =>
       <[i := <[j := true]> (default [] (m !! i))]> m) raw m0) /\
  forall i j,
    entry (fold_left (fun (m : list (list bool)) '(i, j) =>
       <[i := <[j := true]> (default [] (m !! i))]> m) raw m0) i j = Some true <->
    (entry m0 i j = Some true \/ (i, j) ∈ raw).
Proof.
  revert m0; induction raw as [|[a b] raw IH]; intros m0 Hm Hraw; simpl.
  - split; [exact Hm|]. intros i j. rewrite elem_of_nil. tauto.
  - destruct (Hraw (a, b)) as [Ha Hb]; [left|]. simpl in Ha, Hb.
    pose proof (fun i j => entry_insert2 r c m0 a b i j true Hm Ha Hb) as Hstep.
    destruct (IH (<[a := <[b := true]> (default [] (m0 !! a))]> m0)) as [Hm' Hentries].
    { apply (Hstep 0 0). }
    { intros p Hp; apply Hraw; right; exact Hp. }
    split; [exact Hm'|].
    intros i j. rewrite Hentries, (proj2 (Hstep i j)), elem_of_cons.
    destruct (decide (i = a /\ j = b)) as [[-> ->]|Hne].
    + split; auto.
    + split; [intros [H|H]; auto|].
      intros [H|[H|H]]; auto. injection H as -> ->. tauto.
Qed.

Lemma candidate_mask_spec (raw : list (nat * nat)) :
  is_matrix (max_list (raw.*1) + 1) (max_list (raw.*2) + 1) (candidate_mask raw) /\
  forall i j, entry (candidate_mask raw) i j = Some true <-> (i, j) ∈ raw.
Proof.
  unfold candidate_mask.
  destruct (mark_positions (max_list (raw.*1) + 1) (max_list (raw.*2) + 1) raw
              (replicate (max_list (raw.*1) + 1) (replicate (max_list (raw.*2) + 1) false)))
    as [Hm Hentries].
  - split; [apply length_replicate|]. apply Forall_replicate, length_replicate.
  - intros [i j] Hp; simpl. split.
    + assert (Hi : i ∈ raw.*1) by (apply list_elem_of_fmap; exists (i, j); auto).
      apply max_list_elem_of_le in Hi. lia.
    + assert (Hj : j ∈ raw.*2) by (apply list_elem_of_fmap; exists (i, j); auto).
      apply max_list_elem_of_le in Hj. lia.
  - split; [exact Hm|]. intros i j. rewrite Hentries.
    split; [|auto]. intros [H|H]; [|exact H]. exfalso.
    unfold entry in H.
    destruct (replicate _ _ !! i) as [row|] eqn:Hrow; simpl in H; [|discriminate].
    apply lookup_replicate in Hrow as [-> _].
    apply lookup_replicate in H as [H _]. discriminate.
Qed.

(** ** The coordinates [picker] returns *)

Lemma select_kept_elem {A : Type} (a : list A) (remove_p : list bool) (x : A) :
  x ∈ select_kept a remove_p ->
  exists k, a !! k = Some x /\ remove_p !! k = Some false.
Proof.
  unfold select_kept. rewrite list_elem_of_omap.
  intros ([y r] & Hin & Hsel). simpl in Hsel.
  destruct r; [discriminate|]. injection Hsel as ->.
  apply list_elem_of_lookup in Hin as [k Hk].
  exists k. rewrite lookup_zip_with in Hk.
  destruct (a !! k) as [y'|]; simpl in Hk; [|discriminate].
  destruct (remove_p !! k) as [r'|]; simpl in Hk; [|discriminate].
  injection Hk as -> ->. auto.
Qed.

Lemma entry_map {A B : Type} (g : A -> B) (m : list (list A)) (i j : nat) :
  entry (map (map g) m) i j = g <$> entry m i j.
Proof.
  unfold entry. change (map (map g) m) with (map g <$> m).
  rewrite list_lookup_fmap. destruct (m !! i) as [row|]; simpl; [|reflexivity].
  change (map g row) with (g <$> row). apply list_lookup_fmap.
Qed.

(** The coordinates [picker] keeps for a feature are among the pixels of
    the labelled array that carry a number other than zero. *)
Lemma picker_feature_keeps (probas : array2d) (candidate_p : list (list bool))
    (labelled_mat : list (list nat)) (num_features : nat)
    (good : nat * nat -> Prop) (k : nat)
    (st st' : list (nat * nat) * list bool) :
  (forall i j l, entry labelled_mat i j = Some l -> l <> 0 -> good (i, j)) ->
  k < num_features ->
  picker_feature probas candidate_p labelled_mat st k = Ok st' ->
  (length st.1 = num_features /\ length st.2 = num_features /\
   forall n c, n < k -> st.1 !! n = Some c -> st.2 !! n = Some false -> good c) ->
  (length st'.1 = num_features /\ length st'.2 = num_features /\
   forall n c, n < S k -> st'.1 !! n = Some c -> st'.2 !! n = Some false -> good c).
Proof.
  intros Hgood Hk Hrun (Hlen1 & Hlen2 & Hinv).
  destruct st as [ijs remove_p]. simpl in *. unfold picker_feature in Hrun.
  apply bind_Ok in Hrun as (cand & Hcand & Hrun).
  assert (Hremoved : forall st1 : list (nat * nat) * list bool,
    st1 = (ijs, <[k := true]> remove_p) ->
    length st1.1 = num_features /\ length st1.2 = num_features /\
    forall n c, n < S k -> st1.1 !! n = Some c -> st1.2 !! n = Some false -> good c).
  { intros st1 ->; simpl. split; [exact Hlen1|]. split; [rewrite length_insert; exact Hlen2|].
    intros n c Hn Hc Hr. destruct (decide (n = k)) as [->|Hne].
    - rewrite list_lookup_insert_eq in Hr by lia. discriminate.
    - rewrite list_lookup_insert_ne in Hr by congruence. apply (Hinv n c); [lia | auto | auto]. }
  destruct (decide (length (filter _ cand) = 0)) as [Hnone|Hsome];
    [injection Hrun as <-; auto|].
  destruct (decide (bool_sum _ = 1)) as [Hone|Hmany]; [injection Hrun as <-; auto|].
  apply bind_Ok in Hrun as (vals & Hvals & Hrun).
  apply bind_Ok in Hrun as (ijmax & Hijmax & Hrun).
  apply bind_Ok in Hrun as ([i j] & Hij & [= <-]). simpl.
  split; [rewrite length_insert; exact Hlen1|]. split; [exact Hlen2|].
  intros n c Hn Hc Hr. destruct (decide (n = k)) as [->|Hne].
  - rewrite list_lookup_insert_eq in Hc by lia. injection Hc as <-.
    unfold get1 in Hij.
    destruct (np_where id _ !! ijmax) as [q|] eqn:Hq; [|discriminate].
    injection Hij as ->.
    assert (Hin : (i, j) ∈ np_where id
              (map (map (fun l => bool_decide (l = k + 1))) labelled_mat))
      by (apply list_elem_of_lookup; eauto).
    apply np_where_elem in Hin as (b & Hb & Htrue). simpl in Htrue. subst b.
    rewrite entry_map in Hb.
    destruct (entry labelled_mat i j) as [l|] eqn:Hl; simpl in Hb; [|discriminate].
    injection Hb as Hb. apply bool_decide_eq_true in Hb.
    apply (Hgood i j l Hl). lia.
  - rewrite list_lookup_insert_ne in Hc by congruence. apply (Hinv n c); [lia | auto | auto].
Qed.

(** C10. Every coordinate of an array [picker] returns indexes the
    probability map itself (no offset is added: the candidate mask starts
    at the origin) and the probability there is strictly above the
    threshold. The labelling routine is only required to number
    foreground pixels of the mask it is given. *)
Theorem picker_coordinates_exceed_threshold (label : labeller) (probas : array2d)
    (thres : float) (ijs : list (nat * nat)) :
  (forall i j l,
     entry (label (candidate_mask (np_where (fun v => (thres <? v)%float) probas))).1 i j
       = Some l ->
     l <> 0 ->
     entry (candidate_mask (np_where (fun v => (thres <? v)%float) probas)) i j = Some true) ->
  picker label probas thres = Ok (Coords ijs) ->
  forall i j, (i, j) ∈ ijs ->
    exists v, entry probas i j = Some v /\ (thres <? v)%float = true.
Proof.
  intros Hlabel Hret i j Hij.
  assert (Hrange : ~ out_of_range probas).
  { intros Hbad.
    destruct (picker_guard_fails label probas thres Hbad) as [H|H]; congruence. }
  rewrite (picker_guard_passes label probas thres Hrange) in Hret. cbv zeta in Hret.
  destruct (decide (0 < length _)) as [_|]; [|discriminate].
  set (raw_ijs := np_where (fun v => (thres <? v)%float) probas) in *.
  destruct (label (candidate_mask raw_ijs)) as [labelled_mat num_features] eqn:Hlab.
  simpl in Hlabel.
  apply bind_Ok in Hret as ([ijs0 remove_p] & Hloop & [= <-]).
  apply select_kept_elem in Hij as (k & Hk & Hkept).
  pose proof (for_each_seq_returned
    (fun k (st : list (nat * nat) * list bool) =>
       length st.1 = num_features /\ length st.2 = num_features /\
       forall n c, n < k -> st.1 !! n = Some c -> st.2 !! n = Some false ->
         exists v, entry probas c.1 c.2 = Some v /\ (thres <? v)%float = true)
    0 num_features _ _ _ Hloop) as Hinv.
  simpl in Hinv. destruct Hinv as (Hlen1 & _ & Hinv).
  - rewrite !length_replicate. repeat split; auto. intros n c Hn; lia.
  - intros n st st1 Hn Hst Hbody.
    apply (picker_feature_keeps probas (candidate_mask raw_ijs) labelled_mat num_features
             (fun c => exists v, entry probas c.1 c.2 = Some v /\ (thres <? v)%float = true)
             n st st1); [| lia | exact Hbody | exact Hst].
    intros a b l Hl Hne; simpl.
    apply (np_where_elem (fun v => (thres <? v)%float) probas a b).
    apply candidate_mask_spec. apply (Hlabel a b l Hl Hne).
  - apply (Hinv k (i, j)); [|exact Hk | exact Hkept].
    apply lookup_lt_Some in Hk. lia.
Qed.

Lemma numbered_pixels_check (labelled : list (list nat)) (mask : list (list bool)) :
  forallb (fun p : nat * nat => bool_decide (entry mask p.1 p.2 = Some true))
    (np_where (fun l => negb (Nat.eqb l 0)) labelled) = true ->
  forall i j l, entry labelled i j = Some l -> l <> 0 -> entry mask i j = Some true.
Proof.
  intros Hall i j l Hl Hne. rewrite forallb_forall in Hall.
  specialize (Hall (i, j)). simpl in Hall.
  eapply bool_decide_eq_true_1. apply Hall.
  apply list_elem_of_In, np_where_elem. exists l. split; [exact Hl|].
  apply negb_true_iff, Nat.eqb_neq. exact Hne.
Qed.

Lemma picker_coordinates_exceed_threshold_witness :
  picker reference_label example_probas 0.8%float = Ok (Coords [(3, 2)]) /\
  forall i j, (i, j) ∈ [(3, 2)] ->
    exists v, entry example_probas i j = Some v /\ (0.8 <? v)%float = true.
Proof.
  assert (Hrun : picker reference_label example_probas 0.8%float = Ok (Coords [(3, 2)]))
    by (vm_compute; reflexivity).
  split; [exact Hrun|].
  apply (picker_coordinates_exceed_threshold reference_label example_probas 0.8%float
           [(3, 2)]); [|exact Hrun].
  apply numbered_pixels_check. vm_compute. reflexivity.
Defined.

(** ** Reading and writing one entry *)

Lemma get2_total {A : Type} (r c : nat) (m : list (list A)) (i j : nat) :
  is_matrix r c m -> i < r -> j < c ->
  exists v, get2 m i j = Ok v /\ entry m i j = Some v.
Proof.
  intros Hm Hi Hj. destruct (is_matrix_entry r c m i j Hm Hi Hj) as [v Hv].
  exists v. split; [apply get2_entry; exact Hv | exact Hv].
Qed.

Lemma set2_total {A : Type} (r c : nat) (m : list (list A)) (i j : nat) (v : A) :
  is_matrix r c m -> i < r -> j < c ->
  exists m', set2 m i j v = Ok m' /\ is_matrix r c m' /\
    forall a b, entry m' a b = if decide (a = i /\ b = j) then Some v else entry m a b.
Proof.
  intros Hm Hi Hj. unfold set2.
  destruct (lookup_lt_is_Some_2 m i) as [row Hrow]; [destruct Hm; lia|].
  pose proof (is_matrix_row r c m i row Hm Hrow) as Hlrow.
  pose proof (fun a b => entry_insert2 r c m i j a b v Hm Hi Hj) as Hins.
  rewrite Hrow in *. simpl in Hins.
  destruct (decide (j < length row)) as [_|Hn]; [|lia].
  eexists; split; [reflexivity|]. split; [apply (Hins 0 0)|].
  intros a b. apply Hins.
Qed.

Lemma set2_returned {A : Type} (m m' : list (list A)) (i j : nat) (v : A) :
  set2 m i j v = Ok m' ->
  map length m' = map length m /\
  forall a b, entry m' a b =
    if decide (a = i /\ b = j) then Some v else entry m a b.
Proof.
  unfold set2. destruct (m !! i) as [row|] eqn:Hrow; [|discriminate].
  destruct (decide (j < length row)) as [Hj|]; [|discriminate].
  intros [= <-]. pose proof (lookup_lt_Some _ _ _ Hrow) as Hi. split.
  - apply list_eq; intros k. rewrite !list_lookup_fmap.
    destruct (decide (k = i)) as [->|Hne].
    + rewrite list_lookup_insert_eq by exact Hi. rewrite Hrow; simpl.
      rewrite length_insert; reflexivity.
    + rewrite list_lookup_insert_ne by congruence. reflexivity.
  - intros a b. unfold entry. destruct (decide (a = i)) as [->|Hne].
    + rewrite list_lookup_insert_eq by exact Hi. simpl.
      destruct (decide (b = j)) as [->|Hne'].
      * rewrite list_lookup_insert_eq by exact Hj.
        destruct (decide _) as [_|Hn]; [reflexivity | tauto].
      * rewrite list_lookup_insert_ne by congruence. rewrite Hrow; simpl.
        destruct (decide _) as [[_ Hy]|_]; [congruence | reflexivity].
    + rewrite list_lookup_insert_ne by congruence.
      destruct (decide _) as [[Hy _]|_]; [congruence | reflexivity].
Qed.

Lemma for_each_ext {A S : Type} (xs : list A) (body1 body2 : S -> A -> pyresult S) (s : S) :
  (forall s x, x ∈ xs -> body1 s x = body2 s x) ->
  for_each xs body1 s = for_each xs body2 s.
Proof.
  revert s; induction xs as [|x xs IH]; intros s Hext; simpl; [reflexivity|].
  rewrite (Hext s x) by left.
  destruct (body2 s x) as [s1|e]; simpl; [|reflexivity].
  apply IH. intros s2 y Hy; apply Hext; right; exact Hy.
Qed.

(** ** [despeckles] *)

Lemma omap_snoc {A B : Type} (f : A -> option B) (l : list A) (x : A) (y : B) :
  f x = Some y -> omap f (l ++ [x]) = omap f l ++ [y].
Proof. intros Hx. rewrite omap_app. csimpl. rewrite Hx. reflexivity. Qed.

(** The first pass lists, for every distance, the entries of the input
    on the upper diagonal at that distance. *)
Lemma despeckles_group_snapshot (A : array2d) (n nw : nat) :
  is_matrix n n A ->
  despeckles_group A n nw = Ok (snapshot_values A nw).
Proof.
  intros HA. pose proof HA as [Hlen _]. unfold despeckles_group.
  destruct (for_each_range_total
    (fun k group => group = omap (fun j => entry A j (j + nw)) (seq 0 (k `min` (n - nw))))
    n (fun group j =>
         if decide (j + nw < n) then v ← get2 A j (j + nw); Ok (group ++ [v])
         else Ok group) []) as (group & Hrun & Hgroup).
  - reflexivity.
  - intros k group Hk ->.
    destruct (decide (k + nw < n)) as [Hin|Hout].
    + destruct (get2_total n n A k (k + nw) HA) as (v & -> & Hv); [lia | lia |].
      cbn -[Nat.min seq]. eexists; split; [reflexivity|].
      replace (k `min` (n - nw)) with k by lia.
      replace (S k `min` (n - nw)) with (S k) by lia.
      rewrite seq_S. symmetry. apply omap_snoc. exact Hv.
    + eexists; split; [reflexivity|].
      replace (S k `min` (n - nw)) with (k `min` (n - nw)) by lia. reflexivity.
  - rewrite Hrun, Hgroup. unfold snapshot_values. rewrite Hlen.
    replace (n `min` (n - nw)) with (n - nw) by lia. reflexivity.
Qed.

Lemma despeckles_dist_snapshot (A : array2d) (n : nat) :
  is_matrix n n A ->
  exists dist, despeckles_dist A n = Ok dist /\
    forall nw, dist !! nw = if decide (nw < n) then Some (snapshot_values A nw) else None.
Proof.
  intros HA. unfold despeckles_dist.
  destruct (for_each_range_total
    (fun k (dist : gmap nat (list float)) =>
       forall nw, dist !! nw = if decide (nw < k) then Some (snapshot_values A nw) else None)
    n (fun dist nw => group ← despeckles_group A n nw; Ok (<[nw := group]> dist)) ∅)
    as (dist & Hrun & Hdist).
  - intros nw. rewrite lookup_empty. destruct (decide _); [lia | reflexivity].
  - intros k dist Hk Hdist.
    rewrite (despeckles_group_snapshot A n k HA). simpl.
    eexists; split; [reflexivity|].
    intros nw. destruct (decide (nw = k)) as [->|Hne].
    + rewrite lookup_insert_eq. destruct (decide _); [reflexivity | lia].
    + rewrite lookup_insert_ne by congruence. rewrite Hdist.
      destruct (decide (nw < k)), (decide (nw < S k)); try reflexivity; lia.
  - exists dist. auto.
Qed.

(** With the distributions of the first pass in the dictionary, a test of
    the second pass is a comparison with the threshold of the snapshot. *)
Lemma clip_at_snapshot (A : array2d) (dist : gmap nat (list float)) (th2 : float)
    (nw j c : nat) (st : list (list float) * nat * list (nat * nat)) :
  dist !! nw = Some (snapshot_values A nw) ->
  clip_at dist th2 nw j c st = snapshot_clip_at (snapshot_threshold A th2) nw j c st.
Proof.
  intros Hdist. destruct st as [[B n_speckles] outlier].
  unfold clip_at, snapshot_clip_at, dict_get. rewrite Hdist.
  destruct (get2 B j c) as [v|e]; reflexivity.
Qed.

Lemma despeckles_step_snapshot (A : array2d) (dist : gmap nat (list float)) (th2 : float)
    (n1 nw j : nat) (st : list (list float) * nat * list (nat * nat)) :
  dist !! nw = Some (snapshot_values A nw) ->
  despeckles_step dist th2 n1 nw st j = snapshot_step (snapshot_threshold A th2) n1 nw st j.
Proof.
  intros Hdist. unfold despeckles_step, snapshot_step. cbv zeta.
  assert (Hfirst :
    (if decide (j + nw < n1) then clip_at dist th2 nw j (j + nw) st else Ok st) =
    (if decide (j + nw < n1)
     then snapshot_clip_at (snapshot_threshold A th2) nw j (j + nw) st else Ok st)).
  { destruct (decide _); [apply clip_at_snapshot; exact Hdist | reflexivity]. }
  rewrite Hfirst. clear Hfirst.
  destruct (if decide (j + nw < n1) then _ else _) as [st1|e]; simpl; [|reflexivity].
  destruct (decide (0 <= Z.of_nat j - Z.of_nat nw)%Z) as [Hkp|Hkp],
    (decide (nw <= j)) as [Hle|Hle]; try lia; try reflexivity.
  replace (Z.to_nat (Z.of_nat j - Z.of_nat nw)) with (j - nw) by lia.
  apply clip_at_snapshot; exact Hdist.
Qed.

Lemma despeckles_clip_snapshot (A : array2d) (dist : gmap nat (list float)) (th2 : float)
    (n1 : nat) (st : list (list float) * nat * list (nat * nat)) :
  (forall nw, nw < n1 -> dist !! nw = Some (snapshot_values A nw)) ->
  despeckles_clip dist th2 n1 st = snapshot_clip (snapshot_threshold A th2) n1 st.
Proof.
  intros Hdist. unfold despeckles_clip, snapshot_clip.
  apply for_each_ext. intros st1 nw Hnw. apply elem_of_seq in Hnw.
  apply for_each_ext. intros st2 j _.
  apply despeckles_step_snapshot. apply Hdist. lia.
Qed.

Lemma snapshot_clip_at_recorded (thr : nat -> float) (n1 nw j c : nat)
    (st : list (list float) * nat * list (nat * nat)) :
  j < n1 -> c < n1 -> speckles_recorded n1 st ->
  exists st', snapshot_clip_at thr nw j c st = Ok st' /\ speckles_recorded n1 st'.
Proof.
  intros Hj Hc (HB & Hcount & Hzero). destruct st as [[B n_speckles] outlier].
  simpl in *. unfold snapshot_clip_at.
  destruct (get2_total n1 n1 B j c HB Hj Hc) as (v & -> & _). simpl.
  destruct (thr nw <? v)%float.
  - destruct (set2_total n1 n1 B j c 0%float HB Hj Hc) as (B' & -> & HB' & Hentries).
    simpl. eexists; split; [reflexivity|].
    split; [exact HB'|]. split; [simpl; rewrite length_app; simpl; lia|].
    simpl. intros r c' Hin. rewrite Hentries.
    destruct (decide _) as [_|Hne]; [reflexivity|].
    apply elem_of_app in Hin as [Hin|Hin]; [apply Hzero; exact Hin|].
    apply list_elem_of_singleton in Hin. injection Hin as -> ->. tauto.
  - eexists; split; [reflexivity|].
    split; [exact HB|]. split; [exact Hcount | exact Hzero].
Qed.

Lemma snapshot_clip_recorded (thr : nat -> float) (n1 : nat)
    (st : list (list float) * nat * list (nat * nat)) :
  speckles_recorded n1 st ->
  exists st', snapshot_clip thr n1 st = Ok st' /\ speckles_recorded n1 st'.
Proof.
  intros Hst. unfold snapshot_clip.
  apply (for_each_total (speckles_recorded n1)); [exact Hst|].
  intros st1 nw Hnw Hst1. apply elem_of_seq in Hnw.
  apply (for_each_total (speckles_recorded n1)); [exact Hst1|].
  intros st2 j Hj Hst2. apply elem_of_seq in Hj.
  unfold snapshot_step.
  assert (Hfirst : exists st3,
    (if decide (j + nw < n1) then snapshot_clip_at thr nw j (j + nw) st2 else Ok st2)
      = Ok st3 /\ speckles_recorded n1 st3).
  { destruct (decide (j + nw < n1)) as [Hlp|]; [|eauto].
    apply snapshot_clip_at_recorded; [lia | lia | exact Hst2]. }
  destruct Hfirst as (st3 & -> & Hst3). simpl.
  destruct (decide (nw <= j)) as [Hkp|]; [|eauto].
  apply snapshot_clip_at_recorded; [lia | lia | exact Hst3].
Qed.

Lemma despeckles_run (A : array2d) (th2 : float) (n : nat) :
  is_matrix n n A ->
  exists dist A' n_speckles outlier,
    despeckles A th2 = Ok (dist, A', n_speckles, outlier) /\
    (forall nw, dist !! nw = if decide (nw < n) then Some (snapshot_values A nw) else None) /\
    snapshot_clip (snapshot_threshold A th2) n (A, 0, []) = Ok (A', n_speckles, outlier) /\
    speckles_recorded n (A', n_speckles, outlier).
Proof.
  intros HA. pose proof HA as [Hlen _]. unfold despeckles. cbv zeta. rewrite Hlen.
  destruct (despeckles_dist_snapshot A n HA) as (dist & -> & Hdist). simpl.
  rewrite (despeckles_clip_snapshot A dist th2 n).
  2: { intros nw Hnw. rewrite Hdist. destruct (decide _); [reflexivity | lia]. }
  destruct (snapshot_clip_recorded (snapshot_threshold A th2) n (A, 0, []))
    as ([[A' n_speckles] outlier] & Hclip & Hrec).
  { split; [exact HA|]. split; [reflexivity|]. intros r c Hin. inversion Hin. }
  rewrite Hclip. simpl.
  exists dist, A', n_speckles, outlier. auto.
Qed.

(** C3. On a square matrix [despeckles] returns, and what it returns is
    what the two-pass reading of the specification gives: the
    distribution of every distance [nw] holds the values [A[j, j+nw]] of
    the matrix as it was passed in, and the matrix, the count and the
    list of outliers are those of a clipping pass in which every test, at
    [(j, j+nw)] and at [(j, j-nw)], compares the current value with
    median + th2 * std of that distribution of the input. *)
Theorem despeckles_statistics_precede_clipping (A : array2d) (th2 : float) (n : nat) :
  is_matrix n n A ->
  exists dist A' n_speckles outlier,
    despeckles A th2 = Ok (dist, A', n_speckles, outlier) /\
    (forall nw, dist !! nw = if decide (nw < n) then Some (snapshot_values A nw) else None) /\
    snapshot_clip (snapshot_threshold A th2) n (A, 0, []) = Ok (A', n_speckles, outlier).
Proof.
  intros HA.
  destruct (despeckles_run A th2 n HA) as (dist & A' & n_speckles & outlier & H1 & H2 & H3 & _).
  exists dist, A', n_speckles, outlier. auto.
Qed.

Lemma despeckles_statistics_precede_clipping_witness :
  exists dist A' n_speckles outlier,
    despeckles speckled_matrix 1%float = Ok (dist, A', n_speckles, outlier) /\
    (forall nw, dist !! nw =
       if decide (nw < 4) then Some (snapshot_values speckled_matrix nw) else None) /\
    snapshot_clip (snapshot_threshold speckled_matrix 1%float) 4 (speckled_matrix, 0, [])
      = Ok (A', n_speckles, outlier).
Proof.
  apply (despeckles_statistics_precede_clipping speckled_matrix 1%float 4).
  split; [reflexivity|]. repeat constructor.
Defined.

(** C4. On a square matrix [despeckles] returns; the value of the
    returned matrix at every coordinate of the list of outliers is 0, and
    the count of speckles is the length of that list. *)
Theorem despeckles_outliers_are_zeroed (A : array2d) (th2 : float) (n : nat) :
  is_matrix n n A ->
  exists dist A' n_speckles outlier,
    despeckles A th2 = Ok (dist, A', n_speckles, outlier) /\
    n_speckles = length outlier /\
    forall r c, (r, c) ∈ outlier -> entry A' r c = Some 0%float.
Proof.
  intros HA.
  destruct (despeckles_run A th2 n HA)
    as (dist & A' & n_speckles & outlier & H1 & _ & _ & (_ & Hcount & Hzero)).
  exists dist, A', n_speckles, outlier. auto.
Qed.

Lemma despeckles_outliers_are_zeroed_witness :
  exists dist A' n_speckles outlier,
    despeckles speckled_matrix 1%float = Ok (dist, A', n_speckles, outlier) /\
    n_speckles = length outlier /\
    forall r c, (r, c) ∈ outlier -> entry A' r c = Some 0%float.
Proof.
  apply (despeckles_outliers_are_zeroed speckled_matrix 1%float 4).
  split; [reflexivity|]. repeat constructor.
Defined.

Example despeckles_speckled_matrix :
  (r ← despeckles speckled_matrix 1%float; Ok (r.1.1.2, r.1.2, r.2)) =
  Ok ([[1; 2; 3; 4]; [2; 1; 2; 3]; [3; 2; 1; 0]; [4; 3; 0; 1]]%float, 2, [(2, 3); (3, 2)]).
Proof. vm_compute. reflexivity. Qed.

(** ** Writes into a matrix *)

Lemma for_each_map {A B S : Type} (g : A -> B) (xs : list A)
    (body : S -> B -> pyresult S) (s : S) :
  for_each (map g xs) body s = for_each xs (fun s x => body s (g x)) s.
Proof.
  revert s; induction xs as [|x xs IH]; intros s; simpl; [reflexivity|].
  destruct (body s (g x)) as [s1|e]; simpl; [apply IH | reflexivity].
Qed.

Lemma for_each_app {A S : Type} (xs ys : list A) (body : S -> A -> pyresult S) (s : S) :
  for_each (xs ++ ys) body s = for_each xs body s ≫= for_each ys body.
Proof.
  revert s; induction xs as [|x xs IH]; intros s; simpl; [reflexivity|].
  destruct (body s x) as [s1|e]; simpl; [apply IH | reflexivity].
Qed.

Lemma apply_writes_total (r c : nat) (ws : list (nat * nat * float)) (m : array2d) :
  is_matrix r c m ->
  (forall w, w ∈ ws -> w.1.1 < r /\ w.1.2 < c) ->
  exists m', apply_writes ws m = Ok m' /\ is_matrix r c m' /\
    forall a b,
      ((a, b) ∉ ws.*1 -> entry m' a b = entry m a b) /\
      ((a, b) ∈ ws.*1 -> exists v, (a, b, v) ∈ ws /\ entry m' a b = Some v).
Proof.
  unfold apply_writes.
  revert m; induction ws as [|[[i j] v] ws IH]; intros m Hm Hws; simpl.
  - exists m. split; [reflexivity|]. split; [exact Hm|].
    intros a b. split; [reflexivity|]. intros Hin. inversion Hin.
  - destruct (Hws (i, j, v)) as [Hi Hj]; [left|]. simpl in Hi, Hj.
    destruct (set2_total r c m i j v Hm Hi Hj) as (m1 & -> & Hm1 & Hentries). simpl.
    destruct (IH m1 Hm1) as (m' & Hrun & Hm' & Hfinal).
    { intros w Hw; apply Hws; right; exact Hw. }
    exists m'. split; [exact Hrun|]. split; [exact Hm'|].
    intros a b. destruct (Hfinal a b) as [Hkeep Hset]. split.
    + intros Hnone. apply not_elem_of_cons in Hnone as [Hne Hnone].
      rewrite (Hkeep Hnone), Hentries.
      destruct (decide _) as [[-> ->]|_]; [congruence | reflexivity].
    + intros Hin.
      destruct (decide ((a, b) ∈ ws.*1)) as [Htail|Hnotail].
      * destruct (Hset Htail) as (v' & Hv' & Hval).
        exists v'. split; [right; exact Hv' | exact Hval].
      * apply elem_of_cons in Hin as [[= -> ->]|Hin]; [|contradiction].
        rewrite (Hkeep Hnotail), Hentries.
        destruct (decide _) as [_|Hne]; [|tauto].
        exists v. split; [left | reflexivity].
Qed.

Lemma apply_writes_app (ws1 ws2 : list (nat * nat * float)) (A : array2d) :
  apply_writes (ws1 ++ ws2) A = apply_writes ws1 A ≫= apply_writes ws2.
Proof. apply for_each_app. Qed.

(** ** [scn_func] *)

Lemma scn_columns_step (idx1 idx2 : list nat) (A : array2d) (c : nat) :
  (col ← gather_col A idx1 c;
   A ← scatter_col A idx1 c (map (fun v => (v / np_sum col)%float) col);
   fill_col A idx2 c 0%float) = scn_line (fun r => (r, c)) idx1 idx2 A.
Proof.
  unfold scn_line, gather_col, scatter_col, fill_col. simpl.
  destruct (py_mapM _ idx1) as [col|e]; simpl; [|reflexivity].
  rewrite apply_writes_app. unfold apply_writes at 2, line_writes.
  rewrite for_each_map.
  rewrite (for_each_ext _ _ (fun A (x : nat * float) => set2 A x.1 c x.2)).
  2: { intros m [r v] _. reflexivity. }
  destruct (for_each _ _ A) as [A1|e]; simpl; [|reflexivity].
  unfold apply_writes. rewrite for_each_map. reflexivity.
Qed.

Lemma scn_rows_step (idx1 idx2 : list nat) (A : array2d) (r : nat) :
  (row ← gather_row A r idx1;
   A ← scatter_row A r idx1 (map (fun v => (v / np_sum row)%float) row);
   fill_row A r idx2 0%float) = scn_line (fun c => (r, c)) idx1 idx2 A.
Proof.
  unfold scn_line, gather_row, scatter_row, fill_row. simpl.
  destruct (py_mapM _ idx1) as [row|e]; simpl; [|reflexivity].
  rewrite apply_writes_app. unfold apply_writes at 2, line_writes.
  rewrite for_each_map.
  rewrite (for_each_ext _ _ (fun A (x : nat * float) => set2 A r x.1 x.2)).
  2: { intros m [c v] _. reflexivity. }
  destruct (for_each _ _ A) as [A1|e]; simpl; [|reflexivity].
  unfold apply_writes. rewrite for_each_map. reflexivity.
Qed.

Lemma line_writes_elem (pos : nat -> nat * nat) (idx : list nat) (vals : list float)
    (a b : nat) (v : float) :
  (a, b, v) ∈ line_writes pos idx vals ->
  exists k, pos k = (a, b) /\ k ∈ idx /\ v ∈ vals.
Proof.
  unfold line_writes. change (map ?f ?l) with (f <$> l). rewrite list_elem_of_fmap.
  intros ([k v'] & [= Hpos ->] & Hin). simpl in *.
  apply list_elem_of_lookup in Hin as [n Hn].
  rewrite lookup_zip_with in Hn.
  destruct (idx !! n) as [k'|] eqn:Hk; simpl in Hn; [|discriminate].
  destruct (vals !! n) as [v''|] eqn:Hv; simpl in Hn; [|discriminate].
  injection Hn as -> ->.
  exists k. split; [auto|]. split; apply list_elem_of_lookup; eauto.
Qed.

Lemma line_writes_positions (pos : nat -> nat * nat) (idx : list nat) (vals : list float)
    (k : nat) :
  length vals = length idx -> k ∈ idx -> pos k ∈ (line_writes pos idx vals).*1.
Proof.
  intros Hlen Hk. apply list_elem_of_lookup in Hk as [n Hn].
  destruct (lookup_lt_is_Some_2 vals n) as [v Hv];
    [rewrite Hlen; eapply lookup_lt_Some; exact Hn|].
  apply list_elem_of_fmap. exists (pos k, v). split; [reflexivity|].
  unfold line_writes. change (map ?f ?l) with (f <$> l).
  apply list_elem_of_fmap. exists (k, v). split; [reflexivity|].
  apply list_elem_of_lookup. exists n. rewrite lookup_zip_with, Hn; simpl.
  rewrite Hv; reflexivity.
Qed.

(** What one step along a line does to a square matrix. *)
Lemma scn_line_total (n : nat) (pos : nat -> nat * nat) (idx1 idx2 : list nat) (A : array2d) :
  is_matrix n n A ->
  (forall k, k ∈ idx1 ++ idx2 -> (pos k).1 < n /\ (pos k).2 < n) ->
  (forall k, k ∈ idx1 -> k ∉ idx2) ->
  exists vals A',
    Forall2 (fun k v => entry A (pos k).1 (pos k).2 = Some v) idx1 vals /\
    scn_line pos idx1 idx2 A = Ok A' /\ is_matrix n n A' /\
    (forall a b, (forall k, k ∈ idx1 ++ idx2 -> pos k <> (a, b)) ->
       entry A' a b = entry A a b) /\
    (forall k, k ∈ idx2 -> (forall k', pos k' = pos k -> k' = k) ->
       entry A' (pos k).1 (pos k).2 = Some 0%float) /\
    (forall k, k ∈ idx1 -> (forall k', pos k' = pos k -> k' = k) ->
       exists v, v ∈ vals /\
         entry A' (pos k).1 (pos k).2 = Some (v / np_sum vals)%float).
Proof.
  intros HA Hrange Hdisjoint. unfold scn_line.
  destruct (py_mapM_total (fun k => get2 A (pos k).1 (pos k).2) idx1) as [vals Hvals].
  { intros k Hk. destruct (Hrange k) as [H1 H2]; [apply elem_of_app; auto|].
    destruct (get2_total n n A _ _ HA H1 H2) as (v & Hv & _). eauto. }
  rewrite Hvals. simpl. apply py_mapM_Ok in Hvals.
  assert (Hlen : length vals = length idx1) by (symmetry; eapply Forall2_length; exact Hvals).
  set (W := line_writes pos idx1 (map (fun v => (v / np_sum vals)%float) vals)
            ++ map (fun k => (pos k, 0%float)) idx2).
  destruct (apply_writes_total n n W A HA) as (A' & Hrun & HA' & Hentries).
  { intros [[a b] v] Hw. simpl. subst W. apply elem_of_app in Hw as [Hw|Hw].
    - apply line_writes_elem in Hw as (k & Hpos & Hk & _).
      destruct (Hrange k) as [H1 H2]; [apply elem_of_app; auto|].
      rewrite Hpos in H1, H2. auto.
    - change (map ?f ?l) with (f <$> l) in Hw.
      apply list_elem_of_fmap in Hw as (k & [= Hpos _] & Hk).
      destruct (Hrange k) as [H1 H2]; [apply elem_of_app; auto|].
      rewrite <- Hpos in H1, H2. auto. }
  assert (Hw_elem : forall a b v, (a, b, v) ∈ W ->
    (exists k v0, pos k = (a, b) /\ k ∈ idx1 /\ v0 ∈ vals /\ v = (v0 / np_sum vals)%float) \/
    (exists k, pos k = (a, b) /\ k ∈ idx2 /\ v = 0%float)).
  { intros a b v Hw. subst W. apply elem_of_app in Hw as [Hw|Hw].
    - left. apply line_writes_elem in Hw as (k & Hpos & Hk & Hv).
      change (map ?f ?l) with (f <$> l) in Hv.
      apply list_elem_of_fmap in Hv as (v0 & -> & Hv0). eauto 8.
    - right. change (map ?f ?l) with (f <$> l) in Hw.
      apply list_elem_of_fmap in Hw as (k & [= Hpos ->] & Hk). eauto. }
  exists vals, A'. split; [|split; [exact Hrun|split; [exact HA'|split; [|split]]]].
  - eapply Forall2_impl; [exact Hvals|]. intros k v Hget. apply get2_entry. exact Hget.
  - intros a b Hnone. apply (Hentries a b).
    intros Hin. apply list_elem_of_fmap in Hin as ([[a' b'] v] & [= -> ->] & Hw).
    destruct (Hw_elem a' b' v Hw) as [(k & v0 & Hpos & Hk & _)|(k & Hpos & Hk & _)];
      apply (Hnone k); auto; apply elem_of_app; auto.
  - intros k Hk Hinj. destruct (pos k) as [a b] eqn:Hpos. simpl.
    destruct (proj2 (Hentries a b)) as (v & Hw & Hv).
    { apply list_elem_of_fmap. exists (a, b, 0%float). split; [reflexivity|].
      subst W. apply elem_of_app; right.
      change (map ?f ?l) with (f <$> l). apply list_elem_of_fmap.
      exists k. rewrite Hpos. auto. }
    rewrite Hv. f_equal.
    destruct (Hw_elem a b v Hw) as [(k' & v0 & Hpos' & Hk' & _)|(k' & _ & _ & ->)];
      [|reflexivity].
    exfalso. assert (k' = k) by (apply Hinj; congruence). subst k'.
    apply (Hdisjoint k Hk' Hk).
  - intros k Hk Hinj. destruct (pos k) as [a b] eqn:Hpos. simpl.
    destruct (proj2 (Hentries a b)) as (v & Hw & Hv).
    { subst W. rewrite fmap_app. apply elem_of_app; left.
      rewrite <- Hpos. apply line_writes_positions; [|exact Hk].
      rewrite length_map. exact Hlen. }
    destruct (Hw_elem a b v Hw) as [(k' & v0 & Hpos' & Hk' & Hv0 & ->)|(k' & Hpos' & Hk' & _)].
    + exists v0. auto.
    + exfalso. assert (k' = k) by (apply Hinj; congruence). subst k'.
      apply (Hdisjoint k Hk Hk').
Qed.

Lemma fold_add_zeros (l : list float) :
  Forall (fun v => v = 0%float) l -> fold_left PrimFloat.add l 0%float = 0%float.
Proof.
  induction 1 as [|v l -> _ IH]; simpl; [reflexivity|].
  change (0 + 0)%float with 0%float. exact IH.
Qed.

Lemma zeros_replicate (l : list float) :
  Forall (fun v => v = 0%float) l -> l = replicate (length l) 0%float.
Proof. induction 1 as [|v l -> _ IH]; simpl; [reflexivity | f_equal; exact IH]. Qed.

Lemma sum_lanes_zeros (groups : nat) (r l : list float) :
  Forall (fun v => v = 0%float) r -> Forall (fun v => v = 0%float) l ->
  length r = 8 -> 8 * groups <= length l ->
  Forall (fun v => v = 0%float) (sum_lanes groups r l) /\
  length (sum_lanes groups r l) = 8.
Proof.
  revert r l; induction groups as [|groups IH]; intros r l Hr Hl Hlanes Hlen; simpl.
  - split; [exact Hr | exact Hlanes].
  - apply IH.
    + assert (Hl8 : Forall (fun v => v = 0%float) (take 8 l))
        by (apply Forall_take; exact Hl).
      apply Forall_lookup. intros k v. rewrite lookup_zip_with.
      destruct (r !! k) as [x|] eqn:Hx; simpl; [|discriminate].
      destruct (take 8 l !! k) as [y|] eqn:Hy; simpl; [|discriminate].
      intros [= <-].
      rewrite Forall_lookup in Hr. rewrite (Hr k x Hx).
      rewrite Forall_lookup in Hl8. rewrite (Hl8 k y Hy). reflexivity.
    + apply Forall_drop. exact Hl.
    + rewrite length_zip_with, length_take. lia.
    + rewrite length_drop. lia.
Qed.

Lemma block_sum_zeros (l : list float) :
  8 <= length l -> Forall (fun v => v = 0%float) l -> block_sum l = 0%float.
Proof.
  intros Hlen Hl. unfold block_sum. cbv zeta.
  pose proof (Nat.mod_upper_bound (length l) 8 ltac:(lia)) as Hmod.
  pose proof (Nat.div_mod_eq (length l) 8) as Hdiv.
  destruct (sum_lanes_zeros ((length l - length l mod 8) / 8 - 1) (take 8 l) (drop 8 l))
    as [Hz Hlanes].
  - apply Forall_take. exact Hl.
  - apply Forall_drop. exact Hl.
  - rewrite length_take. lia.
  - rewrite length_drop.
    replace (length l - length l mod 8) with (length l / 8 * 8) by lia.
    rewrite Nat.div_mul by lia. lia.
  - rewrite (zeros_replicate _ Hz), Hlanes. simpl.
    change ((0 + 0 + (0 + 0) + (0 + 0 + (0 + 0))))%float with 0%float.
    apply fold_add_zeros. apply Forall_drop. exact Hl.
Qed.

Lemma pairwise_sum_zeros (fuel : nat) (l : list float) :
  Forall (fun v => v = 0%float) l -> pairwise_sum fuel l = 0%float.
Proof.
  revert l; induction fuel as [|fuel IH]; intros l Hl; simpl.
  - destruct (decide (length l < 8)); [apply fold_add_zeros; exact Hl|].
    destruct (decide (length l <= 128)); apply block_sum_zeros; (lia || exact Hl).
  - destruct (decide (length l < 8)); [apply fold_add_zeros; exact Hl|].
    destruct (decide (length l <= 128)); [apply block_sum_zeros; (lia || exact Hl)|].
    rewrite IH by (apply Forall_take; exact Hl).
    rewrite IH by (apply Forall_drop; exact Hl). reflexivity.
Qed.

Lemma np_sum_zeros (l : list float) :
  Forall (fun v => v = 0%float) l -> np_sum l = 0%float.
Proof.
  intros Hl. unfold np_sum. rewrite (pairwise_sum_zeros _ l Hl). reflexivity.
Qed.

Lemma replace_nan_matrix (r c : nat) (v : float) (m : array2d) :
  is_matrix r c m -> is_matrix r c (replace_nan v m).
Proof.
  intros [Hlen Hrows]. unfold replace_nan. split.
  - rewrite length_map; exact Hlen.
  - apply Forall_fmap. eapply Forall_impl; [exact Hrows|].
    intros row Hrow; simpl. rewrite length_map; exact Hrow.
Qed.

Section ScnPasses.
Variable n : nat.
Variables idx1 idx2 : list nat.
Hypothesis idx_range : forall k, k ∈ idx1 ++ idx2 -> k < n.
Hypothesis idx_disjoint : forall k, k ∈ idx1 -> k ∉ idx2.
Hypothesis idx_cover : forall k, k < n -> k ∈ idx1 \/ k ∈ idx2.

(** After the pass over the columns the rows of the inactive bins are
    zero. *)
Lemma scn_columns_total (A : array2d) :
  is_matrix n n A ->
  exists A', scn_columns idx1 idx2 n A = Ok A' /\ is_matrix n n A' /\
    forall i c, i ∈ idx2 -> c < n -> entry A' i c = Some 0%float.
Proof.
  intros HA. unfold scn_columns.
  destruct (for_each_range_total
    (fun k A => is_matrix n n A /\
       forall i c, i ∈ idx2 -> c < k -> entry A i c = Some 0%float)
    n (fun A i =>
         col ← gather_col A idx1 i;
         A ← scatter_col A idx1 i (map (fun v => (v / np_sum col)%float) col);
         fill_col A idx2 i 0%float) A) as (A' & Hrun & HA' & Hzero).
  - split; [exact HA|]. intros i c _ Hc; lia.
  - intros k B Hk [HB Hzero]. rewrite scn_columns_step.
    destruct (scn_line_total n (fun r => (r, k)) idx1 idx2 B HB)
      as (vals & B' & _ & Hrun & HB' & Hkeep & Hfill & _).
    { intros r Hr; simpl. split; [apply idx_range; exact Hr | exact Hk]. }
    { exact idx_disjoint. }
    exists B'. split; [exact Hrun|]. split; [exact HB'|].
    intros i c Hi Hc. destruct (decide (c = k)) as [->|Hne].
    + apply (Hfill i Hi). intros k' [= ->]. reflexivity.
    + rewrite Hkeep; [apply Hzero; [exact Hi | lia]|].
      intros r _ [= _ Heq]. congruence.
  - exists A'. auto.
Qed.

(** After the pass over the rows the columns of the inactive bins are
    zero, and so are their rows once the undefined quotients are
    replaced, if those rows were zero before the pass. *)
Lemma scn_rows_total (A : array2d) :
  is_matrix n n A ->
  exists A', scn_rows idx1 idx2 n A = Ok A' /\ is_matrix n n A' /\
    forall i, i ∈ idx2 ->
      (forall r, r < n -> entry A' r i = Some 0%float) /\
      ((forall c, c < n -> entry A i c = Some 0%float) ->
       forall c, c < n -> entry A' i c = Some 0%float \/ entry A' i c = Some nan).
Proof.
  intros HA. unfold scn_rows.
  destruct (for_each_range_total
    (fun k B => is_matrix n n B /\
       forall i, i ∈ idx2 ->
         (forall r, r < k -> entry B r i = Some 0%float) /\
         ((forall c, c < n -> entry A i c = Some 0%float) ->
          forall c, c < n ->
            if decide (i < k)
            then entry B i c = Some 0%float \/ entry B i c = Some nan
            else entry B i c = Some 0%float))
    n (fun A i =>
         row ← gather_row A i idx1;
         A ← scatter_row A i idx1 (map (fun v => (v / np_sum row)%float) row);
         fill_row A i idx2 0%float) A) as (A' & Hrun & HA' & Hzero).
  - split; [exact HA|]. intros i Hi. split; [intros r Hr; lia|].
    intros Hrow c Hc. destruct (decide _); [lia | apply Hrow; exact Hc].
  - intros k B Hk [HB Hinv]. rewrite scn_rows_step.
    destruct (scn_line_total n (fun c => (k, c)) idx1 idx2 B HB)
      as (vals & B' & Hvals & Hrun & HB' & Hkeep & Hfill & Hdiv).
    { intros c Hc; simpl. split; [exact Hk | apply idx_range; exact Hc]. }
    { exact idx_disjoint. }
    exists B'. split; [exact Hrun|]. split; [exact HB'|].
    intros i Hi. destruct (Hinv i Hi) as [Hcol Hrow]. split.
    + intros r Hr. destruct (decide (r = k)) as [->|Hne].
      * apply (Hfill i Hi). intros k' [= ->]. reflexivity.
      * rewrite Hkeep; [apply Hcol; lia|]. intros c _ [= Heq _]. congruence.
    + intros HrowA c Hc. specialize (Hrow HrowA).
      destruct (decide (i = k)) as [->|Hne].
      * destruct (decide (k < S k)) as [_|]; [|lia].
        assert (Hrowk : forall c', c' < n -> entry B k c' = Some 0%float).
        { intros c' Hc'. specialize (Hrow c' Hc').
          destruct (decide (k < k)); [lia | exact Hrow]. }
        destruct (idx_cover c Hc) as [Hc1|Hc2].
        -- right. destruct (Hdiv c Hc1) as (v & Hv & Hentry).
           { intros k' [= ->]. reflexivity. }
           simpl in Hentry. rewrite Hentry. f_equal.
           assert (Hall : Forall (fun v => v = 0%float) vals).
           { apply Forall_forall. intros v' Hv'.
             apply list_elem_of_lookup in Hv' as [m Hm].
             destruct (Forall2_lookup_r _ _ _ _ _ Hvals Hm) as (c' & Hc' & Hentry').
             simpl in Hentry'. rewrite Hrowk in Hentry'.
             - congruence.
             - apply idx_range, elem_of_app. left.
               apply list_elem_of_lookup. eauto. }
           rewrite (np_sum_zeros vals Hall).
           rewrite Forall_forall in Hall. rewrite (Hall v Hv). reflexivity.
        -- left. apply (Hfill c Hc2). intros k' [= ->]. reflexivity.
      * rewrite Hkeep by (intros c' _ [= Heq _]; congruence).
        specialize (Hrow c Hc).
        destruct (decide (i < k)), (decide (i < S k)); try lia; auto.
  - exists A'. split; [exact Hrun|]. split; [exact HA'|].
    intros i Hi. destruct (Hzero i Hi) as [Hcol Hrow]. split; [exact Hcol|].
    intros HrowA c Hc. specialize (Hrow HrowA c Hc).
    destruct (decide (i < n)) as [_|Hn]; [exact Hrow |].
    exfalso. apply Hn, idx_range, elem_of_app. auto.
Qed.

Lemma scn_iteration_total (A : array2d) :
  is_matrix n n A ->
  exists A', scn_iteration idx1 idx2 n A = Ok A' /\ is_matrix n n A' /\
    forall i, i ∈ idx2 -> zero_bin n A' i.
Proof.
  intros HA. unfold scn_iteration.
  destruct (scn_columns_total A HA) as (A1 & -> & HA1 & Hrows1). simpl.
  pose proof (replace_nan_matrix n n 0%float A1 HA1) as HA2.
  destruct (scn_rows_total (replace_nan 0%float A1) HA2) as (A3 & -> & HA3 & Hzero). simpl.
  eexists; split; [reflexivity|]. split; [apply replace_nan_matrix; exact HA3|].
  intros i Hi k Hk. destruct (Hzero i Hi) as [Hcol Hrow].
  unfold replace_nan. rewrite !entry_map. split.
  - destruct (Hrow) with (c := k) as [-> | ->]; [|exact Hk|reflexivity|reflexivity].
    intros c Hc. unfold replace_nan. rewrite entry_map, (Hrows1 i c Hi Hc). reflexivity.
  - rewrite (Hcol k Hk). reflexivity.
Qed.
End ScnPasses.

Lemma scn_keep_lookup (A : array2d) (threshold : float) (i : nat) (k : float) :
  scn_keep A threshold !! i = Some k ->
  exists row, A !! i = Some row /\
    k = if (threshold <? np_sum row)%float then 1%float else 0%float.
Proof.
  unfold scn_keep. change (map ?f ?l) with (f <$> l). rewrite list_lookup_fmap.
  destruct (A !! i) as [row|]; simpl; [|discriminate].
  intros [= <-]. eauto.
Qed.

(** [scn_func] returns on every square matrix, and every bin whose row was
    inactive has a zero row and a zero column in the result. *)
Lemma scn_func_run (A : array2d) (threshold : float) (n : nat) :
  is_matrix n n A ->
  exists B, scn_func A threshold = Ok B /\ is_matrix n n B /\
    forall i, inactive_row A threshold i -> zero_bin n B i.
Proof.
  intros HA. pose proof HA as [Hlen _]. unfold scn_func. cbv zeta. rewrite Hlen.
  set (keep := scn_keep A threshold).
  set (idx1 := indices_where (fun k => (0 <? k)%float) keep).
  set (idx2 := indices_where (fun k => (k <=? 0)%float) keep).
  assert (Hkeeplen : length keep = n)
    by (unfold keep, scn_keep; rewrite length_map; exact Hlen).
  assert (Hrange : forall k, k ∈ idx1 ++ idx2 -> k < n).
  { intros k Hk. rewrite <- Hkeeplen.
    apply elem_of_app in Hk as [Hk|Hk]; apply indices_where_elem in Hk as (v & Hv & _);
      eapply lookup_lt_Some; exact Hv. }
  assert (Hdisjoint : forall k, k ∈ idx1 -> k ∉ idx2).
  { intros k Hk1 Hk2.
    apply indices_where_elem in Hk1 as (v & Hv & Hpos).
    apply indices_where_elem in Hk2 as (v' & Hv' & Hneg).
    assert (v' = v) by congruence. subst v'.
    apply leb_not_ltb in Hneg. congruence. }
  assert (Hcover : forall k, k < n -> k ∈ idx1 \/ k ∈ idx2).
  { intros k Hk.
    destruct (lookup_lt_is_Some_2 keep k) as [v Hv]; [lia|].
    destruct (scn_keep_lookup A threshold k v Hv) as (row & _ & Hval).
    destruct (threshold <? np_sum row)%float; subst v.
    - left. apply indices_where_elem. exists 1%float. split; [exact Hv | reflexivity].
    - right. apply indices_where_elem. exists 0%float. split; [exact Hv | reflexivity]. }
  assert (Hinactive : forall i, inactive_row A threshold i -> i ∈ idx2).
  { intros i (row & Hrow & Hsum).
    apply indices_where_elem. exists 0%float. split; [|reflexivity].
    unfold keep, scn_keep. change (map ?f ?l) with (f <$> l).
    rewrite list_lookup_fmap, Hrow. simpl. rewrite Hsum. reflexivity. }
  destruct (for_each_range_total
    (fun k B => is_matrix n n B /\ (1 <= k -> forall i, i ∈ idx2 -> zero_bin n B i))
    10 (fun A _ => scn_iteration idx1 idx2 n A) A) as (B & Hrun & HB & Hzero).
  - split; [exact HA|]. intros Hk; lia.
  - intros k B Hk [HB _].
    destruct (scn_iteration_total n idx1 idx2 Hrange Hdisjoint Hcover B HB)
      as (B' & Hrun & HB' & Hzero').
    exists B'. split; [exact Hrun|]. split; [exact HB'|]. intros _. exact Hzero'.
  - exists B. split; [exact Hrun|]. split; [exact HB|].
    intros i Hi. apply Hzero; [lia|]. apply Hinactive. exact Hi.
Qed.









(** Rows that stay active still move on a second run: with the
    threshold 0 both rows of [[1, 1], [0, 1]] are active in both runs, and
    the entry [(0, 1)] goes from about 0.048 to about 0.024. *)
Example scn_func_active_rows_still_move :
  (B ← scn_func [[1; 1]; [0; 1]]%float 0%float;
   B' ← scn_func B 0%float;
   match entry B 0 1, entry B' 0 1 with
   | Some v, Some v' => Ok ((0.02 <? abs (v' - v))%float)
   | _, _ => Raise IndexError
   end) = Ok true.
Proof. vm_compute. reflexivity. Qed.

(** A run that has converged: the two active bins end with the entries
    0.5, the third bin is inactive and zeroed, the second run finds the
    same rows active, and one more iteration changes nothing. *)
Example scn_func_converged_run :
  scn_func [[4; 4; 0]; [4; 4; 0]; [0; 0; 0.25]]%float 0.5%float =
    Ok [[0.5; 0.5; 0]; [0.5; 0.5; 0]; [0; 0; 0]]%float /\
  scn_keep [[0.5; 0.5; 0]; [0.5; 0.5; 0]; [0; 0; 0]]%float 0.5%float =
    scn_keep [[4; 4; 0]; [4; 4; 0]; [0; 0; 0.25]]%float 0.5%float /\
  scn_converged [[4; 4; 0]; [4; 4; 0]; [0; 0; 0.25]]%float
    [[0.5; 0.5; 0]; [0.5; 0.5; 0]; [0; 0; 0]]%float 0.5%float.
Proof. split; [|split]; vm_compute; reflexivity. Qed.

(** ** [detrend] *)

(** A loop whose turns each establish a fact and undo none. *)
Lemma for_each_marks {A S : Type} (P : S -> Prop) (Q : A -> S -> Prop) (xs : list A)
    (body : S -> A -> pyresult S) (s : S) :
  P s ->
  (forall s x, x ∈ xs -> P s ->
     exists s', body s x = Ok s' /\ P s' /\ Q x s' /\ forall y, Q y s -> Q y s') ->
  exists s', for_each xs body s = Ok s' /\ P s' /\
    (forall x, x ∈ xs -> Q x s') /\ (forall y, Q y s -> Q y s').
Proof.
  revert s; induction xs as [|x xs IH]; intros s Hs Hbody; simpl.
  - exists s. split; [reflexivity|]. split; [exact Hs|].
    split; [intros x Hx; inversion Hx | auto].
  - destruct (Hbody s x) as (s1 & -> & Hs1 & Hx & Hkeep); [left | exact Hs |].
    simpl. destruct (IH s1 Hs1) as (s' & Hrun & Hs' & Hall & Hkeep').
    { intros s2 y Hy; apply Hbody; right; exact Hy. }
    exists s'. split; [exact Hrun|]. split; [exact Hs'|]. split.
    + intros y Hy. apply elem_of_cons in Hy as [->|Hy]; [apply Hkeep'; exact Hx | auto].
    + intros y Hy. apply Hkeep', Hkeep, Hy.
Qed.

Lemma is_matrix_map {A B : Type} (g : A -> B) (r c : nat) (m : list (list A)) :
  is_matrix r c m -> is_matrix r c (map (map g) m).
Proof.
  intros [Hlen Hrows]. split.
  - rewrite length_map; exact Hlen.
  - apply Forall_fmap. eapply Forall_impl; [exact Hrows|].
    intros row Hrow; simpl. rewrite length_map; exact Hrow.
Qed.

Lemma is_matrix_zip_with {A B C : Type} (op : A -> B -> C) (r c : nat)
    (m1 : list (list A)) (m2 : list (list B)) :
  is_matrix r c m1 -> is_matrix r c m2 -> is_matrix r c (zip_with (zip_with op) m1 m2).
Proof.
  intros [Hl1 Hr1] [Hl2 Hr2]. split.
  - rewrite length_zip_with; lia.
  - apply Forall_lookup; intros i row. rewrite lookup_zip_with.
    destruct (m1 !! i) as [row1|] eqn:H1; csimpl; [|discriminate].
    destruct (m2 !! i) as [row2|] eqn:H2; csimpl; [|discriminate].
    intros [= <-]. rewrite length_zip_with.
    rewrite Forall_lookup in Hr1. rewrite Forall_lookup in Hr2.
    rewrite (Hr1 i row1 H1), (Hr2 i row2 H2); lia.
Qed.

Lemma column_sums_length (c : nat) (m : list (list float)) (acc : list float) :
  Forall (fun row => length row = c) m -> length acc = c ->
  length (fold_left (zip_with PrimFloat.add) m acc) = c.
Proof.
  revert acc; induction m as [|row m IH]; intros acc Hrows Hacc; simpl; [exact Hacc|].
  inversion Hrows as [|? ? Hrow Hrows']; subst.
  apply IH; [exact Hrows'|]. rewrite length_zip_with. lia.
Qed.

Lemma np_sum_axis0_length (n : nat) (m : array2d) :
  is_matrix n n m -> 1 <= n -> length (np_sum_axis0 m) = n.
Proof.
  intros [Hlen Hrows] Hn. unfold np_sum_axis0.
  assert (Hcols : ncols m = n).
  { destruct m as [|row m]; [simpl in Hlen; lia|]. simpl.
    inversion Hrows; subst; assumption. }
  rewrite Hcols. apply column_sums_length; [exact Hrows | apply length_replicate].
Qed.

(** The matrix of the distance law is filled without an index error. *)
Lemma distance_law_matrix_total (n : nat) (y_savgol : list float) :
  length y_savgol = n ->
  exists D,
    for_each (seq 0 n) (fun D i =>
      for_each (seq 0 n) (fun D j =>
        v ← get1 y_savgol (Z.abs_nat (Z.of_nat j - Z.of_nat i));
        set2 D i j v) D) (np_zeros n n) = Ok D /\
    is_matrix n n D.
Proof.
  intros Hy.
  apply (for_each_total (is_matrix n n)); [apply has_entries_zeros|].
  intros D i Hi HD. apply elem_of_seq in Hi.
  apply (for_each_total (is_matrix n n)); [exact HD|].
  intros D' j Hj HD'. apply elem_of_seq in Hj.
  unfold get1.
  destruct (lookup_lt_is_Some_2 y_savgol (Z.abs_nat (Z.of_nat j - Z.of_nat i)))
    as [v ->]; [lia|].
  simpl. destruct (set2_total n n D' i j v HD') as (D'' & -> & HD'' & _); [lia | lia |].
  eauto.
Qed.

Lemma np_divide_total (n : nat) (a b : array2d) :
  is_matrix n n a -> is_matrix n n b ->
  exists q, np_divide a b = Ok q /\ is_matrix n n q.
Proof.
  intros Ha Hb. unfold np_divide.
  rewrite (is_matrix_map_length n n a b Ha Hb).
  destruct (decide _) as [_|Hne]; [|contradiction].
  eexists; split; [reflexivity|]. apply is_matrix_zip_with; assumption.
Qed.

Lemma zip_replicate_elem {A B : Type} (l : list A) (k : nat) (v : B) (x : A * B) :
  x ∈ zip l (replicate k v) -> x.1 ∈ l /\ x.2 = v.
Proof.
  intros Hx. apply list_elem_of_lookup in Hx as [i Hi].
  rewrite lookup_zip_with in Hi.
  destruct (l !! i) as [a|] eqn:Ha; csimpl in Hi; [|discriminate].
  destruct (replicate k v !! i) as [b|] eqn:Hb; csimpl in Hi; [|discriminate].
  injection Hi as <-. simpl. apply lookup_replicate in Hb as [-> _].
  split; [apply list_elem_of_lookup; eauto | reflexivity].
Qed.

Lemma zip_replicate_all {A B : Type} (l : list A) (v : B) (a : A) :
  a ∈ l -> (a, v) ∈ zip l (replicate (length l) v).
Proof.
  intros Ha. apply list_elem_of_lookup in Ha as [i Hi].
  apply list_elem_of_lookup. exists i. rewrite lookup_zip_with, Hi. csimpl.
  rewrite lookup_replicate_2 by (eapply lookup_lt_Some; exact Hi). reflexivity.
Qed.

(** [detrended[poor, :] = ones]: the rows of the poor bins become ones. *)
Lemma assign_rows_ones (n : nat) (m : array2d) (rows : list nat) :
  is_matrix n n m -> (forall b, b ∈ rows -> b < n) ->
  exists m', assign_rows m rows (np_ones (length rows) n) = Ok m' /\
    is_matrix n n m' /\
    forall b, b ∈ rows -> m' !! b = Some (replicate n 1%float).
Proof.
  intros Hm Hrows. unfold assign_rows, np_ones.
  destruct (for_each_marks (is_matrix n n)
    (fun (x : nat * list float) (m : list (list float)) =>
       m !! x.1 = Some (replicate n 1%float))
    (zip rows (replicate (length rows) (replicate n 1%float)))
    (fun m '(i, row) => set_row m i row) m Hm) as (m' & Hrun & Hm' & Hall & _).
  - intros m1 [b row] Hx Hm1. apply zip_replicate_elem in Hx as [Hb Hrow].
    simpl in Hb, Hrow. subst row.
    unfold set_row.
    destruct (lookup_lt_is_Some_2 m1 b) as [old Hold]; [destruct Hm1; specialize (Hrows b Hb); lia|].
    rewrite Hold. rewrite (is_matrix_row n n m1 b old Hm1 Hold), length_replicate.
    destruct (decide (n = n)) as [_|Hne]; [|contradiction].
    eexists; split; [reflexivity|].
    pose proof (lookup_lt_Some _ _ _ Hold) as Hlt.
    split; [|split].
    + destruct Hm1 as [Hlen Hall]. split; [rewrite length_insert; exact Hlen|].
      apply Forall_insert; [exact Hall | apply length_replicate].
    + simpl. apply list_lookup_insert_eq. exact Hlt.
    + intros [b' row'] Hy. simpl in *. destruct (decide (b' = b)) as [->|Hne].
      * apply list_lookup_insert_eq. exact Hlt.
      * rewrite list_lookup_insert_ne by congruence. exact Hy.
  - exists m'. split; [exact Hrun|]. split; [exact Hm'|].
    intros b Hb. apply (Hall (b, replicate n 1%float)).
    apply zip_replicate_all. exact Hb.
Qed.

Lemma py_mapM_replicate {A B : Type} (f : A -> pyresult B) (n : nat) (x : A) (y : B) :
  f x = Ok y -> py_mapM f (replicate n x) = Ok (replicate n y).
Proof.
  intros Hf. induction n as [|n IH]; simpl; [reflexivity|].
  rewrite Hf; simpl. rewrite IH; reflexivity.
Qed.

(** [m[:, j] = ones]: column [j] becomes ones, the rest stays. *)
Lemma set_col_ones (n : nat) (m : array2d) (j : nat) :
  is_matrix n n m -> j < n ->
  exists m', set_col m j (replicate n 1%float) = Ok m' /\ is_matrix n n m' /\
    (forall a, a < n -> entry m' a j = Some 1%float) /\
    (forall a b, entry m' a b = Some 1%float \/ entry m' a b = entry m a b).
Proof.
  intros Hm Hj. pose proof Hm as [Hlen _]. unfold set_col.
  rewrite Hlen, length_replicate.
  destruct (decide (n = n)) as [_|Hne]; [|contradiction].
  rewrite (for_each_ext _ _
    (fun m (x : nat * float) => set2 m (x.1, j, x.2).1.1 (x.1, j, x.2).1.2 (x.1, j, x.2).2)).
  2: { intros m1 [i v] _. reflexivity. }
  rewrite <- (for_each_map (fun x : nat * float => (x.1, j, x.2))
                (zip (seq 0 n) (replicate n 1%float))
                (fun m w => set2 m w.1.1 w.1.2 w.2)).
  fold (line_writes (fun i => (i, j)) (seq 0 n) (replicate n 1%float)).
  fold (apply_writes (line_writes (fun i => (i, j)) (seq 0 n) (replicate n 1%float)) m).
  destruct (apply_writes_total n n
    (line_writes (fun i => (i, j)) (seq 0 n) (replicate n 1%float)) m Hm)
    as (m' & Hrun & Hm' & Hentries).
  { intros [[a b] v] Hw. apply line_writes_elem in Hw as (k & [= <- <-] & Hk & _).
    apply elem_of_seq in Hk. simpl. lia. }
  assert (Hone : forall a b v,
    (a, b, v) ∈ line_writes (fun i => (i, j)) (seq 0 n) (replicate n 1%float) ->
    v = 1%float).
  { intros a b v Hw. apply line_writes_elem in Hw as (_ & _ & _ & Hv).
    apply elem_of_replicate in Hv as [-> _]. reflexivity. }
  exists m'. split; [exact Hrun|]. split; [exact Hm'|]. split.
  - intros a Ha. destruct (proj2 (Hentries a j)) as (v & Hw & ->).
    + apply (line_writes_positions (fun i => (i, j)) (seq 0 n) (replicate n 1%float) a).
      * rewrite length_replicate, length_seq. reflexivity.
      * apply elem_of_seq. lia.
    + rewrite (Hone a j v Hw). reflexivity.
  - intros a b.
    destruct (decide ((a, b) ∈
      (line_writes (fun i => (i, j)) (seq 0 n) (replicate n 1%float)).*1)) as [Hin|Hout].
    + left. destruct (proj2 (Hentries a b) Hin) as (v & Hw & ->).
      rewrite (Hone a b v Hw). reflexivity.
    + right. apply (proj1 (Hentries a b) Hout).
Qed.

(** [detrended[:, poor] = ones]: the columns of the poor bins become
    ones, and the entries that were one stay so. *)
Lemma assign_cols_ones (n : nat) (m : array2d) (cols : list nat) :
  is_matrix n n m -> (forall b, b ∈ cols -> b < n) ->
  exists m', assign_cols m cols (np_ones n (length cols)) = Ok m' /\
    is_matrix n n m' /\
    (forall b a, b ∈ cols -> a < n -> entry m' a b = Some 1%float) /\
    (forall a b, entry m a b = Some 1%float -> entry m' a b = Some 1%float).
Proof.
  intros Hm Hcols. unfold assign_cols, np_ones.
  destruct (for_each_marks
    (fun m1 : list (list float) =>
       is_matrix n n m1 /\
       forall a b, entry m a b = Some 1%float -> entry m1 a b = Some 1%float)
    (fun (x : nat * nat) (m1 : list (list float)) =>
       forall a, a < n -> entry m1 a x.2 = Some 1%float)
    (imap (fun k j => (k, j)) cols)
    (fun m '(k, j) =>
       col ← py_mapM (fun row : list float => get1 row k)
               (replicate n (replicate (length cols) 1%float));
       set_col m j col) m) as (m' & Hrun & [Hm' Hones] & Hall & _).
  - split; [exact Hm | auto].
  - intros m1 [k j] Hx [Hm1 Hones1].
    apply elem_of_lookup_imap in Hx as (k' & j' & [= -> ->] & Hk).
    rewrite (py_mapM_replicate _ n (replicate (length cols) 1%float) 1%float).
    2: { unfold get1. rewrite lookup_replicate_2; [reflexivity|].
         eapply lookup_lt_Some; exact Hk. }
    simpl.
    destruct (set_col_ones n m1 j' Hm1) as (m2 & -> & Hm2 & Hcol & Hrest).
    { apply Hcols. apply list_elem_of_lookup. eauto. }
    exists m2. split; [reflexivity|]. split; [split; [exact Hm2|]|split].
    + intros a b Hab. destruct (Hrest a b) as [H1|H1]; [exact H1|].
      rewrite H1. apply Hones1. exact Hab.
    + exact Hcol.
    + intros [k0 j0] Hy a Ha. simpl in *.
      destruct (Hrest a j0) as [H1|H1]; [exact H1|]. rewrite H1. apply Hy. exact Ha.
  - exists m'. split; [exact Hrun|]. split; [exact Hm'|]. split; [|exact Hones].
    intros b a Hb Ha. apply list_elem_of_lookup in Hb as [k Hk].
    apply (Hall (k, b)); [|exact Ha].
    apply elem_of_lookup_imap. exists k, b. auto.
Qed.

(** C1 fails on the small matrices: the smoothing of the distance law
    takes a window of 17 points, and [savgol_filter] refuses a window
    longer than its input, so that [detrend] raises instead of returning
    a pair. *)
Lemma detrend_small_matrix_counterexample :
  is_matrix 1 1 [[1]]%float /\
  detrend (fun _ _ y => y) [[1]]%float =
    Raise (ValueError
      "If mode is 'interp', window_length must be less than or equal to the size of x.") /\
  ~ exists savgol_fit out, detrend savgol_fit [[1]]%float = Ok out.
Proof.
  split; [split; [reflexivity | repeat constructor]|].
  split; [vm_compute; reflexivity|].
  intros (savgol_fit & out & Hout).
  unfold detrend in Hout. cbv zeta in Hout.
  apply bind_Ok in Hout as (matscn & Hscn & Hout).
  apply bind_Ok in Hout as ([[[dist matscn'] n_speckles] outlier] & Hdes & Hout).
  apply bind_Ok in Hout as (y_savgol & Hsav & _).
  unfold savgol_filter in Hsav.
  destruct (decide (17 <= 5)) as [Hle|_]; [lia|].
  rewrite length_map in Hsav. unfold distance_law in Hsav.
  rewrite insert_loop_length, length_replicate in Hsav.
  destruct (scn_func_run [[1]]%float
              (np_median (np_sum_axis0 [[1]]%float)
               - 2 * np_std (np_sum_axis0 [[1]]%float))%float 1)
    as (B & HB & HBm & _); [split; [reflexivity | repeat constructor]|].
  assert (matscn = B) by congruence. subst matscn.
  destruct (despeckles_run B 10%float 1 HBm)
    as (dist0 & A' & n0 & out0 & Hrun & _ & _ & (HA' & _)).
  assert (Hlen : length matscn' = 1).
  { rewrite Hrun in Hdes. injection Hdes as _ <- _ _. simpl in HA'. apply HA'. }
  rewrite Hlen in Hsav.
  destruct (decide (1 < 17)) as [_|Hn]; [discriminate | lia].
Qed.

(** C1, as the code has it: on a square matrix with at least 17 bins (the
    window of the smoothing), and with a fit that returns as many points
    as it is given, [detrend] returns the detrended matrix and the
    threshold median(column sums) - 2 * std(column sums) of the input;
    for every bin whose column sum in the input is at or below that
    threshold, row and column of the detrended matrix hold 1.0
    throughout. *)
Theorem detrend_neutralizes_poor_bins (savgol_fit : nat -> nat -> list float -> list float)
    (matrix : array2d) (n : nat) :
  (forall w p y, length (savgol_fit w p y) = length y) ->
  is_matrix n n matrix ->
  17 <= n ->
  exists detrended,
    detrend savgol_fit matrix =
      Ok (detrended,
          (np_median (np_sum_axis0 matrix) - 2 * np_std (np_sum_axis0 matrix))%float) /\
    is_matrix n n detrended /\
    forall b s,
      np_sum_axis0 matrix !! b = Some s ->
      (s <=? np_median (np_sum_axis0 matrix) - 2 * np_std (np_sum_axis0 matrix))%float = true ->
      forall k, k < n ->
        entry detrended b k = Some 1%float /\ entry detrended k b = Some 1%float.
Proof.
  intros Hfit Hm Hn. pose proof Hm as [Hlen _].
  unfold detrend. cbv zeta.
  set (threshold := (np_median (np_sum_axis0 matrix)
                     - 2 * np_std (np_sum_axis0 matrix))%float).
  set (poor := indices_where (fun s => (s <=? threshold)%float) (np_sum_axis0 matrix)).
  assert (Hpoor : forall b, b ∈ poor -> b < n).
  { intros b Hb. apply indices_where_elem in Hb as (s & Hs & _).
    rewrite <- (np_sum_axis0_length n matrix Hm) by lia.
    eapply lookup_lt_Some; exact Hs. }
  destruct (scn_func_run matrix threshold n Hm) as (matscn & -> & Hscn & _). simpl.
  destruct (despeckles_run matscn 10%float n Hscn)
    as (dist & matscn' & n_speckles & outlier & -> & _ & _ & (Hdes & _)).
  simpl in Hdes. simpl.
  unfold savgol_filter.
  destruct (decide (17 <= 5)) as [Hle|_]; [lia|].
  assert (Hy : length (map (fun v => if PrimFloat.is_nan v then 0%float else v)
                         (distance_law matscn')) = n).
  { rewrite length_map. unfold distance_law.
    rewrite insert_loop_length, length_replicate. apply Hdes. }
  rewrite Hy. destruct (decide (n < 17)) as [Hsmall|_]; [lia|]. simpl.
  rewrite Hlen.
  destruct (distance_law_matrix_total n
              (savgol_fit 17 5
                 (map (fun v => if PrimFloat.is_nan v then 0%float else v)
                    (distance_law matscn'))))
    as (D & -> & HD); [rewrite Hfit; exact Hy|].
  simpl.
  destruct (np_divide_total n matscn' D Hdes HD) as (q & -> & Hq). simpl.
  pose proof (is_matrix_map (fun v => if (v <? 0)%float then 1%float else v) n n _
                (replace_nan_matrix n n 1%float q Hq)) as Hclamped.
  destruct (assign_rows_ones n _ poor Hclamped Hpoor) as (m1 & -> & Hm1 & Hrows). simpl.
  destruct (assign_cols_ones n m1 poor Hm1 Hpoor) as (m2 & -> & Hm2 & Hcols & Hkeep). simpl.
  exists m2. split; [reflexivity|]. split; [exact Hm2|].
  intros b s Hs Hle k Hk.
  assert (Hb : b ∈ poor) by (apply indices_where_elem; eauto).
  split.
  - apply Hkeep. unfold entry. rewrite (Hrows b Hb). simpl.
    apply lookup_replicate_2. exact Hk.
  - apply Hcols; assumption.
Qed.

Lemma detrend_neutralizes_poor_bins_witness :
  exists detrended,
    detrend (fun _ _ y => y) example_contacts =
      Ok (detrended,
          (np_median (np_sum_axis0 example_contacts)
           - 2 * np_std (np_sum_axis0 example_contacts))%float) /\
    is_matrix 17 17 detrended /\
    forall b s,
      np_sum_axis0 example_contacts !! b = Some s ->
      (s <=? np_median (np_sum_axis0 example_contacts)
             - 2 * np_std (np_sum_axis0 example_contacts))%float = true ->
      forall k, k < 17 ->
        entry detrended b k = Some 1%float /\ entry detrended k b = Some 1%float.
Proof.
  apply (detrend_neutralizes_poor_bins (fun _ _ y => y) example_contacts 17).
  - reflexivity.
  - split; [reflexivity|]. repeat constructor.
  - lia.
Defined.

Example example_contacts_poor_bin :
  indices_where
    (fun s => (s <=? np_median (np_sum_axis0 example_contacts)
                     - 2 * np_std (np_sum_axis0 example_contacts))%float)
    (np_sum_axis0 example_contacts) = [3].
Proof. vm_compute. reflexivity. Qed.

(** The threshold of that contact map, to the last bit. *)
Example example_contacts_threshold :
  (np_median (np_sum_axis0 example_contacts)
   - 2 * np_std (np_sum_axis0 example_contacts))%float = 0x1.8e6a04d1b51acp+7%float.
Proof. vm_compute. reflexivity. Qed.

(** ** The maximum of a feature *)

Lemma argmax_from_spec (l : list float) (mp : float) (max_ind i : nat) :
  PrimFloat.is_nan mp = false ->
  Forall (fun v => PrimFloat.is_nan v = false) l ->
  max_ind < i ->
  (argmax_from mp max_ind i l = max_ind /\ forall v, v ∈ l -> (v <=? mp)%float = true) \/
  (i <= argmax_from mp max_ind i l /\
   exists vb, l !! (argmax_from mp max_ind i l - i) = Some vb /\
     (mp <=? vb)%float = true /\ forall v, v ∈ l -> (v <=? vb)%float = true).
Proof.
  revert mp max_ind i; induction l as [|x l IH]; intros mp max_ind i Hmp Hl Hi; simpl.
  - left. split; [reflexivity|]. intros v Hv; inversion Hv.
  - inversion Hl as [|? ? Hx Hl']; subst. rewrite Hmp.
    destruct (x <=? mp)%float eqn:Hle; simpl.
    + destruct (IH mp max_ind (S i) Hmp Hl' ltac:(lia))
        as [[Hk Hall]|(Hk & vb & Hvb & Hmpvb & Hall)].
      * left. split; [exact Hk|]. intros v Hv.
        apply elem_of_cons in Hv as [->|Hv]; auto.
      * right. split; [lia|]. exists vb. split; [|split; [exact Hmpvb|]].
        -- replace (argmax_from mp max_ind (S i) l - i)
             with (S (argmax_from mp max_ind (S i) l - S i)) by lia.
           exact Hvb.
        -- intros v Hv. apply elem_of_cons in Hv as [->|Hv]; [|auto].
           eapply leb_trans; eassumption.
    + pose proof (leb_total x mp Hx Hmp Hle) as Hmpx.
      destruct (IH x i (S i) Hx Hl' ltac:(lia))
        as [[Hk Hall]|(Hk & vb & Hvb & Hxvb & Hall)].
      * right. rewrite Hk. split; [lia|]. exists x. rewrite Nat.sub_diag.
        split; [reflexivity|]. split; [exact Hmpx|].
        intros v Hv. apply elem_of_cons in Hv as [->|Hv]; [apply leb_refl; exact Hx | auto].
      * right. split; [lia|]. exists vb. split; [|split].
        -- replace (argmax_from x i (S i) l - i)
             with (S (argmax_from x i (S i) l - S i)) by lia.
           exact Hvb.
        -- eapply leb_trans; eassumption.
        -- intros v Hv. apply elem_of_cons in Hv as [->|Hv]; auto.
Qed.

Lemma np_argmax_max (vals : list float) :
  vals <> [] ->
  Forall (fun v => PrimFloat.is_nan v = false) vals ->
  exists k vb, np_argmax vals = Ok k /\ vals !! k = Some vb /\
    forall v, v ∈ vals -> (v <=? vb)%float = true.
Proof.
  intros Hne Hvals. destruct vals as [|x l]; [contradiction|].
  inversion Hvals as [|? ? Hx Hl]; subst. simpl.
  destruct (argmax_from_spec l x 0 1 Hx Hl ltac:(lia))
    as [[Hk Hall]|(Hk & vb & Hvb & Hxvb & Hall)].
  - exists 0, x. rewrite Hk. split; [reflexivity|]. split; [reflexivity|].
    intros v Hv. apply elem_of_cons in Hv as [->|Hv]; [apply leb_refl; exact Hx | auto].
  - exists (argmax_from x 0 1 l), vb. split; [reflexivity|]. split.
    + replace (argmax_from x 0 1 l) with (S (argmax_from x 0 1 l - 1)) at 1 by lia.
      exact Hvb.
    + intros v Hv. apply elem_of_cons in Hv as [->|Hv]; auto.
Qed.

Lemma indices_from_true_length (i : nat) (row : list bool) :
  length (indices_from id i row) = length (filter (fun b => b = true) row).
Proof.
  revert i; induction row as [|b row IH]; intros i; [reflexivity|].
  destruct b.
  - rewrite filter_cons_True by reflexivity. simpl. rewrite IH. reflexivity.
  - rewrite filter_cons_False by discriminate. simpl. apply IH.
Qed.

Lemma bool_sum_np_where (m : list (list bool)) :
  bool_sum m = length (np_where id m).
Proof.
  unfold bool_sum, np_where. generalize 0.
  induction m as [|row m IH]; intros i; simpl; [reflexivity|].
  rewrite filter_app, !length_app, length_map. unfold indices_where.
  rewrite indices_from_true_length, (IH (S i)). reflexivity.
Qed.

Lemma same_elements_length {A : Type} (l l' : list A) :
  NoDup l -> NoDup l' -> (forall x, x ∈ l <-> x ∈ l') -> length l = length l'.
Proof.
  intros Hl Hl' Hsame. apply Permutation_length.
  apply NoDup_Permutation; assumption.
Qed.

(** ** The scene with two single pixels and a blob *)

Lemma same_shape_entry {A B : Type} (m1 : list (list A)) (m2 : list (list B)) (i j : nat) :
  map length m1 = map length m2 ->
  is_Some (entry m1 i j) -> is_Some (entry m2 i j).
Proof.
  intros Hshape [v Hv]. unfold entry in *.
  destruct (m1 !! i) as [row1|] eqn:H1; csimpl in Hv; [|discriminate].
  assert (Hlen : (map length m2) !! i = Some (length row1)).
  { rewrite <- Hshape. change (map ?f ?l) with (f <$> l).
    rewrite list_lookup_fmap, H1. reflexivity. }
  change (map ?f ?l) with (f <$> l) in Hlen. rewrite list_lookup_fmap in Hlen.
  destruct (m2 !! i) as [row2|]; csimpl in *; [|discriminate].
  injection Hlen as Hlen. apply lookup_lt_is_Some_2.
  rewrite Hlen. eapply lookup_lt_Some; exact Hv.
Qed.

Lemma adjacent4_irrefl (p : nat * nat) : ~ adjacent4 p p.
Proof. unfold adjacent4. lia. Qed.

Lemma adjacent4_sym (p q : nat * nat) : adjacent4 p q -> adjacent4 q p.
Proof. unfold adjacent4. lia. Qed.

Lemma picker_run (label : labeller) (probas : array2d) (thres : float) :
  ~ out_of_range probas ->
  0 < length (np_where (fun v => (thres <? v)%float) probas) ->
  picker label probas thres =
    ('(ijs, remove_p) ←
       for_each
         (seq 0 (label (candidate_mask (np_where (fun v => (thres <? v)%float) probas))).2)
         (picker_feature probas
            (candidate_mask (np_where (fun v => (thres <? v)%float) probas))
            (label (candidate_mask (np_where (fun v => (thres <? v)%float) probas))).1)
         (replicate
            (label (candidate_mask (np_where (fun v => (thres <? v)%float) probas))).2
            (0, 0),
          replicate
            (label (candidate_mask (np_where (fun v => (thres <? v)%float) probas))).2
            false);
     Ok (Coords (select_kept ijs remove_p))).
Proof.
  intros Hrange Hsome. rewrite (picker_guard_passes label probas thres Hrange). cbv zeta.
  destruct (decide _) as [_|Hn]; [|contradiction].
  destruct (label _) as [labelled_mat num_features]. reflexivity.
Qed.

Section BlobScene.
Variable label : list (list bool) -> list (list nat) * nat.
Variable probas : list (list float).
Variable thres : float.
Variables a b p1 p2 p3 : nat * nat.
Hypothesis probas_unit : in_unit_interval probas.
Hypothesis scene : blob_scene probas thres a b p1 p2 p3.
Hypothesis contract :
  label_contract (candidate_mask (np_where (fun v => (thres <? v)%float) probas))
    (label (candidate_mask (np_where (fun v => (thres <? v)%float) probas))).

Let raw := np_where (fun v => (thres <? v)%float) probas.
Let mask := candidate_mask raw.
Let L := (label mask).1.
Let N := (label mask).2.

Lemma scene_raw (p : nat * nat) : p ∈ raw <-> p ∈ [a; b; p1; p2; p3].
Proof.
  rewrite <- (scene_candidates _ _ _ _ _ _ _ scene). destruct p as [i j].
  unfold raw. rewrite np_where_elem. reflexivity.
Qed.

Lemma scene_foreground (p : nat * nat) : foreground mask p <-> p ∈ [a; b; p1; p2; p3].
Proof.
  rewrite <- scene_raw. unfold foreground, mask. destruct p as [i j].
  apply candidate_mask_spec.
Qed.

Lemma scene_value (p : nat * nat) :
  p ∈ [a; b; p1; p2; p3] ->
  exists v, entry probas p.1 p.2 = Some v /\ PrimFloat.is_nan v = false.
Proof.
  intros Hp. apply (scene_candidates _ _ _ _ _ _ _ scene) in Hp as (v & Hv & _).
  exists v. split; [exact Hv|].
  destruct (probas_unit _ _ _ Hv) as [H0 _]. apply leb_is_number in H0. tauto.
Qed.

Lemma scene_pairwise_distinct :
  a <> b /\ a <> p1 /\ a <> p2 /\ a <> p3 /\ b <> p1 /\ b <> p2 /\ b <> p3 /\
  p1 <> p2 /\ p1 <> p3 /\ p2 <> p3.
Proof.
  pose proof (scene_distinct _ _ _ _ _ _ _ scene) as Hnd.
  repeat match goal with
  | H : NoDup (_ :: _) |- _ => apply NoDup_cons in H as [? H]
  end.
  repeat match goal with
  | H : _ ∉ _ :: _ |- _ => apply not_elem_of_cons in H as [? H]
  end.
  repeat split; assumption.
Qed.

(** The shape of the labelled array, and what it holds. *)
Lemma scene_label_defined (p : nat * nat) :
  p ∈ [a; b; p1; p2; p3] -> exists l, entry L p.1 p.2 = Some l /\ 1 <= l <= N.
Proof.
  intros Hp. apply scene_foreground in Hp. unfold foreground in Hp.
  destruct (same_shape_entry mask L p.1 p.2) as [l Hl].
  { symmetry. apply (label_shape _ _ contract). }
  { rewrite Hp. eauto. }
  exists l. split; [exact Hl|]. split.
  - destruct (decide (l = 0)) as [->|Hne]; [|lia].
    apply (label_background _ _ contract) in Hl.
    destruct Hl as [Hl _]. specialize (Hl eq_refl).
    unfold mask, raw in Hp. congruence.
  - apply (label_bound _ _ contract _ _ _ Hl).
Qed.

Lemma scene_numbered (i j l : nat) :
  entry L i j = Some l -> l <> 0 -> (i, j) ∈ [a; b; p1; p2; p3].
Proof.
  intros Hl Hne. apply scene_foreground. unfold foreground. simpl.
  destruct (same_shape_entry L mask i j) as [bb Hbb].
  { apply (label_shape _ _ contract). }
  { rewrite Hl. eauto. }
  destruct bb; [exact Hbb|].
  apply (label_background _ _ contract) in Hl.
  destruct Hl as [_ Hl]. specialize (Hl Hbb). contradiction.
Qed.

(** A single pixel is a feature of its own. *)
Lemma isolated_component (x : nat * nat) :
  x ∈ [a; b; p1; p2; p3] ->
  (forall q, q ∈ [a; b; p1; p2; p3] -> q <> x -> ~ adjacent4 x q) ->
  forall q, connected4 mask x q -> q = x.
Proof.
  intros Hx Hisolated q Hconn. unfold connected4 in Hconn.
  inversion Hconn as [|? y ? Hstep Hrest]; subst; [reflexivity|].
  exfalso. destruct Hstep as (_ & Hy & Hadj). apply scene_foreground in Hy.
  apply (Hisolated y Hy); [|exact Hadj].
  intros ->. apply (adjacent4_irrefl _ Hadj).
Qed.

Lemma isolated_label (x q : nat * nat) (l : nat) :
  x ∈ [a; b; p1; p2; p3] ->
  (forall q, q ∈ [a; b; p1; p2; p3] -> q <> x -> ~ adjacent4 x q) ->
  entry L x.1 x.2 = Some l -> entry L q.1 q.2 = Some l -> l <> 0 -> q = x.
Proof.
  intros Hx Hisolated Hlx Hlq Hne.
  apply (isolated_component x Hx Hisolated).
  apply (label_connected _ _ contract x q l Hne Hlx Hlq).
Qed.

Lemma scene_a_alone (q : nat * nat) :
  q ∈ [a; b; p1; p2; p3] -> q <> a -> ~ adjacent4 a q.
Proof.
  intros Hq Hne. apply (scene_a_isolated _ _ _ _ _ _ _ scene).
  apply elem_of_cons in Hq as [->|Hq]; [contradiction | exact Hq].
Qed.

Lemma scene_b_alone (q : nat * nat) :
  q ∈ [a; b; p1; p2; p3] -> q <> b -> ~ adjacent4 b q.
Proof.
  intros Hq Hne. apply (scene_b_isolated _ _ _ _ _ _ _ scene).
  rewrite !elem_of_cons in Hq. rewrite !elem_of_cons.
  destruct Hq as [->|[->|Hq]]; [left; reflexivity | contradiction | right; exact Hq].
Qed.

(** The three labels of the scene. *)
Lemma scene_labels :
  exists la lb lB,
    entry L a.1 a.2 = Some la /\ entry L b.1 b.2 = Some lb /\
    entry L p1.1 p1.2 = Some lB /\ entry L p2.1 p2.2 = Some lB /\
    entry L p3.1 p3.2 = Some lB /\
    la <> lb /\ la <> lB /\ lb <> lB /\
    la <> 0 /\ lb <> 0 /\ lB <> 0 /\
    N = 3 /\
    (forall l, 1 <= l <= 3 -> l = la \/ l = lb \/ l = lB).
Proof.
  destruct scene_pairwise_distinct
    as (Hab & Ha1 & Ha2 & Ha3 & Hb1 & Hb2 & Hb3 & H12 & H13 & H23).
  assert (Hina : a ∈ [a; b; p1; p2; p3]) by (rewrite !elem_of_cons; tauto).
  assert (Hinb : b ∈ [a; b; p1; p2; p3]) by (rewrite !elem_of_cons; tauto).
  assert (Hin1 : p1 ∈ [a; b; p1; p2; p3]) by (rewrite !elem_of_cons; tauto).
  assert (Hin2 : p2 ∈ [a; b; p1; p2; p3]) by (rewrite !elem_of_cons; tauto).
  assert (Hin3 : p3 ∈ [a; b; p1; p2; p3]) by (rewrite !elem_of_cons; tauto).
  destruct (scene_label_defined a Hina) as (la & Hla & Hla1).
  destruct (scene_label_defined b Hinb) as (lb & Hlb & Hlb1).
  destruct (scene_label_defined p1 Hin1) as (lB & Hl1 & HlB1).
  destruct (scene_blob _ _ _ _ _ _ _ scene) as [Hadj12 Hadj23].
  assert (Hl2 : entry L p2.1 p2.2 = Some lB).
  { rewrite <- Hl1. symmetry. apply (label_adjacent _ _ contract p1 p2).
    split; [apply scene_foreground; exact Hin1|].
    split; [apply scene_foreground; exact Hin2 | exact Hadj12]. }
  assert (Hl3 : entry L p3.1 p3.2 = Some lB).
  { rewrite <- Hl2. symmetry. apply (label_adjacent _ _ contract p2 p3).
    split; [apply scene_foreground; exact Hin2|].
    split; [apply scene_foreground; exact Hin3 | exact Hadj23]. }
  assert (Hlab : la <> lb).
  { intros ->. apply Hab. symmetry.
    apply (isolated_label a b lb Hina scene_a_alone Hla Hlb). lia. }
  assert (HlaB : la <> lB).
  { intros ->. apply Ha1. symmetry.
    apply (isolated_label a p1 lB Hina scene_a_alone Hla Hl1). lia. }
  assert (HlbB : lb <> lB).
  { intros ->. apply Hb1. symmetry.
    apply (isolated_label b p1 lB Hinb scene_b_alone Hlb Hl1). lia. }
  assert (Hcover : forall l, 1 <= l <= N -> l = la \/ l = lb \/ l = lB).
  { intros l Hl. destruct (label_onto _ _ contract l Hl) as (i & j & Hij).
    change (entry L i j = Some l) in Hij.
    pose proof (scene_numbered i j l Hij ltac:(lia)) as Hin.
    rewrite !elem_of_cons, elem_of_nil in Hin.
    destruct Hin as [<-|[<-|[<-|[<-|[<-|[]]]]]]; simpl in *;
      [left | right; left | right; right | right; right | right; right]; congruence. }
  assert (HN : N = 3).
  { destruct (decide (N <= 3)) as [Hle|Hgt].
    - lia.
    - exfalso.
      destruct (Hcover 1 ltac:(lia)) as [H1|[H1|H1]];
      destruct (Hcover 2 ltac:(lia)) as [H2|[H2|H2]];
      destruct (Hcover 3 ltac:(lia)) as [H3|[H3|H3]];
      destruct (Hcover 4 ltac:(lia)) as [H4|[H4|H4]]; lia. }
  exists la, lb, lB. rewrite HN in Hcover. repeat split; auto; lia.
Qed.
Lemma py_mapM_const {A B : Type} (f : A -> pyresult B) (l : list A) (y : B) :
  (forall x, x ∈ l -> f x = Ok y) -> py_mapM f l = Ok (replicate (length l) y).
Proof.
  induction l as [|x l IH]; intros Hf; simpl; [reflexivity|].
  rewrite (Hf x) by left. simpl.
  rewrite IH by (intros z Hz; apply Hf; right; exact Hz). reflexivity.
Qed.

Lemma filter_true_replicate (k : nat) :
  filter (fun b : bool => b = true) (replicate k true) = replicate k true.
Proof.
  induction k as [|k IH]; [reflexivity|]. simpl.
  rewrite filter_cons_True by reflexivity. rewrite IH. reflexivity.
Qed.

(** The pixels that carry the number [l]. *)
Lemma feature_pixels_elem (p : nat * nat) (l : nat) :
  p ∈ np_where id (map (map (fun x => bool_decide (x = l))) L) <->
  entry L p.1 p.2 = Some l.
Proof.
  destruct p as [i j]. rewrite np_where_elem. simpl. split.
  - intros (v & Hv & Htrue). rewrite entry_map in Hv. simpl in Htrue. subst v.
    destruct (entry L i j) as [x|]; csimpl in Hv; [|discriminate].
    injection Hv as Hv. apply bool_decide_eq_true_1 in Hv. congruence.
  - intros Hl. exists true. rewrite entry_map, Hl. csimpl.
    rewrite bool_decide_eq_true_2 by reflexivity. auto.
Qed.

(** The mask read at the pixels of a feature: as many [True] as pixels. *)
Lemma feature_candidates (l : nat) :
  l <> 0 ->
  bool_mask_index mask (map (map (fun x => bool_decide (x = l))) L) =
    Ok (replicate
          (length (np_where id (map (map (fun x => bool_decide (x = l))) L))) true).
Proof.
  intros Hne. unfold bool_mask_index.
  rewrite map_length_map_map.
  destruct (decide (map length mask = map length L)) as [_|Hshape].
  2: { exfalso. apply Hshape. symmetry. apply (label_shape _ _ contract). }
  apply py_mapM_const. intros [i j] Hp.
  apply feature_pixels_elem in Hp. simpl in Hp.
  apply get2_entry.
  apply (proj2 (scene_foreground (i, j)) (scene_numbered i j l Hp Hne)).
Qed.

(** The feature of a single pixel is removed. *)
Lemma single_feature_removed (ff l : nat) (x : nat * nat)
    (ijs : list (nat * nat)) (remove_p : list bool) :
  ff + 1 = l -> l <> 0 ->
  (forall p, entry L p.1 p.2 = Some l <-> p = x) ->
  picker_feature probas mask L (ijs, remove_p) ff = Ok (ijs, <[ff := true]> remove_p).
Proof.
  intros Hff Hne Hpixels. unfold picker_feature. rewrite Hff.
  rewrite (feature_candidates l Hne). simpl.
  destruct (decide _) as [_|_]; [reflexivity|].
  rewrite bool_sum_np_where.
  rewrite (same_elements_length _ [x]).
  - destruct (decide (length [x] = 1)) as [_|Hn]; [reflexivity | contradiction].
  - apply np_where_NoDup.
  - apply NoDup_singleton.
  - intros p. rewrite feature_pixels_elem, Hpixels, list_elem_of_singleton. reflexivity.
Qed.

(** The feature of the blob is kept, at a pixel of greatest probability. *)
Lemma blob_feature_kept (lB : nat) :
  lB <> 0 ->
  (forall p, entry L p.1 p.2 = Some lB <-> p ∈ [p1; p2; p3]) ->
  exists best vb,
    best ∈ [p1; p2; p3] /\
    entry probas best.1 best.2 = Some vb /\
    (forall q v, q ∈ [p1; p2; p3] -> entry probas q.1 q.2 = Some v ->
       (v <=? vb)%float = true) /\
    forall ff ijs remove_p, ff + 1 = lB ->
      picker_feature probas mask L (ijs, remove_p) ff = Ok (<[ff := best]> ijs, remove_p).
Proof.
  intros Hne Hpixels.
  destruct scene_pairwise_distinct
    as (Hab & Ha1 & Ha2 & Ha3 & Hb1 & Hb2 & Hb3 & H12 & H13 & H23).
  set (posB := np_where id (map (map (fun x => bool_decide (x = lB))) L)).
  assert (HposB : forall p, p ∈ posB <-> p ∈ [p1; p2; p3]).
  { intros p. unfold posB. rewrite feature_pixels_elem. apply Hpixels. }
  assert (Hlen : length posB = 3).
  { rewrite (same_elements_length posB [p1; p2; p3]); [reflexivity | | | exact HposB].
    - apply np_where_NoDup.
    - repeat constructor; rewrite ?elem_of_cons, ?elem_of_nil; tauto. }
  assert (Hfive : forall p, p ∈ posB -> p ∈ [a; b; p1; p2; p3]).
  { intros p Hp. apply HposB in Hp. rewrite !elem_of_cons in *. tauto. }
  destruct (py_mapM_total (fun '(i, j) => get2 probas i j) posB) as [vals Hvals].
  { intros [i j] Hp. destruct (scene_value (i, j) (Hfive _ Hp)) as (v & Hv & _).
    exists v. apply get2_entry. exact Hv. }
  pose proof Hvals as Hvals2. apply py_mapM_Ok in Hvals2.
  pose proof (Forall2_length _ _ _ Hvals2) as Hlenv.
  assert (Hnum : Forall (fun v => PrimFloat.is_nan v = false) vals).
  { apply Forall_forall. intros v Hv. apply list_elem_of_lookup in Hv as [k Hk].
    destruct (Forall2_lookup_r _ _ _ _ _ Hvals2 Hk) as ([i j] & Hp & Hget).
    apply get2_entry in Hget.
    destruct (scene_value (i, j)) as (v' & Hv' & Hnan).
    { apply Hfive. apply list_elem_of_lookup. eauto. }
    simpl in Hv'. congruence. }
  destruct (np_argmax_max vals) as (k & vb & Hargmax & Hk & Hmax); [|exact Hnum|].
  { intros ->. simpl in Hlenv. lia. }
  destruct (Forall2_lookup_r _ _ _ _ _ Hvals2 Hk) as ([bi bj] & Hbest & Hget).
  apply get2_entry in Hget.
  exists (bi, bj), vb. split; [|split; [exact Hget|split]].
  - apply HposB. apply list_elem_of_lookup. eauto.
  - intros q v Hq Hv. apply Hmax.
    apply HposB, list_elem_of_lookup in Hq as [idx Hidx].
    destruct (Forall2_lookup_l _ _ _ _ _ Hvals2 Hidx) as (v' & Hv' & Hget').
    destruct q as [qi qj]. apply get2_entry in Hget'. simpl in Hv.
    assert (v' = v) by congruence. subst v'.
    apply list_elem_of_lookup. eauto.
  - intros ff ijs remove_p Hff. unfold picker_feature. rewrite Hff.
    rewrite (feature_candidates lB Hne). fold posB. simpl.
    rewrite filter_true_replicate, length_replicate, Hlen.
    destruct (decide (3 = 0)) as [Hz|_]; [discriminate|].
    rewrite bool_sum_np_where. fold posB. rewrite Hlen.
    destruct (decide (3 = 1)) as [Hz|_]; [discriminate|].
    rewrite Hvals. simpl. rewrite Hargmax. simpl.
    unfold get1. rewrite Hbest. reflexivity.
Qed.

(** C5. On a probability map with values between 0 and 1 whose pixels
    above the threshold are two single pixels without a neighbour above
    the threshold and a blob of three pixels chained by neighbourhood,
    [picker] returns exactly one coordinate; it is a pixel of the blob,
    and no pixel of the blob has a greater probability. The two single
    pixels are features of size one and are removed. The labelling
    routine is SciPy's: it is assumed to do, on the candidate mask of
    this map, what its documentation says. *)
Theorem picker_keeps_blob_maximum :
  exists best vb,
    picker label probas thres = Ok (Coords [best]) /\
    best ∈ [p1; p2; p3] /\
    entry probas best.1 best.2 = Some vb /\
    forall q v, q ∈ [p1; p2; p3] -> entry probas q.1 q.2 = Some v ->
      (v <=? vb)%float = true.
Proof.
  destruct scene_pairwise_distinct
    as (Hab & Ha1 & Ha2 & Ha3 & Hb1 & Hb2 & Hb3 & H12 & H13 & H23).
  destruct scene_labels
    as (la & lb & lB & Hla & Hlb & Hl1 & Hl2 & Hl3 & Hlab & HlaB & HlbB
        & Hla0 & Hlb0 & HlB0 & HN & Hcover).
  assert (Hina : a ∈ [a; b; p1; p2; p3]) by (rewrite !elem_of_cons; tauto).
  assert (Hinb : b ∈ [a; b; p1; p2; p3]) by (rewrite !elem_of_cons; tauto).
  assert (Ha_px : forall p, entry L p.1 p.2 = Some la <-> p = a).
  { intros p. split; [|intros ->; exact Hla].
    intros Hp. apply (isolated_label a p la Hina scene_a_alone Hla Hp Hla0). }
  assert (Hb_px : forall p, entry L p.1 p.2 = Some lb <-> p = b).
  { intros p. split; [|intros ->; exact Hlb].
    intros Hp. apply (isolated_label b p lb Hinb scene_b_alone Hlb Hp Hlb0). }
  assert (HB_px : forall p, entry L p.1 p.2 = Some lB <-> p ∈ [p1; p2; p3]).
  { intros p. split.
    - intros Hp. pose proof (scene_numbered p.1 p.2 lB Hp HlB0) as Hin.
      rewrite <- surjective_pairing in Hin.
      rewrite !elem_of_cons, elem_of_nil in Hin. rewrite !elem_of_cons, elem_of_nil.
      destruct Hin as [->|[->|Hin]]; [congruence | congruence | exact Hin].
    - rewrite !elem_of_cons, elem_of_nil.
      intros [->|[->|[->|[]]]]; assumption. }
  destruct (blob_feature_kept lB HlB0 HB_px) as (best & vb & Hbest & Hvb & Hmax & Hkept).
  exists best, vb. split; [|auto].
  rewrite picker_run.
  2: { apply in_unit_interval_in_range. exact probas_unit. }
  2: { apply scene_raw in Hina. fold raw. destruct raw; [inversion Hina | simpl; lia]. }
  change (label (candidate_mask (np_where (fun v => (thres <? v)%float) probas))).2 with N.
  change (label (candidate_mask (np_where (fun v => (thres <? v)%float) probas))).1 with L.
  change (candidate_mask (np_where (fun v => (thres <? v)%float) probas)) with mask.
  rewrite HN.
  assert (Hstep : forall ff ijs remove_p, ff < 3 ->
    picker_feature probas mask L (ijs, remove_p) ff =
      if decide (ff + 1 = lB) then Ok (<[ff := best]> ijs, remove_p)
      else Ok (ijs, <[ff := true]> remove_p)).
  { intros ff ijs remove_p Hff. destruct (decide (ff + 1 = lB)) as [HB|HnB].
    - apply Hkept. exact HB.
    - destruct (Hcover (ff + 1) ltac:(lia)) as [Hl|[Hl|Hl]]; [| |contradiction].
      + apply (single_feature_removed ff la a); [exact Hl | exact Hla0 | exact Ha_px].
      + apply (single_feature_removed ff lb b); [exact Hl | exact Hlb0 | exact Hb_px]. }
  change (seq 0 3) with [0; 1; 2].
  rewrite for_each_cons, (Hstep 0) by lia.
  destruct (decide (0 + 1 = lB)) as [H0|H0]; rewrite bind_unit.
  - rewrite for_each_cons, (Hstep 1) by lia.
    destruct (decide (1 + 1 = lB)) as [H1|H1]; [lia|]. rewrite bind_unit.
    rewrite for_each_cons, (Hstep 2) by lia.
    destruct (decide (2 + 1 = lB)) as [H2|H2]; [lia|]. reflexivity.
  - rewrite for_each_cons, (Hstep 1) by lia.
    destruct (decide (1 + 1 = lB)) as [H1|H1]; rewrite bind_unit.
    + rewrite for_each_cons, (Hstep 2) by lia.
      destruct (decide (2 + 1 = lB)) as [H2|H2]; [lia|]. reflexivity.
    + rewrite for_each_cons, (Hstep 2) by lia.
      destruct (decide (2 + 1 = lB)) as [H2|H2]; [reflexivity|].
      exfalso.
      destruct (Hcover 1 ltac:(lia)) as [C1|[C1|C1]];
      destruct (Hcover 2 ltac:(lia)) as [C2|[C2|C2]];
      destruct (Hcover 3 ltac:(lia)) as [C3|[C3|C3]]; lia.
Qed.

End BlobScene.

(** ** The scene of [example_probas] *)

Ltac list_cases H :=
  repeat match type of H with
  | _ ∈ _ :: _ => apply elem_of_cons in H; destruct H as [H|H]
  | _ ∈ [] => apply elem_of_nil in H; contradiction
  end.

Ltac eval_list H :=
  match type of H with
  | ?x ∈ ?l => let l' := eval vm_compute in l in change (x ∈ l') in H
  end.

Ltac linked_pixels :=
  split; [reflexivity | split; [reflexivity | unfold adjacent4; simpl; lia]].

Lemma entry_where {A : Type} (p : A -> bool) (m : list (list A)) (q : nat * nat) (v : A) :
  entry m q.1 q.2 = Some v -> p v = true -> q ∈ np_where p m.
Proof. destruct q as [i j]. intros Hv Hp. apply np_where_elem. eauto. Qed.

Lemma example_raw :
  np_where (fun v => (0.8 <? v)%float) example_probas =
    [(0, 0); (0, 4); (2, 1); (2, 2); (3, 2)].
Proof. vm_compute. reflexivity. Qed.

Lemma example_label :
  reference_label (candidate_mask (np_where (fun v => (0.8 <? v)%float) example_probas)) =
    ([[1; 0; 0; 0; 2]; [0; 0; 0; 0; 0]; [0; 3; 3; 0; 0]; [0; 0; 3; 0; 0]], 3).
Proof. vm_compute. reflexivity. Qed.

Lemma example_mask :
  candidate_mask (np_where (fun v => (0.8 <? v)%float) example_probas) =
    [[true; false; false; false; true];
     [false; false; false; false; false];
     [false; true; true; false; false];
     [false; false; true; false; false]].
Proof. vm_compute. reflexivity. Qed.

Lemma example_scene :
  blob_scene example_probas 0.8%float (0, 0) (0, 4) (2, 1) (2, 2) (3, 2).
Proof.
  split.
  - apply (bool_decide_unpack _). vm_compute. exact I.
  - intros [i j]. unfold exceeds. simpl. rewrite <- example_raw.
    symmetry. apply np_where_elem.
  - intros q Hq. list_cases Hq; subst q; unfold adjacent4; simpl; lia.
  - intros q Hq. list_cases Hq; subst q; unfold adjacent4; simpl; lia.
  - unfold adjacent4; simpl; lia.
Qed.

Lemma example_contract :
  label_contract
    (candidate_mask (np_where (fun v => (0.8 <? v)%float) example_probas))
    (reference_label
       (candidate_mask (np_where (fun v => (0.8 <? v)%float) example_probas))).
Proof.
  rewrite example_label, example_mask.
  split; simpl.
  - reflexivity.
  - intros i j l Hl.
    pose proof (entry_where (fun _ => true) _ (i, j) l Hl eq_refl) as Hin.
    eval_list Hin. list_cases Hin; injection Hin as -> ->;
      vm_compute in Hl; injection Hl as <-; vm_compute; split; congruence.
  - intros i j l Hl.
    pose proof (entry_where (fun _ => true) _ (i, j) l Hl eq_refl) as Hin.
    eval_list Hin. list_cases Hin; injection Hin as -> ->;
      vm_compute in Hl; injection Hl as <-; lia.
  - intros l Hl.
    assert (Hcases : l = 1 \/ l = 2 \/ l = 3) by lia.
    destruct Hcases as [-> | [-> | ->]];
      [exists 0, 0 | exists 0, 4 | exists 2, 1]; reflexivity.
  - intros p q (Hp & Hq & Hadj).
    pose proof (entry_where id _ p true Hp eq_refl) as Hinp.
    pose proof (entry_where id _ q true Hq eq_refl) as Hinq.
    eval_list Hinp. eval_list Hinq.
    list_cases Hinp; subst p; list_cases Hinq; subst q;
      first [reflexivity | exfalso; unfold adjacent4 in Hadj; simpl in Hadj; lia].
  - intros p q l Hne Hp Hq.
    pose proof (entry_where (fun x => negb (Nat.eqb x 0)) _ p l Hp
                  ltac:(apply negb_true_iff, Nat.eqb_neq; exact Hne)) as Hinp.
    pose proof (entry_where (fun x => negb (Nat.eqb x 0)) _ q l Hq
                  ltac:(apply negb_true_iff, Nat.eqb_neq; exact Hne)) as Hinq.
    eval_list Hinp. eval_list Hinq.
    list_cases Hinp; subst p; list_cases Hinq; subst q;
      vm_compute in Hp; vm_compute in Hq;
      first
        [ congruence
        | apply rtc_refl
        | apply rtc_once; linked_pixels
        | apply (rtc_l _ _ (2, 2)); [linked_pixels | apply rtc_once; linked_pixels] ].
Qed.

Lemma picker_keeps_blob_maximum_witness :
  exists best vb,
    picker reference_label example_probas 0.8%float = Ok (Coords [best]) /\
    best ∈ [(2, 1); (2, 2); (3, 2)] /\
    entry example_probas best.1 best.2 = Some vb /\
    forall q v, q ∈ [(2, 1); (2, 2); (3, 2)] -> entry example_probas q.1 q.2 = Some v ->
      (v <=? vb)%float = true.
Proof.
  apply (picker_keeps_blob_maximum reference_label example_probas 0.8%float
           (0, 0) (0, 4) (2, 1) (2, 2) (3, 2)).
  - apply in_unit_interval_check. vm_compute. reflexivity.
  - exact example_scene.
  - exact example_contract.
Defined.

(** ** Not-a-number in the arithmetic of the doubles *)

Lemma is_nan_eq (x : float) : PrimFloat.is_nan x = true -> x = nan.
Proof.
  intros H. apply FloatAxioms.Prim2SF_inj. change (Prim2SF nan) with S754_nan.
  destruct (spec_float_nan_dec (Prim2SF x)) as [Hx|Hx]; [exact Hx|].
  apply is_nan_key in Hx. congruence.
Qed.

Lemma add_nan_l (y : float) : (nan + y)%float = nan.
Proof. apply FloatAxioms.Prim2SF_inj. rewrite FloatAxioms.add_spec. reflexivity. Qed.

Lemma add_nan_r (y : float) : (y + nan)%float = nan.
Proof.
  apply FloatAxioms.Prim2SF_inj. rewrite FloatAxioms.add_spec.
  change (Prim2SF nan) with S754_nan. destruct (Prim2SF y) as [[]|[]| |[]]; reflexivity.
Qed.

Lemma sub_nan_l (y : float) : (nan - y)%float = nan.
Proof. apply FloatAxioms.Prim2SF_inj. rewrite FloatAxioms.sub_spec. reflexivity. Qed.

Lemma div_nan_l (y : float) : (nan / y)%float = nan.
Proof. apply FloatAxioms.Prim2SF_inj. rewrite FloatAxioms.div_spec. reflexivity. Qed.

Lemma ltb_nan_l (y : float) : (nan <? y)%float = false.
Proof.
  destruct (nan <? y)%float eqn:H; [|reflexivity].
  apply ltb_is_number in H as [H _]. discriminate H.
Qed.

Lemma leb_ltb_trans (x y z : float) :
  (x <=? y)%float = true -> (y <? z)%float = true -> (x <? z)%float = true.
Proof.
  rewrite !ltb_key, leb_key. unfold key_le. intros (Hx & Hy & Hxy) (_ & Hz & Hyz).
  repeat split; auto. lia.
Qed.

(** ** More on arrays and loops *)

Lemma get2_Ok {A : Type} (m : list (list A)) (i j : nat) (v : A) :
  get2 m i j = Ok v -> entry m i j = Some v.
Proof.
  unfold get2, entry. destruct (m !! i) as [row|]; simpl; [|discriminate].
  destruct (row !! j); [|discriminate]. intros [= ->]. reflexivity.
Qed.

Lemma set2_Raise {A : Type} (m : list (list A)) (i j : nat) (v : A) (e : pyexc) :
  set2 m i j v = Raise e -> e = IndexError.
Proof.
  unfold set2. destruct (m !! i) as [row|]; [destruct (decide _)|]; congruence.
Qed.

Lemma entry_elem {A : Type} (P : A -> Prop) (m : list (list A)) :
  Forall (Forall P) m <-> forall i j v, entry m i j = Some v -> P v.
Proof.
  split.
  - intros Hall i j v Hv. unfold entry in Hv.
    destruct (m !! i) as [row|] eqn:Hi; simpl in Hv; [|discriminate].
    rewrite Forall_lookup in Hall. specialize (Hall i row Hi).
    rewrite Forall_lookup in Hall. apply (Hall j v Hv).
  - intros Hall. apply Forall_lookup. intros i row Hi.
    apply Forall_lookup. intros j v Hj. apply (Hall i j v).
    unfold entry. rewrite Hi. exact Hj.
Qed.

Lemma entry_None_outside {A : Type} (r c : nat) (m : list (list A)) (i j : nat) :
  is_matrix r c m -> entry m i j = None <-> ~ (i < r /\ j < c).
Proof.
  intros Hm. split.
  - intros Hnone [Hi Hj]. destruct (is_matrix_entry r c m i j Hm Hi Hj) as [v Hv].
    congruence.
  - intros Hout. destruct (entry m i j) as [v|] eqn:Hv; [|reflexivity].
    exfalso. apply Hout. eapply entry_Some_lt; eauto.
Qed.

Lemma shape_is_matrix {A B : Type} (r c : nat) (m : list (list A)) (m' : list (list B)) :
  is_matrix r c m -> map length m' = map length m -> is_matrix r c m'.
Proof.
  intros [Hlen Hrows] Hshape. split.
  - rewrite <- Hlen. rewrite <- (length_map length m'), Hshape. apply length_map.
  - apply Forall_lookup. intros i row Hi.
    assert (Hl : map length m' !! i = Some (length row)).
    { change (map ?f ?l) with (f <$> l). rewrite list_lookup_fmap, Hi. reflexivity. }
    rewrite Hshape in Hl. change (map ?f ?l) with (f <$> l) in Hl.
    rewrite list_lookup_fmap in Hl.
    destruct (m !! i) as [row0|] eqn:H0; simpl in Hl; [|discriminate].
    injection Hl as <-. rewrite Forall_lookup in Hrows. apply (Hrows i row0 H0).
Qed.

Lemma has_entries_unique (r c : nat) (f : nat -> nat -> float) (m1 m2 : list (list float)) :
  has_entries r c f m1 -> has_entries r c f m2 -> m1 = m2.
Proof.
  intros [H1 E1] [H2 E2]. apply list_eq. intros i.
  destruct (decide (i < r)) as [Hi|Hi].
  - destruct (lookup_lt_is_Some_2 m1 i) as [row1 Hr1]; [destruct H1; lia|].
    destruct (lookup_lt_is_Some_2 m2 i) as [row2 Hr2]; [destruct H2; lia|].
    rewrite Hr1, Hr2. f_equal. apply list_eq. intros j.
    pose proof (is_matrix_row r c m1 i row1 H1 Hr1) as L1.
    pose proof (is_matrix_row r c m2 i row2 H2 Hr2) as L2.
    destruct (decide (j < c)) as [Hj|Hj].
    + specialize (E1 i j Hi Hj). specialize (E2 i j Hi Hj).
      unfold entry in E1, E2. rewrite Hr1 in E1. rewrite Hr2 in E2. simpl in E1, E2.
      congruence.
    + rewrite !lookup_ge_None_2 by lia. reflexivity.
  - destruct H1 as [L1 _], H2 as [L2 _]. rewrite !lookup_ge_None_2 by lia. reflexivity.
Qed.

Lemma ncols_map {A B : Type} (g : A -> B) (m : list (list A)) :
  ncols (map (map g) m) = ncols m.
Proof. destruct m as [|row m]; simpl; [reflexivity | apply length_map]. Qed.

Lemma ncols_replicate {A : Type} (r c : nat) (x : A) :
  1 <= r -> ncols (replicate r (replicate c x)) = c.
Proof. intros Hr. destruct r; [lia|]. simpl. apply length_replicate. Qed.

Lemma rectangular_map (g : float -> float) (m : list (list float)) :
  rectangular m -> rectangular (map (map g) m).
Proof.
  intros Hm. unfold rectangular. rewrite length_map, ncols_map.
  apply is_matrix_map. exact Hm.
Qed.

Lemma py_mapM_lookup {A B : Type} (f : A -> pyresult B) (l : list A) (ys : list B)
    (k : nat) :
  py_mapM f l = Ok ys ->
  (forall x, l !! k = Some x -> exists y, ys !! k = Some y /\ f x = Ok y) /\
  (forall y, ys !! k = Some y -> exists x, l !! k = Some x /\ f x = Ok y).
Proof.
  intros H. apply py_mapM_Ok in H. split.
  - intros x Hx. destruct (Forall2_lookup_l _ _ _ _ _ H Hx) as (y & Hy & Hf). eauto.
  - intros y Hy. destruct (Forall2_lookup_r _ _ _ _ _ H Hy) as (x & Hx & Hf). eauto.
Qed.

Lemma for_each_marks_at {A S X : Type} (P : S -> Prop) (Q : X -> S -> Prop)
    (mark : A -> X -> Prop) (xs : list A) (body : S -> A -> pyresult S) (s : S) :
  P s ->
  (forall s x, x ∈ xs -> P s ->
     exists s', body s x = Ok s' /\ P s' /\ (forall y, mark x y -> Q y s') /\
       forall y, Q y s -> Q y s') ->
  exists s', for_each xs body s = Ok s' /\ P s' /\
    (forall x y, x ∈ xs -> mark x y -> Q y s') /\ (forall y, Q y s -> Q y s').
Proof.
  revert s; induction xs as [|x xs IH]; intros s Hs Hbody; simpl.
  - exists s. split; [reflexivity|]. split; [exact Hs|].
    split; [intros x y Hx; inversion Hx | auto].
  - destruct (Hbody s x) as (s1 & -> & Hs1 & Hx & Hkeep); [left | exact Hs |].
    simpl. destruct (IH s1 Hs1) as (s' & Hrun & Hs' & Hall & Hkeep').
    { intros s2 y Hy; apply Hbody; right; exact Hy. }
    exists s'. split; [exact Hrun|]. split; [exact Hs'|]. split.
    + intros z y Hz Hm. apply elem_of_cons in Hz as [->|Hz]; [apply Hkeep', Hx, Hm | eauto].
    + intros y Hy. apply Hkeep', Hkeep, Hy.
Qed.

Lemma set2_keeps {A : Type} (P : A -> Prop) (m m' : list (list A)) (i j : nat) (v : A) :
  set2 m i j v = Ok m' -> P v -> Forall (Forall P) m -> Forall (Forall P) m'.
Proof.
  intros Hset Hv Hm. apply set2_returned in Hset as [_ Hentries].
  apply entry_elem. intros a b w. rewrite Hentries.
  destruct (decide _) as [_|_]; [intros [= <-]; exact Hv|].
  intros Hw. rewrite entry_elem in Hm. apply (Hm a b w Hw).
Qed.

(** ** [scn_func]: what a run returns *)

Lemma replace_nan_numbers (v : float) (m : list (list float)) :
  PrimFloat.is_nan v = false ->
  forall i j x, entry (replace_nan v m) i j = Some x -> PrimFloat.is_nan x = false.
Proof.
  intros Hv i j x. unfold replace_nan. rewrite entry_map.
  destruct (entry m i j) as [y|]; simpl; [|discriminate].
  intros [= <-]. destruct (PrimFloat.is_nan y) eqn:Hy; [exact Hv | exact Hy].
Qed.

Lemma scn_func_returned_numbers (A B : list (list float)) (threshold : float) :
  scn_func A threshold = Ok B ->
  forall i j x, entry B i j = Some x -> PrimFloat.is_nan x = false.
Proof.
  unfold scn_func. cbv zeta.
  change (seq 0 10) with (seq 0 9 ++ [9]). rewrite for_each_app.
  intros Hrun. apply bind_Ok in Hrun as (A9 & _ & Hlast).
  simpl in Hlast. apply bind_Ok in Hlast as (B' & Hiter & [= <-]).
  unfold scn_iteration in Hiter.
  apply bind_Ok in Hiter as (A1 & _ & Hiter). cbv zeta in Hiter.
  apply bind_Ok in Hiter as (A2 & _ & [= <-]).
  apply replace_nan_numbers. reflexivity.
Qed.

(** X1. [scn_func] returns on every square matrix, the result has the
    shape of the input, and no entry of the result is not-a-number:
    each of the ten iterations ends with [A[np.isnan(A)] = 0.0]. *)
Theorem scn_func_result_is_numeric (A : list (list float)) (threshold : float) (n : nat) :
  is_matrix n n A ->
  exists B, scn_func A threshold = Ok B /\ is_matrix n n B /\
    forall i j, i < n -> j < n ->
      exists x, entry B i j = Some x /\ PrimFloat.is_nan x = false.
Proof.
  intros HA. destruct (scn_func_run A threshold n HA) as (B & Hrun & HB & _).
  exists B. split; [exact Hrun|]. split; [exact HB|].
  intros i j Hi Hj. destruct (is_matrix_entry n n B i j HB Hi Hj) as [x Hx].
  exists x. split; [exact Hx|].
  apply (scn_func_returned_numbers A B threshold Hrun i j x Hx).
Qed.

Lemma scn_func_result_is_numeric_witness :
  exists B, scn_func [[10; 1]; [2; 10]]%float 1.5%float = Ok B /\ is_matrix 2 2 B /\
    forall i j, i < 2 -> j < 2 ->
      exists x, entry B i j = Some x /\ PrimFloat.is_nan x = false.
Proof.
  apply (scn_func_result_is_numeric [[10; 1]; [2; 10]]%float 1.5%float 2).
  split; [reflexivity|]. repeat constructor.
Defined.

(** X2. After one run of [scn_func] on a square matrix every bin whose
    row sum in the input does not exceed the threshold has a row and a
    column of zeros; when no row sum exceeds the threshold (as with a
    threshold that is not a number) the result is the zero matrix. *)
Theorem scn_func_zeroes_inactive_bins (A : list (list float)) (threshold : float) (n : nat) :
  is_matrix n n A ->
  exists B, scn_func A threshold = Ok B /\
    (forall i, inactive_row A threshold i -> zero_bin n B i) /\
    ((forall i, i < n -> inactive_row A threshold i) -> B = np_zeros n n).
Proof.
  intros HA. destruct (scn_func_run A threshold n HA) as (B & Hrun & HB & Hzero).
  exists B. split; [exact Hrun|]. split; [exact Hzero|].
  intros Hall. apply (has_entries_unique n n (fun _ _ => 0%float)).
  - split; [exact HB|]. intros i j Hi Hj.
    apply (Hzero i (Hall i Hi) j Hj).
  - apply has_entries_zeros.
Qed.

Lemma scn_func_zeroes_inactive_bins_witness :
  exists B, scn_func [[10; 1]; [0.5; 0.25]]%float 1.5%float = Ok B /\
    (forall i, inactive_row [[10; 1]; [0.5; 0.25]]%float 1.5%float i -> zero_bin 2 B i) /\
    ((forall i, i < 2 -> inactive_row [[10; 1]; [0.5; 0.25]]%float 1.5%float i) ->
       B = np_zeros 2 2).
Proof.
  apply (scn_func_zeroes_inactive_bins [[10; 1]; [0.5; 0.25]]%float 1.5%float 2).
  split; [reflexivity|]. repeat constructor.
Defined.

(** ** [scn_func] on a matrix that is not square *)

Lemma scn_line_Raise (pos : nat -> nat * nat) (idx1 idx2 : list nat)
    (A : list (list float)) (e : pyexc) :
  scn_line pos idx1 idx2 A = Raise e -> e = IndexError.
Proof.
  unfold scn_line. intros H. apply bind_Raise in H as [H | (vals & _ & H)].
  - apply py_mapM_Raise in H as (k & _ & H). eapply get2_Raise; exact H.
  - unfold apply_writes in H. apply for_each_Raise in H as (A1 & w & _ & H).
    eapply set2_Raise; exact H.
Qed.

(** [scn_func] raises nothing but an [IndexError]. *)
Lemma scn_func_Raise (A : list (list float)) (threshold : float) (e : pyexc) :
  scn_func A threshold = Raise e -> e = IndexError.
Proof.
  unfold scn_func. cbv zeta. intros H.
  apply for_each_Raise in H as (A1 & k & _ & H). unfold scn_iteration in H.
  apply bind_Raise in H as [H | (A2 & _ & H)].
  - unfold scn_columns in H. apply for_each_Raise in H as (A3 & c & _ & H).
    rewrite scn_columns_step in H. eapply scn_line_Raise; exact H.
  - cbv zeta in H. apply bind_Raise in H as [H | (A3 & _ & H)]; [|discriminate].
    unfold scn_rows in H. apply for_each_Raise in H as (A4 & r & _ & H).
    rewrite scn_rows_step in H. eapply scn_line_Raise; exact H.
Qed.

Lemma scn_line_shape (pos : nat -> nat * nat) (idx1 idx2 : list nat)
    (A A' : list (list float)) :
  scn_line pos idx1 idx2 A = Ok A' -> map length A' = map length A.
Proof.
  unfold scn_line. intros H. apply bind_Ok in H as (vals & _ & H).
  unfold apply_writes in H.
  apply (for_each_returned (fun B => map length B = map length A) _ _ _ _ H);
    [reflexivity|].
  intros B w B' _ HB Hset. apply set2_returned in Hset as [Hshape _]. congruence.
Qed.

Lemma seq_split (c r : nat) : c < r -> seq 0 r = seq 0 c ++ c :: seq (S c) (r - S c).
Proof.
  intros Hc. replace r with (c + S (r - S c)) at 1 by lia.
  rewrite seq_app. reflexivity.
Qed.

(** Column [c] of a matrix with [c] columns cannot be normalized. *)
Lemma scn_line_outside (idx1 idx2 : list nat) (A A' : list (list float)) (r c : nat) :
  is_matrix r c A -> idx1 ++ idx2 <> [] ->
  scn_line (fun k => (k, c)) idx1 idx2 A = Ok A' -> False.
Proof.
  intros HA Hne H. unfold scn_line in H. apply bind_Ok in H as (vals & Hvals & H).
  destruct idx1 as [|k idx1].
  - simpl in Hvals. injection Hvals as <-. simpl in H.
    destruct idx2 as [|k idx2]; [contradiction|].
    unfold apply_writes in H. simpl in H.
    apply bind_Ok in H as (A1 & Hset & _). unfold set2 in Hset.
    destruct (A !! k) as [row|] eqn:Hrow; [|discriminate].
    rewrite (is_matrix_row r c A k row HA Hrow) in Hset.
    destruct (decide (c < c)); [lia | discriminate].
  - simpl in Hvals. apply bind_Ok in Hvals as (v & Hget & _).
    apply get2_Ok in Hget. simpl in Hget.
    apply (entry_Some_lt r c A k c v HA) in Hget. lia.
Qed.

(** X3. [scn_func] indexes the columns with [range(A.shape[0])]: on a
    matrix with more rows than columns it raises an [IndexError]. *)
Theorem scn_func_needs_a_column_per_row (A : list (list float)) (threshold : float)
    (r c : nat) :
  is_matrix r c A -> c < r ->
  scn_func A threshold = Raise IndexError.
Proof.
  intros HA Hc.
  destruct (scn_func A threshold) as [B|e] eqn:Hrun;
    [exfalso | f_equal; eapply scn_func_Raise; exact Hrun].
  pose proof HA as [Hlen _].
  unfold scn_func in Hrun. cbv zeta in Hrun. rewrite Hlen in Hrun.
  set (keep := scn_keep A threshold) in *.
  set (idx1 := indices_where (fun k => (0 <? k)%float) keep) in *.
  set (idx2 := indices_where (fun k => (k <=? 0)%float) keep) in *.
  assert (Hsome : idx1 ++ idx2 <> []).
  { assert (Hkeeplen : length keep = r)
      by (unfold keep, scn_keep; rewrite length_map; exact Hlen).
    destruct (lookup_lt_is_Some_2 keep 0) as [v Hv]; [lia|].
    destruct (scn_keep_lookup A threshold 0 v Hv) as (row & _ & Hval).
    assert (Hin : 0 ∈ idx1 ++ idx2).
    { apply elem_of_app. destruct (threshold <? np_sum row)%float; subst v.
      - left. apply indices_where_elem. exists 1%float. split; [exact Hv | reflexivity].
      - right. apply indices_where_elem. exists 0%float. split; [exact Hv | reflexivity]. }
    intros Hnil. rewrite Hnil in Hin. inversion Hin. }
  change (seq 0 10) with (0 :: seq 1 9) in Hrun. rewrite for_each_cons in Hrun.
  apply bind_Ok in Hrun as (A1 & Hiter & _).
  unfold scn_iteration in Hiter. apply bind_Ok in Hiter as (A2 & Hcols & _).
  unfold scn_columns in Hcols. rewrite (seq_split c r Hc), for_each_app in Hcols.
  apply bind_Ok in Hcols as (Ac & Hbefore & Hat).
  rewrite for_each_cons in Hat. apply bind_Ok in Hat as (Ac' & Hstep & _).
  rewrite scn_columns_step in Hstep.
  assert (Hshape : map length Ac = map length A).
  { apply (for_each_returned (fun B => map length B = map length A) _ _ _ _ Hbefore);
      [reflexivity|].
    intros B1 k B2 _ HB Hk. rewrite scn_columns_step in Hk.
    apply scn_line_shape in Hk. congruence. }
  apply (scn_line_outside idx1 idx2 Ac Ac' r c); [|exact Hsome | exact Hstep].
  apply (shape_is_matrix r c A Ac HA Hshape).
Qed.

Lemma scn_func_needs_a_column_per_row_witness :
  scn_func [[1]; [2]]%float 0%float = Raise IndexError.
Proof.
  apply (scn_func_needs_a_column_per_row [[1]; [2]]%float 0%float 2 1); [|lia].
  split; [reflexivity|]. repeat constructor.
Defined.

(** ** [distance_law]: what it reads *)

Lemma diag_from_ext {A : Type} (rows rows' : list (list A)) (i : nat) :
  length rows = length rows' ->
  (forall k, rows !! k ≫= (fun row => row !! (i + k)) =
             rows' !! k ≫= (fun row => row !! (i + k))) ->
  diag_from rows i = diag_from rows' i.
Proof.
  revert rows' i; induction rows as [|row rows IH]; intros [|row' rows'] i Hlen Hext;
    simpl in Hlen; try discriminate; [reflexivity|].
  simpl. pose proof (Hext 0) as H0. simpl in H0. rewrite Nat.add_0_r in H0.
  rewrite H0. destruct (row' !! i); [|reflexivity]. f_equal.
  apply IH; [lia|]. intros k. specialize (Hext (S k)). simpl in Hext.
  replace (S i + k) with (i + S k) by lia. exact Hext.
Qed.

(** X4. [distance_law] reads the main diagonal and the entries below it,
    nothing else: two arrays with as many rows that agree on the
    entries [(i, j)] with [j <= i] have the same distance law, whatever
    their shapes and their entries above the diagonal. *)
Theorem distance_law_reads_lower_triangle (m m' : list (list float)) :
  length m = length m' ->
  (forall i j, j <= i -> entry m i j = entry m' i j) ->
  distance_law m = distance_law m'.
Proof.
  intros Hlen Hlow.
  assert (Hdiag : forall d, np_diag_lower m d = np_diag_lower m' d).
  { intros d. unfold np_diag_lower. apply diag_from_ext.
    - rewrite !length_drop. lia.
    - intros k. rewrite !lookup_drop. simpl. apply (Hlow (d + k) k). lia. }
  unfold distance_law. cbv zeta. rewrite <- Hlen.
  generalize (replicate (length m) 0%float). generalize (seq 0 (length m)).
  induction l as [|d l IH]; intros acc; simpl; [reflexivity|].
  rewrite Hdiag. apply IH.
Qed.

Lemma distance_law_reads_lower_triangle_witness :
  distance_law docstring_matrix = distance_law [[2; 0; 0]; [2; 3; 0]; [2; 3; 4]]%float.
Proof.
  apply (distance_law_reads_lower_triangle docstring_matrix
           [[2; 0; 0]; [2; 3; 0]; [2; 3; 4]]%float).
  - reflexivity.
  - intros i j Hij.
    destruct i as [|[|[|i]]]; destruct j as [|[|[|j]]]; try lia; reflexivity.
Defined.

Lemma fold_add_nan (l : list float) (acc : float) :
  acc = nan \/ nan ∈ l -> fold_left PrimFloat.add l acc = nan.
Proof.
  revert acc; induction l as [|x l IH]; intros acc [Hacc|Hin]; simpl.
  - exact Hacc.
  - inversion Hin.
  - apply IH. left. rewrite Hacc. apply add_nan_l.
  - apply elem_of_cons in Hin as [<-|Hin].
    + apply IH. left. apply add_nan_r.
    + apply IH. right. exact Hin.
Qed.

Lemma sum_lanes_nan (groups : nat) (r l : list float) :
  length r = 8 -> 8 * groups <= length l ->
  nan ∈ r \/ nan ∈ take (8 * groups) l ->
  nan ∈ sum_lanes groups r l /\ length (sum_lanes groups r l) = 8.
Proof.
  revert r l; induction groups as [|groups IH]; intros r l Hr Hlen Hin; simpl.
  - split; [|exact Hr]. destruct Hin as [Hin|Hin]; [exact Hin|].
    simpl in Hin. inversion Hin.
  - apply IH.
    + rewrite length_zip_with, length_take. lia.
    + rewrite length_drop. lia.
    + replace (8 * S groups) with (8 + 8 * groups) in Hin by lia.
      rewrite <- take_take_drop in Hin.
      assert (Hcases : (nan ∈ r \/ nan ∈ take 8 l) \/ nan ∈ take (8 * groups) (drop 8 l)).
      { destruct Hin as [Hin|Hin]; [tauto|]. apply elem_of_app in Hin. tauto. }
      destruct Hcases as [Hfirst|Hlater]; [left | right; exact Hlater].
      assert (Hk : exists k x y, r !! k = Some x /\ take 8 l !! k = Some y /\
                                 (x = nan \/ y = nan)).
      { destruct Hfirst as [Hin'|Hin']; apply list_elem_of_lookup in Hin' as [k Hk].
        - destruct (lookup_lt_is_Some_2 (take 8 l) k) as [y Hy].
          { rewrite length_take. apply lookup_lt_Some in Hk. lia. }
          exists k, nan, y. auto.
        - destruct (lookup_lt_is_Some_2 r k) as [x Hx].
          { apply lookup_lt_Some in Hk. rewrite length_take in Hk. lia. }
          exists k, x, nan. auto. }
      destruct Hk as (k & x & y & Hx & Hy & Hnan).
      apply list_elem_of_lookup. exists k. rewrite lookup_zip_with, Hx, Hy. simpl.
      f_equal. destruct Hnan as [-> | ->]; [apply add_nan_l | apply add_nan_r].
Qed.

Lemma combine_lanes_nan (r : list float) :
  length r = 8 -> nan ∈ r -> combine_lanes r = nan.
Proof.
  intros Hr Hin.
  destruct r as [|r0 [|r1 [|r2 [|r3 [|r4 [|r5 [|r6 [|r7 [|r8 r]]]]]]]]];
    simpl in Hr; try lia.
  simpl.
  repeat (apply elem_of_cons in Hin as [<-|Hin];
          [repeat (rewrite add_nan_l || rewrite add_nan_r); reflexivity|]).
  inversion Hin.
Qed.

Lemma block_sum_nan (l : list float) :
  8 <= length l -> nan ∈ l -> block_sum l = nan.
Proof.
  intros Hlen Hin. unfold block_sum. cbv zeta.
  pose proof (Nat.mod_upper_bound (length l) 8 ltac:(lia)) as Hmod.
  pose proof (Nat.div_mod_eq (length l) 8) as Hdiv.
  set (groups := (length l - length l mod 8) / 8 - 1).
  assert (Hgroups : 8 + 8 * groups = length l - length l mod 8).
  { unfold groups. replace (length l - length l mod 8) with (length l / 8 * 8) by lia.
    rewrite Nat.div_mul by lia. lia. }
  apply fold_add_nan.
  rewrite <- (take_drop (length l - length l mod 8) l) in Hin.
  apply elem_of_app in Hin as [Hin|Hin]; [left | right; exact Hin].
  apply combine_lanes_nan; apply (sum_lanes_nan groups (take 8 l) (drop 8 l)).
  1, 4: rewrite length_take; lia.
  1, 3: rewrite length_drop; lia.
  all: rewrite <- Hgroups, <- take_take_drop in Hin;
    apply elem_of_app in Hin; exact Hin.
Qed.

Lemma pairwise_sum_nan (fuel : nat) (l : list float) :
  nan ∈ l -> pairwise_sum fuel l = nan.
Proof.
  revert l; induction fuel as [|fuel IH]; intros l Hin; simpl.
  - destruct (decide (length l < 8)); [apply fold_add_nan; right; exact Hin|].
    destruct (decide (length l <= 128)); apply block_sum_nan; (lia || exact Hin).
  - destruct (decide (length l < 8)); [apply fold_add_nan; right; exact Hin|].
    destruct (decide (length l <= 128)); [apply block_sum_nan; (lia || exact Hin)|].
    match goal with
    | |- (pairwise_sum fuel ?a + pairwise_sum fuel ?b)%float = nan =>
        assert (Hsplit : nan ∈ a \/ nan ∈ b)
          by (apply elem_of_app; rewrite take_drop; exact Hin)
    end.
    destruct Hsplit as [H|H]; rewrite (IH _ H); [apply add_nan_l | apply add_nan_r].
Qed.

Lemma np_sum_nan (l : list float) (v : float) :
  v ∈ l -> PrimFloat.is_nan v = true -> np_sum l = nan.
Proof.
  intros Hin Hv. rewrite (is_nan_eq v Hv) in Hin.
  unfold np_sum. rewrite (pairwise_sum_nan _ l Hin). apply add_nan_r.
Qed.

(** X5. A not-a-number anywhere on the [d]-th lower diagonal of a square
    matrix makes entry [d] of the distance law not-a-number (the
    entries [detrend] then replaces by 0). *)
Theorem distance_law_nan_on_a_diagonal (m : list (list float)) (n d i : nat) (v : float) :
  is_matrix n n m -> d <= i < n ->
  entry m i (i - d) = Some v -> PrimFloat.is_nan v = true ->
  distance_law m !! d = Some nan.
Proof.
  intros Hm Hi Hv Hnan. pose proof Hm as [Hlen _].
  destruct (np_diag_lower_square m n d Hm) as [Hdiag _]; [lia|].
  unfold distance_law. cbv zeta.
  rewrite (insert_loop_lookup (fun diag => np_mean (np_diag_lower m diag)));
    [|lia | rewrite length_replicate; lia].
  f_equal. rewrite Hdiag. unfold np_mean.
  rewrite (np_sum_nan _ v); [apply div_nan_l | | exact Hnan].
  unfold lower_diagonal. apply list_elem_of_omap. exists i. split; [|exact Hv].
  apply elem_of_seq. lia.
Qed.

Lemma distance_law_nan_on_a_diagonal_witness :
  distance_law [[1; 2]; [nan; 3]]%float !! 1 = Some nan.
Proof.
  apply (distance_law_nan_on_a_diagonal [[1; 2]; [nan; 3]]%float 2 1 1 nan).
  - split; [reflexivity|]. repeat constructor.
  - lia.
  - reflexivity.
  - reflexivity.
Defined.

(** ** [despeckles]: the matrix it returns *)

Section Clipping.

Variable A : list (list float).

Variable n : nat.

Variable thr : nat -> float.

Hypothesis A_square : is_matrix n n A.

(** What holds between two tests of the clipping pass: an entry still
    has the value of the input, or it was above its threshold, is 0 now
    and is recorded; nothing else is recorded. *)
Let clipping (st : list (list float) * nat * list (nat * nat)) : Prop :=
  is_matrix n n st.1.1 /\
  (forall r c v, entry A r c = Some v ->
     entry st.1.1 r c = Some v \/
     (entry st.1.1 r c = Some 0%float /\
      (thr (diagonal_distance r c) <? v)%float = true /\ (r, c) ∈ st.2)) /\
  (forall r c, (r, c) ∈ st.2 ->
     exists v, entry A r c = Some v /\ (thr (diagonal_distance r c) <? v)%float = true).

(** The pixel [p] has been tested. *)
Let tested (p : nat * nat) (st : list (list float) * nat * list (nat * nat)) : Prop :=
  forall v, entry A p.1 p.2 = Some v ->
    entry st.1.1 p.1 p.2 = Some (clipped thr p.1 p.2 v) /\
    ((thr (diagonal_distance p.1 p.2) <? v)%float = true -> p ∈ st.2).

Lemma snapshot_clip_at_tested (nw j c : nat)
    (st : list (list float) * nat * list (nat * nat)) :
  j < n -> c < n -> nw = diagonal_distance j c -> clipping st ->
  exists st', snapshot_clip_at thr nw j c st = Ok st' /\ clipping st' /\
    tested (j, c) st' /\ forall p, tested p st -> tested p st'.
Proof.
  intros Hj Hc -> (HB & Hvals & Hout). destruct st as [[B n_speckles] outlier].
  simpl in *. unfold snapshot_clip_at.
  destruct (get2_total n n B j c HB Hj Hc) as (v & -> & Hv). simpl.
  destruct (get2_total n n A j c A_square Hj Hc) as (v0 & _ & Hv0).
  destruct (thr (diagonal_distance j c) <? v)%float eqn:Htest.
  - destruct (set2_total n n B j c 0%float HB Hj Hc) as (B' & -> & HB' & Hentries).
    simpl. eexists; split; [reflexivity|].
    assert (Hfirst : (thr (diagonal_distance j c) <? v0)%float = true).
    { destruct (Hvals j c v0 Hv0) as [H|(H & Hthr & _)]; [congruence | exact Hthr]. }
    split; [|split].
    + split; [exact HB'|]. simpl. split.
      * intros r c' w Hw. rewrite Hentries.
        destruct (decide (r = j /\ c' = c)) as [[-> ->]|Hne].
        -- right. split; [reflexivity|]. assert (w = v0) by congruence. subst w.
           split; [exact Hfirst|]. apply elem_of_app; right. left.
        -- destruct (Hvals r c' w Hw) as [H|(H & Hthr & Hin)]; [left; exact H|].
           right. split; [exact H|]. split; [exact Hthr|]. apply elem_of_app; left; exact Hin.
      * intros r c' Hin. apply elem_of_app in Hin as [Hin|Hin]; [apply Hout; exact Hin|].
        apply list_elem_of_singleton in Hin. injection Hin as -> ->. eauto.
    + intros w Hw; simpl in *. assert (w = v0) by congruence. subst w.
      rewrite Hentries. destruct (decide _) as [_|Hne]; [|tauto].
      unfold clipped. rewrite Hfirst. split; [reflexivity|].
      intros _. apply elem_of_app; right. left.
    + intros [r c'] Hp w Hw; simpl in *. destruct (Hp w Hw) as [Hval Hrec].
      rewrite Hentries. split.
      * destruct (decide (r = j /\ c' = c)) as [[-> ->]|Hne]; [|exact Hval].
        assert (w = v0) by congruence. subst w.
        unfold clipped. rewrite Hfirst. reflexivity.
      * intros Hthr. apply elem_of_app; left. apply Hrec, Hthr.
  - eexists; split; [reflexivity|].
    split; [split; [exact HB | split; [exact Hvals | exact Hout]]|].
    split; [|auto].
    intros w Hw; simpl in *. assert (w = v0) by congruence. subst w.
    destruct (Hvals j c v0 Hv0) as [H|(H & Hthr & Hin)].
    + assert (v = v0) by congruence. subst v.
      unfold clipped. rewrite Htest. split; [exact H|]. discriminate.
    + unfold clipped. rewrite Hthr. split; [exact H|]. intros _; exact Hin.
Qed.

Lemma snapshot_step_tested (nw j : nat)
    (st : list (list float) * nat * list (nat * nat)) :
  j < n -> nw < n -> clipping st ->
  exists st', snapshot_step thr n nw st j = Ok st' /\ clipping st' /\
    (forall p, (p = (j, j + nw) /\ j + nw < n) \/ (p = (j, j - nw) /\ nw <= j) ->
       tested p st') /\
    forall p, tested p st -> tested p st'.
Proof.
  intros Hj Hnw Hst. unfold snapshot_step.
  assert (Hfirst : exists st1,
    (if decide (j + nw < n) then snapshot_clip_at thr nw j (j + nw) st else Ok st) = Ok st1 /\
    clipping st1 /\ (j + nw < n -> tested (j, j + nw) st1) /\
    forall p, tested p st -> tested p st1).
  { destruct (decide (j + nw < n)) as [Hlp|Hlp].
    - destruct (snapshot_clip_at_tested nw j (j + nw) st) as (st1 & H1 & H2 & H3 & H4);
        [lia | lia | unfold diagonal_distance; lia | exact Hst |].
      exists st1. auto.
    - exists st. split; [reflexivity|]. split; [exact Hst|]. split; [lia | auto]. }
  destruct Hfirst as (st1 & -> & Hst1 & Hlp & Hkeep1). simpl.
  destruct (decide (nw <= j)) as [Hkp|Hkp].
  - destruct (snapshot_clip_at_tested nw j (j - nw) st1) as (st2 & H1 & H2 & H3 & H4);
      [lia | lia | unfold diagonal_distance; lia | exact Hst1 |].
    exists st2. split; [exact H1|]. split; [exact H2|]. split.
    + intros p [[-> Hlt]|[-> _]]; [apply H4, Hlp, Hlt | exact H3].
    + intros p Hp. apply H4, Hkeep1, Hp.
  - exists st1. split; [reflexivity|]. split; [exact Hst1|]. split.
    + intros p [[-> Hlt]|[-> Hle]]; [apply Hlp, Hlt | lia].
    + exact Hkeep1.
Qed.

Lemma snapshot_clip_tested :
  exists st', snapshot_clip thr n (A, 0, []) = Ok st' /\ clipping st' /\
    forall r c, r < n -> c < n -> tested (r, c) st'.
Proof.
  unfold snapshot_clip.
  destruct (for_each_marks_at clipping tested
    (fun nw p => exists j, j < n /\
       ((p = (j, j + nw) /\ j + nw < n) \/ (p = (j, j - nw) /\ nw <= j)))
    (seq 0 n)
    (fun st nw => for_each (seq 0 n) (snapshot_step thr n nw) st) (A, 0, []))
    as (st' & Hrun & Hst' & Hall & _).
  - split; [exact A_square|]. simpl. split; [auto|].
    intros r c Hin. inversion Hin.
  - intros st nw Hnw Hst. apply elem_of_seq in Hnw.
    destruct (for_each_marks_at clipping tested
      (fun j p => (p = (j, j + nw) /\ j + nw < n) \/ (p = (j, j - nw) /\ nw <= j))
      (seq 0 n) (snapshot_step thr n nw) st Hst) as (st1 & Hrun & Hst1 & Hall & Hkeep).
    { intros st2 j Hj Hst2. apply elem_of_seq in Hj.
      apply snapshot_step_tested; [lia | lia | exact Hst2]. }
    exists st1. split; [exact Hrun|]. split; [exact Hst1|]. split; [|exact Hkeep].
    intros p (j & Hj & Hp). apply (Hall j p); [apply elem_of_seq; lia | exact Hp].
  - exists st'. split; [exact Hrun|]. split; [exact Hst'|].
    intros r c Hr Hc. apply (Hall (diagonal_distance r c) (r, c)).
    + apply elem_of_seq. unfold diagonal_distance. lia.
    + exists r. split; [exact Hr|]. unfold diagonal_distance.
      destruct (decide (r <= c)).
      * left. split; [f_equal; lia | lia].
      * right. split; [f_equal; lia | lia].
Qed.

(** What the clipping pass returns. *)
Lemma snapshot_clip_result (B : list (list float)) (n_speckles : nat)
    (outlier : list (nat * nat)) :
  snapshot_clip thr n (A, 0, []) = Ok (B, n_speckles, outlier) ->
  is_matrix n n B /\
  (forall r c v, entry A r c = Some v -> entry B r c = Some (clipped thr r c v)) /\
  (forall r c, (r, c) ∈ outlier <->
     exists v, entry A r c = Some v /\ (thr (diagonal_distance r c) <? v)%float = true).
Proof.
  intros Hrun. destruct snapshot_clip_tested as (st' & Hrun' & (HB & _ & Hout) & Htested).
  rewrite Hrun in Hrun'. injection Hrun' as <-. simpl in *.
  split; [exact HB|]. split.
  - intros r c v Hv.
    destruct (entry_Some_lt n n A r c v A_square Hv) as [Hr Hc].
    apply (Htested r c Hr Hc v Hv).
  - intros r c. split; [apply Hout|].
    intros (v & Hv & Hthr).
    destruct (entry_Some_lt n n A r c v A_square Hv) as [Hr Hc].
    apply (Htested r c Hr Hc v Hv). exact Hthr.
Qed.

End Clipping.

Lemma diagonal_distance_sym (r c : nat) : diagonal_distance r c = diagonal_distance c r.
Proof. unfold diagonal_distance. lia. Qed.

(** What [despeckles] returns on a square matrix. *)
Lemma despeckles_result (A : list (list float)) (th2 : float) (n : nat) :
  is_matrix n n A ->
  exists dist A' n_speckles outlier,
    despeckles A th2 = Ok (dist, A', n_speckles, outlier) /\
    is_matrix n n A' /\
    (forall r c v, entry A r c = Some v ->
       entry A' r c = Some (clipped (snapshot_threshold A th2) r c v)) /\
    (forall r c, (r, c) ∈ outlier <->
       exists v, entry A r c = Some v /\
         (snapshot_threshold A th2 (diagonal_distance r c) <? v)%float = true).
Proof.
  intros HA.
  destruct (despeckles_run A th2 n HA) as (dist & A' & n_speckles & outlier & Hrun & _ & Hclip & _).
  exists dist, A', n_speckles, outlier. split; [exact Hrun|].
  apply (snapshot_clip_result A n (snapshot_threshold A th2) HA A' n_speckles outlier Hclip).
Qed.

(** X6. On a square matrix [despeckles] returns the matrix in which
    every value strictly above median + th2 * std of the distribution of
    its distance to the diagonal is replaced by 0 and every other value
    is kept, on both sides of the diagonal; the distribution of distance
    [nw] is read from the upper side, [A[j, j+nw]]. *)
Theorem despeckles_clips_each_pixel (A : list (list float)) (th2 : float) (n : nat) :
  is_matrix n n A ->
  exists dist A' n_speckles outlier,
    despeckles A th2 = Ok (dist, A', n_speckles, outlier) /\
    is_matrix n n A' /\
    forall r c v, entry A r c = Some v ->
      entry A' r c =
        Some (if (snapshot_threshold A th2 (diagonal_distance r c) <? v)%float
              then 0%float else v).
Proof.
  intros HA.
  destruct (despeckles_result A th2 n HA)
    as (dist & A' & n_speckles & outlier & Hrun & HA' & Hvals & _).
  exists dist, A', n_speckles, outlier. auto.
Qed.

Lemma despeckles_clips_each_pixel_witness :
  exists dist A' n_speckles outlier,
    despeckles speckled_matrix 1%float = Ok (dist, A', n_speckles, outlier) /\
    is_matrix 4 4 A' /\
    forall r c v, entry speckled_matrix r c = Some v ->
      entry A' r c =
        Some (if (snapshot_threshold speckled_matrix 1 (diagonal_distance r c) <? v)%float
              then 0%float else v).
Proof.
  apply (despeckles_clips_each_pixel speckled_matrix 1%float 4).
  split; [reflexivity|]. repeat constructor.
Defined.

(** X7. The list of outliers [despeckles] returns holds exactly the
    coordinates whose input value is strictly above the threshold of
    its diagonal, and every coordinate outside the list keeps its input
    value. *)
Theorem despeckles_records_what_it_clips (A : list (list float)) (th2 : float) (n : nat) :
  is_matrix n n A ->
  exists dist A' n_speckles outlier,
    despeckles A th2 = Ok (dist, A', n_speckles, outlier) /\
    (forall r c, (r, c) ∈ outlier <->
       exists v, entry A r c = Some v /\
         (snapshot_threshold A th2 (diagonal_distance r c) <? v)%float = true) /\
    (forall r c, (r, c) ∉ outlier -> entry A' r c = entry A r c).
Proof.
  intros HA.
  destruct (despeckles_result A th2 n HA)
    as (dist & A' & n_speckles & outlier & Hrun & HA' & Hvals & Hout).
  exists dist, A', n_speckles, outlier. split; [exact Hrun|]. split; [exact Hout|].
  intros r c Hnot. destruct (entry A r c) as [v|] eqn:Hv.
  - rewrite (Hvals r c v Hv). unfold clipped.
    destruct (snapshot_threshold A th2 (diagonal_distance r c) <? v)%float eqn:Hthr;
      [|reflexivity].
    exfalso. apply Hnot. apply Hout. eauto.
  - apply (entry_None_outside n n A' r c HA'). apply (entry_None_outside n n A r c HA). exact Hv.
Qed.

Lemma despeckles_records_what_it_clips_witness :
  exists dist A' n_speckles outlier,
    despeckles speckled_matrix 1%float = Ok (dist, A', n_speckles, outlier) /\
    (forall r c, (r, c) ∈ outlier <->
       exists v, entry speckled_matrix r c = Some v /\
         (snapshot_threshold speckled_matrix 1 (diagonal_distance r c) <? v)%float = true) /\
    (forall r c, (r, c) ∉ outlier -> entry A' r c = entry speckled_matrix r c).
Proof.
  apply (despeckles_records_what_it_clips speckled_matrix 1%float 4).
  split; [reflexivity|]. repeat constructor.
Defined.

(** X8. [despeckles] keeps a symmetric matrix symmetric. *)
Theorem despeckles_keeps_symmetry (A : list (list float)) (th2 : float) (n : nat) :
  is_matrix n n A -> symmetric A ->
  exists dist A' n_speckles outlier,
    despeckles A th2 = Ok (dist, A', n_speckles, outlier) /\ symmetric A'.
Proof.
  intros HA Hsym.
  destruct (despeckles_result A th2 n HA)
    as (dist & A' & n_speckles & outlier & Hrun & HA' & Hvals & _).
  exists dist, A', n_speckles, outlier. split; [exact Hrun|].
  intros i j. destruct (entry A i j) as [v|] eqn:Hv.
  - rewrite (Hvals i j v Hv). rewrite Hsym in Hv. rewrite (Hvals j i v Hv).
    unfold clipped. rewrite (diagonal_distance_sym j i). reflexivity.
  - assert (Hv' : entry A j i = None) by (rewrite <- Hsym; exact Hv).
    apply (entry_None_outside n n A i j HA) in Hv.
    apply (entry_None_outside n n A j i HA) in Hv'.
    apply (entry_None_outside n n A' i j HA') in Hv.
    apply (entry_None_outside n n A' j i HA') in Hv'. congruence.
Qed.

Lemma despeckles_keeps_symmetry_witness :
  symmetric speckled_matrix /\
  exists dist A' n_speckles outlier,
    despeckles speckled_matrix 1%float = Ok (dist, A', n_speckles, outlier) /\ symmetric A'.
Proof.
  assert (Hsym : symmetric speckled_matrix).
  { intros i j.
    destruct i as [|[|[|[|i]]]]; destruct j as [|[|[|[|j]]]]; reflexivity. }
  split; [exact Hsym|].
  apply (despeckles_keeps_symmetry speckled_matrix 1%float 4); [|exact Hsym].
  split; [reflexivity|]. repeat constructor.
Defined.

Lemma np_median_nan (l : list float) (v : float) :
  v ∈ l -> PrimFloat.is_nan v = true -> np_median l = nan.
Proof.
  intros Hin Hv. unfold np_median.
  assert (H : existsb PrimFloat.is_nan l = true).
  { apply existsb_exists. exists v. split; [apply list_elem_of_In; exact Hin | exact Hv]. }
  rewrite H. reflexivity.
Qed.

(** X9. When the values [A[j, j+nw]] of a distance [nw] hold a
    not-a-number, the median of that distance is not-a-number, no value
    compares above the threshold, and [despeckles] leaves every pixel at
    distance [nw] of the diagonal as it was and records none of them. *)
Theorem despeckles_skips_diagonals_with_nan (A : list (list float)) (th2 : float)
    (n nw j : nat) (v : float) :
  is_matrix n n A ->
  j + nw < n -> entry A j (j + nw) = Some v -> PrimFloat.is_nan v = true ->
  exists dist A' n_speckles outlier,
    despeckles A th2 = Ok (dist, A', n_speckles, outlier) /\
    forall r c, diagonal_distance r c = nw ->
      entry A' r c = entry A r c /\ (r, c) ∉ outlier.
Proof.
  intros HA Hj Hv Hnan. pose proof HA as [Hlen _].
  destruct (despeckles_result A th2 n HA)
    as (dist & A' & n_speckles & outlier & Hrun & HA' & Hvals & Hout).
  exists dist, A', n_speckles, outlier. split; [exact Hrun|].
  assert (Hthr : snapshot_threshold A th2 nw = nan).
  { unfold snapshot_threshold. rewrite (np_median_nan _ v); [apply add_nan_l | | exact Hnan].
    unfold snapshot_values. apply list_elem_of_omap. exists j. split; [|exact Hv].
    apply elem_of_seq. lia. }
  intros r c Hd. split.
  - destruct (entry A r c) as [w|] eqn:Hw.
    + rewrite (Hvals r c w Hw). unfold clipped. rewrite Hd, Hthr, ltb_nan_l. reflexivity.
    + apply (entry_None_outside n n A' r c HA'). apply (entry_None_outside n n A r c HA).
      exact Hw.
  - intros Hin. apply Hout in Hin as (w & _ & Hlt).
    rewrite Hd, Hthr, ltb_nan_l in Hlt. discriminate.
Qed.

Lemma despeckles_skips_diagonals_with_nan_witness :
  exists dist A' n_speckles outlier,
    despeckles [[1; nan]; [50; 1]]%float 0%float = Ok (dist, A', n_speckles, outlier) /\
    forall r c, diagonal_distance r c = 1 ->
      entry A' r c = entry [[1; nan]; [50; 1]]%float r c /\ (r, c) ∉ outlier.
Proof.
  apply (despeckles_skips_diagonals_with_nan [[1; nan]; [50; 1]]%float 0%float 2 1 0 nan).
  - split; [reflexivity|]. repeat constructor.
  - lia.
  - reflexivity.
  - reflexivity.
Defined.

(** ** [picker]: the pixel kept for a feature *)

Lemma picker_feature_chosen (probas : list (list float)) (candidate_p : list (list bool))
    (labelled_mat : list (list nat)) (N k : nat)
    (st st' : list (nat * nat) * list bool) :
  k < N -> length st.1 = N -> length st.2 = N ->
  picker_feature probas candidate_p labelled_mat st k = Ok st' ->
  length st'.1 = N /\ length st'.2 = N /\
  (forall n, n <> k -> st'.1 !! n = st.1 !! n /\ st'.2 !! n = st.2 !! n) /\
  (st'.2 !! k = Some true \/
   (st'.2 !! k = st.2 !! k /\
    exists c, st'.1 !! k = Some c /\ picker_choice probas labelled_mat k c)).
Proof.
  intros Hk Hlen1 Hlen2 Hrun. destruct st as [ijs remove_p]. simpl in *.
  unfold picker_feature in Hrun.
  apply bind_Ok in Hrun as (cand & Hcand & Hrun).
  assert (Hremoved : forall st1 : list (nat * nat) * list bool,
    st1 = (ijs, <[k := true]> remove_p) ->
    length st1.1 = N /\ length st1.2 = N /\
    (forall n, n <> k -> st1.1 !! n = ijs !! n /\ st1.2 !! n = remove_p !! n) /\
    (st1.2 !! k = Some true \/
     (st1.2 !! k = remove_p !! k /\
      exists c, st1.1 !! k = Some c /\ picker_choice probas labelled_mat k c))).
  { intros st1 ->; simpl. split; [exact Hlen1|]. split; [rewrite length_insert; exact Hlen2|].
    split.
    - intros n Hn. split; [reflexivity|]. apply list_lookup_insert_ne. congruence.
    - left. apply list_lookup_insert_eq. lia. }
  destruct (decide (length (filter _ cand) = 0)) as [Hnone|Hsome];
    [injection Hrun as <-; auto|].
  destruct (decide (bool_sum _ = 1)) as [Hone|Hmany]; [injection Hrun as <-; auto|].
  apply bind_Ok in Hrun as (vals & Hvals & Hrun).
  apply bind_Ok in Hrun as (ijmax & Hijmax & Hrun).
  apply bind_Ok in Hrun as (ij & Hij & [= <-]). simpl.
  split; [rewrite length_insert; exact Hlen1|]. split; [exact Hlen2|]. split.
  - intros n Hn. split; [|reflexivity]. apply list_lookup_insert_ne. congruence.
  - right. split; [reflexivity|]. exists ij.
    split; [apply list_lookup_insert_eq; lia|].
    split; [exact Hmany|]. exists vals, ijmax.
    split; [exact Hvals|]. split; [exact Hijmax|].
    unfold get1 in Hij. destruct (_ !! ijmax) as [q|]; [|discriminate].
    injection Hij as ->. reflexivity.
Qed.

Lemma picker_loop_chosen (probas : list (list float)) (candidate_p : list (list bool))
    (labelled_mat : list (list nat)) (N : nat) (ijs : list (nat * nat))
    (remove_p : list bool) :
  for_each (seq 0 N) (picker_feature probas candidate_p labelled_mat)
    (replicate N (0, 0), replicate N false) = Ok (ijs, remove_p) ->
  forall k c, ijs !! k = Some c -> remove_p !! k = Some false ->
    picker_choice probas labelled_mat k c.
Proof.
  intros Hloop.
  pose proof (for_each_seq_returned
    (fun k (st : list (nat * nat) * list bool) =>
       length st.1 = N /\ length st.2 = N /\
       (forall n, k <= n -> n < N -> st.2 !! n = Some false) /\
       forall n c, n < k -> st.1 !! n = Some c -> st.2 !! n = Some false ->
         picker_choice probas labelled_mat n c)
    0 N _ _ _ Hloop) as Hinv.
  simpl in Hinv. destruct Hinv as (Hlen1 & _ & _ & Hinv).
  - rewrite !length_replicate. split; [reflexivity|]. split; [reflexivity|]. split.
    + intros n _ Hn. apply lookup_replicate_2. exact Hn.
    + intros n c Hn; lia.
  - intros k st st1 Hk (Hl1 & Hl2 & Hfresh & Hdone) Hbody.
    destruct (picker_feature_chosen probas candidate_p labelled_mat N k st st1)
      as (Hl1' & Hl2' & Hother & Hself); [lia | exact Hl1 | exact Hl2 | exact Hbody |].
    split; [exact Hl1'|]. split; [exact Hl2'|]. split.
    + intros n Hn HnN. destruct (Hother n) as [_ ->]; [lia|]. apply Hfresh; lia.
    + intros n c Hn Hc Hr. destruct (decide (n = k)) as [->|Hne].
      * destruct Hself as [Hrem|(_ & c' & Hc' & Hchoice)]; [congruence|].
        assert (c = c') by congruence. subst c'. exact Hchoice.
      * destruct (Hother n Hne) as [E1 E2]. rewrite E1 in Hc. rewrite E2 in Hr.
        apply (Hdone n c); [lia | exact Hc | exact Hr].
  - intros k c Hc Hr. apply (Hinv k c); [|exact Hc | exact Hr].
    apply lookup_lt_Some in Hc. lia.
Qed.

Lemma select_kept_cons {A : Type} (x : A) (a : list A) (r : bool) (remove_p : list bool) :
  select_kept (x :: a) (r :: remove_p) =
    if r then select_kept a remove_p else x :: select_kept a remove_p.
Proof. unfold select_kept. simpl. destruct r; reflexivity. Qed.

Lemma select_kept_NoDup {A : Type} (a : list A) (remove_p : list bool) :
  (forall k1 k2 x, a !! k1 = Some x -> remove_p !! k1 = Some false ->
     a !! k2 = Some x -> remove_p !! k2 = Some false -> k1 = k2) ->
  NoDup (select_kept a remove_p).
Proof.
  revert remove_p; induction a as [|x a IH]; intros remove_p Hinj.
  - unfold select_kept; simpl. constructor.
  - destruct remove_p as [|r remove_p]; [unfold select_kept; simpl; constructor|].
    rewrite select_kept_cons.
    assert (Hrest : NoDup (select_kept a remove_p)).
    { apply IH. intros k1 k2 y H1 H2 H3 H4.
      assert (S k1 = S k2) by (apply (Hinj (S k1) (S k2) y); assumption). lia. }
    destruct r; [exact Hrest|]. constructor; [|exact Hrest].
    intros Hin. apply select_kept_elem in Hin as (k & Hk & Hkept).
    assert (0 = S k) by (apply (Hinj 0 (S k) x); auto). lia.
Qed.

(** What a call of [picker] that returns coordinates has gone through. *)
Lemma picker_returned (label : list (list bool) -> list (list nat) * nat)
    (probas : list (list float)) (thres : float) (ijs : list (nat * nat)) :
  picker label probas thres = Ok (Coords ijs) ->
  exists ijs0 remove_p,
    ijs = select_kept ijs0 remove_p /\
    forall k c, ijs0 !! k = Some c -> remove_p !! k = Some false ->
      picker_choice probas (picker_labels label probas thres) k c.
Proof.
  intros Hret.
  assert (Hrange : ~ out_of_range probas).
  { intros Hbad.
    destruct (picker_guard_fails label probas thres Hbad) as [H|H]; congruence. }
  rewrite (picker_guard_passes label probas thres Hrange) in Hret. cbv zeta in Hret.
  destruct (decide (0 < length _)) as [_|]; [|discriminate].
  unfold picker_labels.
  destruct (label (candidate_mask _)) as [labelled_mat num_features]. simpl.
  apply bind_Ok in Hret as ([ijs0 remove_p] & Hloop & [= <-]).
  exists ijs0, remove_p. split; [reflexivity|].
  eapply picker_loop_chosen. exact Hloop.
Qed.

(** The pixel kept for feature [ff] carries the number [ff + 1]. *)
Lemma picker_choice_label (probas : list (list float)) (labelled_mat : list (list nat))
    (ff : nat) (c : nat * nat) :
  picker_choice probas labelled_mat ff c ->
  entry labelled_mat c.1 c.2 = Some (ff + 1).
Proof.
  intros (_ & vals & ijmax & _ & _ & Hc). destruct c as [i j]. simpl.
  assert (Hin : (i, j) ∈ np_where id
            (map (map (fun l => bool_decide (l = ff + 1))) labelled_mat))
    by (apply list_elem_of_lookup; eauto).
  apply np_where_elem in Hin as (b & Hb & Htrue). simpl in Htrue. subst b.
  rewrite entry_map in Hb.
  destruct (entry labelled_mat i j) as [l|]; simpl in Hb; [|discriminate].
  injection Hb as Hb. apply bool_decide_eq_true in Hb. congruence.
Qed.

Lemma feature_pixel_where (labelled_mat : list (list nat)) (l i j : nat) :
  (i, j) ∈ np_where id (map (map (fun k => bool_decide (k = l))) labelled_mat) <->
  entry labelled_mat i j = Some l.
Proof.
  rewrite np_where_elem. rewrite entry_map. split.
  - intros (b & Hb & Htrue). simpl in Htrue. subst b.
    destruct (entry labelled_mat i j) as [k|]; simpl in Hb; [|discriminate].
    injection Hb as Hb. apply bool_decide_eq_true in Hb. congruence.
  - intros ->. exists true. simpl. split; [|reflexivity].
    f_equal. apply bool_decide_eq_true. reflexivity.
Qed.

(** X10. The coordinates [picker] returns are pairwise distinct, each
    carries a number other than 0 in the labelled array, and no two of
    them carry the same number: at most one pixel is kept per feature.
    Nothing is assumed about the labelling routine. *)
Theorem picker_keeps_one_pixel_per_feature
    (label : list (list bool) -> list (list nat) * nat)
    (probas : list (list float)) (thres : float) (ijs : list (nat * nat)) :
  picker label probas thres = Ok (Coords ijs) ->
  NoDup ijs /\
  (forall i j, (i, j) ∈ ijs ->
     exists l, l <> 0 /\ entry (picker_labels label probas thres) i j = Some l) /\
  (forall p q l, p ∈ ijs -> q ∈ ijs ->
     entry (picker_labels label probas thres) p.1 p.2 = Some l ->
     entry (picker_labels label probas thres) q.1 q.2 = Some l -> p = q).
Proof.
  intros Hret. destruct (picker_returned label probas thres ijs Hret)
    as (ijs0 & remove_p & -> & Hchoice).
  split; [|split].
  - apply select_kept_NoDup. intros k1 k2 c H1 H2 H3 H4.
    pose proof (picker_choice_label _ _ _ _ (Hchoice k1 c H1 H2)) as L1.
    pose proof (picker_choice_label _ _ _ _ (Hchoice k2 c H3 H4)) as L2.
    rewrite L1 in L2. injection L2 as L2. lia.
  - intros i j Hin. apply select_kept_elem in Hin as (k & Hk & Hkept).
    exists (k + 1). split; [lia|].
    apply (picker_choice_label _ _ _ _ (Hchoice k (i, j) Hk Hkept)).
  - intros p q l Hp Hq Lp Lq.
    apply select_kept_elem in Hp as (k1 & Hk1 & Hkept1).
    apply select_kept_elem in Hq as (k2 & Hk2 & Hkept2).
    pose proof (picker_choice_label _ _ _ _ (Hchoice k1 p Hk1 Hkept1)) as L1.
    pose proof (picker_choice_label _ _ _ _ (Hchoice k2 q Hk2 Hkept2)) as L2.
    assert (k1 = k2) by (rewrite L1 in Lp; rewrite L2 in Lq; injection Lp; injection Lq; lia).
    subst k2. congruence.
Qed.

Lemma picker_keeps_one_pixel_per_feature_witness :
  picker reference_label [[0.9; 0.95; 0; 0.85; 0.9]]%float 0.8%float
    = Ok (Coords [(0, 1); (0, 4)]) /\
  NoDup [(0, 1); (0, 4)] /\
  (forall i j, (i, j) ∈ [(0, 1); (0, 4)] ->
     exists l, l <> 0 /\
       entry (picker_labels reference_label [[0.9; 0.95; 0; 0.85; 0.9]]%float 0.8%float) i j
         = Some l) /\
  (forall p q l, p ∈ [(0, 1); (0, 4)] -> q ∈ [(0, 1); (0, 4)] ->
     entry (picker_labels reference_label [[0.9; 0.95; 0; 0.85; 0.9]]%float 0.8%float)
       p.1 p.2 = Some l ->
     entry (picker_labels reference_label [[0.9; 0.95; 0; 0.85; 0.9]]%float 0.8%float)
       q.1 q.2 = Some l -> p = q).
Proof.
  assert (Hrun : picker reference_label [[0.9; 0.95; 0; 0.85; 0.9]]%float 0.8%float
                 = Ok (Coords [(0, 1); (0, 4)])) by (vm_compute; reflexivity).
  split; [exact Hrun|].
  apply (picker_keeps_one_pixel_per_feature reference_label
           [[0.9; 0.95; 0; 0.85; 0.9]]%float 0.8%float [(0, 1); (0, 4)] Hrun).
Defined.

(** X11. On a map without not-a-number, every coordinate [picker]
    returns holds the largest probability of its feature: every pixel
    that carries the same number in the labelled array has a
    probability that is at most the one at the coordinate. Nothing is
    assumed about the labelling routine. *)
Theorem picker_keeps_feature_maximum (label : list (list bool) -> list (list nat) * nat)
    (probas : list (list float)) (thres : float) (ijs : list (nat * nat)) :
  (forall i j v, entry probas i j = Some v -> PrimFloat.is_nan v = false) ->
  picker label probas thres = Ok (Coords ijs) ->
  forall i j, (i, j) ∈ ijs ->
    exists l v, l <> 0 /\
      entry (picker_labels label probas thres) i j = Some l /\
      entry probas i j = Some v /\
      forall i' j', entry (picker_labels label probas thres) i' j' = Some l ->
        exists v', entry probas i' j' = Some v' /\ (v' <=? v)%float = true.
Proof.
  intros Hnum Hret i j Hin.
  destruct (picker_returned label probas thres ijs Hret)
    as (ijs0 & remove_p & -> & Hchoice).
  apply select_kept_elem in Hin as (k & Hk & Hkept).
  pose proof (Hchoice k (i, j) Hk Hkept) as Hc.
  pose proof (picker_choice_label _ _ _ _ Hc) as Hlabel. simpl in Hlabel.
  destruct Hc as (_ & vals & ijmax & Hvals & Hargmax & Hpix).
  set (L := picker_labels label probas thres) in *.
  set (pixels := np_where id (map (map (fun l => bool_decide (l = k + 1))) L)) in *.
  destruct (proj1 (py_mapM_lookup _ _ _ ijmax Hvals) (i, j) Hpix) as (v & Hv & Hget).
  apply get2_Ok in Hget.
  exists (k + 1), v. split; [lia|]. split; [exact Hlabel|]. split; [exact Hget|].
  assert (Hall : Forall (fun v => PrimFloat.is_nan v = false) vals).
  { apply Forall_lookup. intros n w Hw.
    destruct (proj2 (py_mapM_lookup _ _ _ n Hvals) w Hw) as ([a b] & _ & Hab).
    apply get2_Ok in Hab. eapply Hnum; exact Hab. }
  assert (Hne : vals <> []) by (intros ->; discriminate).
  destruct (np_argmax_max vals Hne Hall) as (k' & vb & Hk' & Hvb & Hmax).
  assert (k' = ijmax) by congruence. subst k'.
  assert (vb = v) by congruence. subst vb.
  intros i' j' Hl'.
  assert (Hin' : (i', j') ∈ pixels) by (apply feature_pixel_where; exact Hl').
  apply list_elem_of_lookup in Hin' as [n Hn].
  destruct (proj1 (py_mapM_lookup _ _ _ n Hvals) (i', j') Hn) as (v' & Hv' & Hget').
  apply get2_Ok in Hget'. exists v'. split; [exact Hget'|].
  apply Hmax. apply list_elem_of_lookup. eauto.
Qed.

Lemma picker_keeps_feature_maximum_witness :
  picker reference_label example_probas 0.8%float = Ok (Coords [(3, 2)]) /\
  forall i j, (i, j) ∈ [(3, 2)] ->
    exists l v, l <> 0 /\
      entry (picker_labels reference_label example_probas 0.8%float) i j = Some l /\
      entry example_probas i j = Some v /\
      forall i' j',
        entry (picker_labels reference_label example_probas 0.8%float) i' j' = Some l ->
        exists v', entry example_probas i' j' = Some v' /\ (v' <=? v)%float = true.
Proof.
  assert (Hrun : picker reference_label example_probas 0.8%float = Ok (Coords [(3, 2)]))
    by (vm_compute; reflexivity).
  split; [exact Hrun|].
  apply (picker_keeps_feature_maximum reference_label example_probas 0.8%float
           [(3, 2)]); [|exact Hrun].
  intros i j v Hv.
  assert (Hunit : in_unit_interval example_probas)
    by (apply in_unit_interval_check; vm_compute; reflexivity).
  destruct (Hunit i j v Hv) as [H0 _]. apply leb_is_number in H0. apply H0.
Defined.

(** X12. [picker] returns no pixel that is a feature on its own: for
    every coordinate it returns, another pixel carries the same number
    in the labelled array. *)
Theorem picker_drops_single_pixels (label : list (list bool) -> list (list nat) * nat)
    (probas : list (list float)) (thres : float) (ijs : list (nat * nat)) :
  picker label probas thres = Ok (Coords ijs) ->
  forall i j, (i, j) ∈ ijs ->
    exists l i' j', l <> 0 /\ (i', j') <> (i, j) /\
      entry (picker_labels label probas thres) i j = Some l /\
      entry (picker_labels label probas thres) i' j' = Some l.
Proof.
  intros Hret i j Hin.
  destruct (picker_returned label probas thres ijs Hret)
    as (ijs0 & remove_p & -> & Hchoice).
  apply select_kept_elem in Hin as (k & Hk & Hkept).
  pose proof (Hchoice k (i, j) Hk Hkept) as Hc.
  pose proof (picker_choice_label _ _ _ _ Hc) as Hlabel. simpl in Hlabel.
  destruct Hc as (Hmany & vals & ijmax & Hvals & Hargmax & Hpix).
  set (L := picker_labels label probas thres) in *.
  rewrite bool_sum_np_where in Hmany.
  set (pixels := np_where id (map (map (fun l => bool_decide (l = k + 1))) L)) in *.
  assert (Hlen : 2 <= length pixels).
  { apply lookup_lt_Some in Hpix. lia. }
  assert (Hother : exists n, n <> ijmax /\ n < length pixels).
  { destruct (decide (ijmax = 0)); [exists 1 | exists 0]; lia. }
  destruct Hother as (n & Hn & Hlt).
  destruct (lookup_lt_is_Some_2 pixels n Hlt) as [[i' j'] Hq].
  exists (k + 1), i', j'. split; [lia|]. split.
  - intros Heq. rewrite Heq in Hq.
    apply Hn. apply (NoDup_lookup pixels n ijmax (i, j)); [|exact Hq | exact Hpix].
    apply np_where_NoDup.
  - split; [exact Hlabel|].
    apply (feature_pixel_where L (k + 1)). apply list_elem_of_lookup. eauto.
Qed.

Lemma picker_drops_single_pixels_witness :
  picker reference_label example_probas 0.8%float = Ok (Coords [(3, 2)]) /\
  forall i j, (i, j) ∈ [(3, 2)] ->
    exists l i' j', l <> 0 /\ (i', j') <> (i, j) /\
      entry (picker_labels reference_label example_probas 0.8%float) i j = Some l /\
      entry (picker_labels reference_label example_probas 0.8%float) i' j' = Some l.
Proof.
  assert (Hrun : picker reference_label example_probas 0.8%float = Ok (Coords [(3, 2)]))
    by (vm_compute; reflexivity).
  split; [exact Hrun|].
  apply (picker_drops_single_pixels reference_label example_probas 0.8%float
           [(3, 2)] Hrun).
Defined.

(** X13. With a threshold of 1 or more [picker] never returns
    coordinates: it returns ["NA"] or raises the [ValueError] of its
    sanity check, whatever the map and the labelling routine. *)
Theorem picker_picks_nothing_from_one_upwards
    (label : list (list bool) -> list (list nat) * nat)
    (probas : list (list float)) (thres : float) :
  (1 <=? thres)%float = true ->
  picker label probas thres = Ok NA \/
  exists msg, picker label probas thres = Raise (ValueError msg).
Proof.
  intros Hthres. unfold picker.
  destruct (np_any (fun v => (1 <? v)%float) probas) eqn:Hhigh; [right; eauto|].
  destruct (np_any (fun v => (v <? 0)%float) probas) eqn:Hlow; [right; eauto|].
  left. cbv zeta.
  destruct (np_where (fun v => (thres <? v)%float) probas) as [|[i j] raw] eqn:Hraw;
    [reflexivity|].
  exfalso.
  assert (Hin : (i, j) ∈ np_where (fun v => (thres <? v)%float) probas)
    by (rewrite Hraw; left).
  apply np_where_elem in Hin as (v & Hv & Hp).
  assert (Htrue : np_any (fun v => (1 <? v)%float) probas = true).
  { apply np_any_true. exists i, j, v. split; [exact Hv|].
    apply (leb_ltb_trans 1 thres v Hthres Hp). }
  congruence.
Qed.

Lemma picker_picks_nothing_from_one_upwards_witness :
  picker reference_label example_probas 1%float = Ok NA \/
  exists msg, picker reference_label example_probas 1%float = Raise (ValueError msg).
Proof.
  apply (picker_picks_nothing_from_one_upwards reference_label example_probas 1%float).
  reflexivity.
Defined.

(** ** [detrend]: the values it returns *)

Lemma distance_law_matrix_entries (n : nat) (y_savgol : list float) :
  length y_savgol = n ->
  exists D,
    for_each (seq 0 n) (fun D i =>
      for_each (seq 0 n) (fun D j =>
        v ← get1 y_savgol (Z.abs_nat (Z.of_nat j - Z.of_nat i));
        set2 D i j v) D) (np_zeros n n) = Ok D /\
    is_matrix n n D /\
    forall i j, i < n -> j < n -> entry D i j = y_savgol !! diagonal_distance i j.
Proof.
  intros Hy.
  destruct (for_each_marks_at (is_matrix n n)
    (fun (p : nat * nat) (D : list (list float)) =>
       entry D p.1 p.2 = y_savgol !! diagonal_distance p.1 p.2)
    (fun i p => p.1 = i /\ p.2 < n)
    (seq 0 n)
    (fun D i =>
      for_each (seq 0 n) (fun D j =>
        v ← get1 y_savgol (Z.abs_nat (Z.of_nat j - Z.of_nat i));
        set2 D i j v) D) (np_zeros n n)) as (D & Hrun & HD & Hall & _).
  - apply has_entries_zeros.
  - intros D i Hi HD. apply elem_of_seq in Hi.
    destruct (for_each_marks_at (is_matrix n n)
      (fun (p : nat * nat) (D : list (list float)) =>
         entry D p.1 p.2 = y_savgol !! diagonal_distance p.1 p.2)
      (fun j p => p = (i, j))
      (seq 0 n)
      (fun D j =>
        v ← get1 y_savgol (Z.abs_nat (Z.of_nat j - Z.of_nat i));
        set2 D i j v) D HD) as (D1 & Hrun & HD1 & Hall & Hkeep).
    + intros D2 j Hj HD2. apply elem_of_seq in Hj.
      assert (Hd : Z.abs_nat (Z.of_nat j - Z.of_nat i) = diagonal_distance i j)
        by (unfold diagonal_distance; lia).
      rewrite Hd. unfold get1.
      destruct (lookup_lt_is_Some_2 y_savgol (diagonal_distance i j)) as [v Hv];
        [unfold diagonal_distance; lia|].
      rewrite Hv. simpl.
      destruct (set2_total n n D2 i j v HD2) as (D3 & -> & HD3 & Hentries); [lia | lia |].
      exists D3. split; [reflexivity|]. split; [exact HD3|]. split.
      * intros p ->. simpl. rewrite Hentries.
        destruct (decide _) as [_|Hne]; [congruence | tauto].
      * intros [a b] Hp. simpl in *. rewrite Hentries.
        destruct (decide _) as [[-> ->]|_]; [congruence | exact Hp].
    + exists D1. split; [exact Hrun|]. split; [exact HD1|]. split; [|exact Hkeep].
      intros [a b] [Ha Hb]. simpl in *. subst a.
      apply (Hall b (i, b)); [apply elem_of_seq; lia | reflexivity].
  - exists D. split; [exact Hrun|]. split; [exact HD|].
    intros i j Hi Hj. apply (Hall i (i, j)); [apply elem_of_seq; lia | simpl; auto].
Qed.

Lemma assign_rows_other (m m' : list (list float)) (rows : list nat)
    (block : list (list float)) :
  assign_rows m rows block = Ok m' ->
  forall i, i ∉ rows -> m' !! i = m !! i.
Proof.
  intros Hrun. unfold assign_rows in Hrun.
  apply (for_each_returned (fun m1 => forall i, i ∉ rows -> m1 !! i = m !! i)
           _ _ _ _ Hrun); [reflexivity|].
  intros m1 [b row] m2 Hin Hm1 Hset i Hi.
  unfold set_row in Hset. destruct (m1 !! b) as [old|]; [|discriminate].
  destruct (decide _); [|discriminate]. injection Hset as <-.
  apply elem_of_zip_l in Hin.
  rewrite list_lookup_insert_ne by (intros ->; contradiction). apply Hm1, Hi.
Qed.

Lemma set_col_other (m m' : list (list float)) (j : nat) (col : list float) :
  set_col m j col = Ok m' ->
  forall a b, b <> j -> entry m' a b = entry m a b.
Proof.
  intros Hrun a b Hb. unfold set_col in Hrun.
  destruct (decide _); [|discriminate].
  apply (for_each_returned (fun m1 => entry m1 a b = entry m a b) _ _ _ _ Hrun);
    [reflexivity|].
  intros m1 [i v] m2 _ Hm1 Hset.
  apply set2_returned in Hset as [_ Hentries]. rewrite Hentries.
  destruct (decide _) as [[_ ->]|_]; [contradiction | exact Hm1].
Qed.

Lemma assign_cols_other (m m' : list (list float)) (cols : list nat)
    (block : list (list float)) :
  assign_cols m cols block = Ok m' ->
  forall a b, b ∉ cols -> entry m' a b = entry m a b.
Proof.
  intros Hrun a b Hb. unfold assign_cols in Hrun.
  apply (for_each_returned (fun m1 => entry m1 a b = entry m a b) _ _ _ _ Hrun);
    [reflexivity|].
  intros m1 [k j] m2 Hin Hm1 Hstep.
  apply bind_Ok in Hstep as (col & _ & Hset).
  apply elem_of_lookup_imap in Hin as (k' & j' & [= -> ->] & Hk).
  rewrite (set_col_other m1 m2 j' col Hset a b); [exact Hm1|].
  intros ->. apply Hb. apply list_elem_of_lookup. eauto.
Qed.

Lemma np_divide_entry (a b q : list (list float)) (i j : nat) (x y : float) :
  np_divide a b = Ok q -> entry a i j = Some x -> entry b i j = Some y ->
  entry q i j = Some (x / y)%float.
Proof.
  unfold np_divide. destruct (decide _); [|discriminate]. intros [= <-] Hx Hy.
  unfold entry in *. rewrite lookup_zip_with.
  destruct (a !! i) as [ra|]; simpl in *; [|discriminate].
  destruct (b !! i) as [rb|]; simpl in *; [|discriminate].
  rewrite lookup_zip_with, Hx, Hy. reflexivity.
Qed.

(** X14. On a square matrix with at least 17 bins, at every position
    [(i, j)] whose row and column are not those of a poor bin, [detrend]
    returns the value of the normalized and despeckled matrix divided by
    the smoothed distance law at distance [|i - j|], or 1.0 when that
    quotient is not a number or is negative. *)
Theorem detrend_divides_by_the_distance_law
    (savgol_fit : nat -> nat -> list float -> list float)
    (matrix : list (list float)) (n : nat) :
  (forall w p y, length (savgol_fit w p y) = length y) ->
  is_matrix n n matrix ->
  17 <= n ->
  exists matscn dist normalized n_speckles outlier detrended threshold,
    scn_func matrix threshold = Ok matscn /\
    despeckles matscn 10%float = Ok (dist, normalized, n_speckles, outlier) /\
    detrend savgol_fit matrix = Ok (detrended, threshold) /\
    let y_savgol :=
      savgol_fit 17 5
        (map (fun v => if PrimFloat.is_nan v then 0%float else v)
           (distance_law normalized)) in
    let poor_indices :=
      indices_where (fun s => (s <=? threshold)%float) (np_sum_axis0 matrix) in
    forall i j v d,
      i ∉ poor_indices -> j ∉ poor_indices ->
      entry normalized i j = Some v -> y_savgol !! diagonal_distance i j = Some d ->
      entry detrended i j = Some (neutralized (v / d)).
Proof.
  intros Hfit Hm Hn. pose proof Hm as [Hlen _].
  unfold detrend. cbv zeta.
  set (threshold := (np_median (np_sum_axis0 matrix)
                     - 2 * np_std (np_sum_axis0 matrix))%float).
  set (poor := indices_where (fun s => (s <=? threshold)%float) (np_sum_axis0 matrix)).
  assert (Hpoor : forall b, b ∈ poor -> b < n).
  { intros b Hb. apply indices_where_elem in Hb as (s & Hs & _).
    rewrite <- (np_sum_axis0_length n matrix Hm) by lia.
    eapply lookup_lt_Some; exact Hs. }
  destruct (scn_func_run matrix threshold n Hm) as (matscn & Hscn_run & Hscn & _).
  rewrite Hscn_run. simpl.
  destruct (despeckles_run matscn 10%float n Hscn)
    as (dist & matscn' & n_speckles & outlier & Hdes_run & _ & _ & (Hdes & _)).
  rewrite Hdes_run. simpl in Hdes. simpl.
  unfold savgol_filter.
  destruct (decide (17 <= 5)) as [Hle|_]; [lia|].
  assert (Hy : length (map (fun v => if PrimFloat.is_nan v then 0%float else v)
                         (distance_law matscn')) = n).
  { rewrite length_map. unfold distance_law.
    rewrite insert_loop_length, length_replicate. apply Hdes. }
  rewrite Hy. destruct (decide (n < 17)) as [Hsmall|_]; [lia|]. simpl.
  rewrite Hlen.
  set (y_savgol := savgol_fit 17 5
         (map (fun v => if PrimFloat.is_nan v then 0%float else v)
            (distance_law matscn'))).
  destruct (distance_law_matrix_entries n y_savgol) as (D & -> & HD & HDentries);
    [unfold y_savgol; rewrite Hfit; exact Hy|].
  simpl.
  destruct (np_divide_total n matscn' D Hdes HD) as (q & Hq_run & Hq). rewrite Hq_run. simpl.
  pose proof (is_matrix_map (fun v => if (v <? 0)%float then 1%float else v) n n _
                (replace_nan_matrix n n 1%float q Hq)) as Hclamped.
  destruct (assign_rows_ones n _ poor Hclamped Hpoor) as (m1 & Hm1_run & Hm1 & _).
  rewrite Hm1_run. simpl.
  destruct (assign_cols_ones n m1 poor Hm1 Hpoor) as (m2 & Hm2_run & Hm2 & _).
  rewrite Hm2_run. simpl.
  exists matscn, dist, matscn', n_speckles, outlier, m2, threshold.
  split; [exact Hscn_run|]. split; [exact Hdes_run|]. split; [reflexivity|].
  intros i j v d Hi Hj Hv Hd.
  destruct (entry_Some_lt n n matscn' i j v Hdes Hv) as [Hin Hjn].
  rewrite (assign_cols_other _ _ _ _ Hm2_run i j Hj).
  unfold entry. rewrite (assign_rows_other _ _ _ _ Hm1_run i Hi).
  fold (entry (map (map (fun v0 => if (v0 <? 0)%float then 1%float else v0))
                 (replace_nan 1 q)) i j).
  rewrite entry_map. unfold replace_nan. rewrite entry_map.
  rewrite (np_divide_entry matscn' D q i j v d Hq_run Hv);
    [reflexivity | rewrite HDentries by assumption; exact Hd].
Qed.

Lemma detrend_divides_by_the_distance_law_witness :
  exists matscn dist normalized n_speckles outlier detrended threshold,
    scn_func example_contacts threshold = Ok matscn /\
    despeckles matscn 10%float = Ok (dist, normalized, n_speckles, outlier) /\
    detrend (fun _ _ y => y) example_contacts = Ok (detrended, threshold) /\
    forall i j v d,
      i ∉ indices_where (fun s => (s <=? threshold)%float) (np_sum_axis0 example_contacts) ->
      j ∉ indices_where (fun s => (s <=? threshold)%float) (np_sum_axis0 example_contacts) ->
      entry normalized i j = Some v ->
      map (fun v => if PrimFloat.is_nan v then 0%float else v) (distance_law normalized)
        !! diagonal_distance i j = Some d ->
      entry detrended i j = Some (neutralized (v / d)).
Proof.
  apply (detrend_divides_by_the_distance_law (fun _ _ y => y) example_contacts 17).
  - reflexivity.
  - split; [reflexivity|]. repeat constructor.
  - lia.
Defined.

Lemma assign_rows_keeps (P : float -> Prop) (m m' : list (list float)) (rows : list nat)
    (block : list (list float)) :
  assign_rows m rows block = Ok m' ->
  Forall (Forall P) block -> Forall (Forall P) m -> Forall (Forall P) m'.
Proof.
  intros Hrun Hblock Hm. unfold assign_rows in Hrun.
  apply (for_each_returned (Forall (Forall P)) _ _ _ _ Hrun Hm).
  intros m1 [i row] m2 Hin Hm1 Hset.
  unfold set_row in Hset. destruct (m1 !! i) as [old|]; [|discriminate].
  destruct (decide _); [|discriminate]. injection Hset as <-.
  apply Forall_insert; [exact Hm1|].
  apply elem_of_zip_r in Hin. rewrite Forall_forall in Hblock. apply Hblock, Hin.
Qed.

Lemma set_col_keeps (P : float -> Prop) (m m' : list (list float)) (j : nat)
    (col : list float) :
  set_col m j col = Ok m' -> Forall P col -> Forall (Forall P) m -> Forall (Forall P) m'.
Proof.
  intros Hrun Hcol Hm. unfold set_col in Hrun.
  destruct (decide _); [|discriminate].
  apply (for_each_returned (Forall (Forall P)) _ _ _ _ Hrun Hm).
  intros m1 [i v] m2 Hin Hm1 Hset.
  apply (set2_keeps P m1 m2 i j v Hset); [|exact Hm1].
  apply elem_of_zip_r in Hin. rewrite Forall_forall in Hcol. apply Hcol, Hin.
Qed.

Lemma assign_cols_keeps (P : float -> Prop) (m m' : list (list float)) (cols : list nat)
    (block : list (list float)) :
  assign_cols m cols block = Ok m' ->
  Forall (Forall P) block -> Forall (Forall P) m -> Forall (Forall P) m'.
Proof.
  intros Hrun Hblock Hm. unfold assign_cols in Hrun.
  apply (for_each_returned (Forall (Forall P)) _ _ _ _ Hrun Hm).
  intros m1 [k j] m2 _ Hm1 Hstep.
  apply bind_Ok in Hstep as (col & Hcol & Hset).
  apply (set_col_keeps P m1 m2 j col Hset); [|exact Hm1].
  apply py_mapM_Ok in Hcol.
  apply Forall_lookup. intros a v Hv.
  destruct (Forall2_lookup_r _ _ _ _ _ Hcol Hv) as (row & Hrow & Hget).
  unfold get1 in Hget. destruct (row !! k) as [w|] eqn:Hw; [|discriminate].
  injection Hget as ->.
  rewrite Forall_lookup in Hblock. specialize (Hblock a row Hrow).
  rewrite Forall_lookup in Hblock. apply (Hblock k v Hw).
Qed.

Lemma detrend_returned_values (savgol_fit : nat -> nat -> list float -> list float)
    (matrix detrended : list (list float)) (threshold : float) :
  detrend savgol_fit matrix = Ok (detrended, threshold) ->
  Forall (Forall detrended_value) detrended.
Proof.
  unfold detrend. cbv zeta. intros Hrun.
  apply bind_Ok in Hrun as (matscn & _ & Hrun).
  apply bind_Ok in Hrun as ([[[dist matscn'] n_speckles] outlier] & _ & Hrun).
  apply bind_Ok in Hrun as (y_savgol & _ & Hrun).
  apply bind_Ok in Hrun as (D & _ & Hrun).
  apply bind_Ok in Hrun as (q & _ & Hrun).
  apply bind_Ok in Hrun as (m1 & Hrows & Hrun).
  apply bind_Ok in Hrun as (m2 & Hcols & [= <- _]).
  assert (Hone : detrended_value 1%float) by (split; reflexivity).
  assert (Hones : forall r c, Forall (Forall detrended_value) (np_ones r c)).
  { intros r c. unfold np_ones. apply Forall_replicate, Forall_replicate, Hone. }
  apply (assign_cols_keeps _ _ _ _ _ Hcols (Hones _ _)).
  apply (assign_rows_keeps _ _ _ _ _ Hrows (Hones _ _)).
  apply entry_elem. intros i j v. rewrite entry_map. unfold replace_nan. rewrite entry_map.
  destruct (entry q i j) as [x|]; simpl; [|discriminate]. intros [= <-].
  destruct (PrimFloat.is_nan x) eqn:Hx.
  - simpl. exact Hone.
  - destruct (x <? 0)%float eqn:Hneg; [exact Hone|]. split; assumption.
Qed.

Lemma detrend_run (savgol_fit : nat -> nat -> list float -> list float)
    (matrix : list (list float)) (n : nat) :
  (forall w p y, length (savgol_fit w p y) = length y) ->
  is_matrix n n matrix ->
  17 <= n ->
  exists detrended threshold,
    detrend savgol_fit matrix = Ok (detrended, threshold) /\ is_matrix n n detrended.
Proof.
  intros Hfit Hm Hn. pose proof Hm as [Hlen _].
  unfold detrend. cbv zeta.
  set (threshold := (np_median (np_sum_axis0 matrix)
                     - 2 * np_std (np_sum_axis0 matrix))%float).
  set (poor := indices_where (fun s => (s <=? threshold)%float) (np_sum_axis0 matrix)).
  assert (Hpoor : forall b, b ∈ poor -> b < n).
  { intros b Hb. apply indices_where_elem in Hb as (s & Hs & _).
    rewrite <- (np_sum_axis0_length n matrix Hm) by lia.
    eapply lookup_lt_Some; exact Hs. }
  destruct (scn_func_run matrix threshold n Hm) as (matscn & -> & Hscn & _). simpl.
  destruct (despeckles_run matscn 10%float n Hscn)
    as (dist & matscn' & n_speckles & outlier & -> & _ & _ & (Hdes & _)).
  simpl in Hdes. simpl.
  unfold savgol_filter.
  destruct (decide (17 <= 5)) as [Hle|_]; [lia|].
  assert (Hy : length (map (fun v => if PrimFloat.is_nan v then 0%float else v)
                         (distance_law matscn')) = n).
  { rewrite length_map. unfold distance_law.
    rewrite insert_loop_length, length_replicate. apply Hdes. }
  rewrite Hy. destruct (decide (n < 17)) as [Hsmall|_]; [lia|]. simpl.
  rewrite Hlen.
  destruct (distance_law_matrix_total n
              (savgol_fit 17 5
                 (map (fun v => if PrimFloat.is_nan v then 0%float else v)
                    (distance_law matscn'))))
    as (D & -> & HD); [rewrite Hfit; exact Hy|].
  simpl.
  destruct (np_divide_total n matscn' D Hdes HD) as (q & -> & Hq). simpl.
  pose proof (is_matrix_map (fun v => if (v <? 0)%float then 1%float else v) n n _
                (replace_nan_matrix n n 1%float q Hq)) as Hclamped.
  destruct (assign_rows_ones n _ poor Hclamped Hpoor) as (m1 & -> & Hm1 & Hrows). simpl.
  destruct (assign_cols_ones n m1 poor Hm1 Hpoor) as (m2 & -> & Hm2 & Hcols & Hkeep). simpl.
  exists m2, threshold. split; [reflexivity | exact Hm2].
Qed.

(** X15. On a square matrix with at least 17 bins [detrend] returns a
    matrix none of whose entries is not-a-number or negative. *)
Theorem detrend_result_is_numeric_and_not_negative
    (savgol_fit : nat -> nat -> list float -> list float)
    (matrix : list (list float)) (n : nat) :
  (forall w p y, length (savgol_fit w p y) = length y) ->
  is_matrix n n matrix ->
  17 <= n ->
  exists detrended threshold,
    detrend savgol_fit matrix = Ok (detrended, threshold) /\
    forall i j, i < n -> j < n ->
      exists v, entry detrended i j = Some v /\
        PrimFloat.is_nan v = false /\ (v <? 0)%float = false.
Proof.
  intros Hfit Hm Hn.
  destruct (detrend_run savgol_fit matrix n Hfit Hm Hn) as (d & t & Hrun & Hd).
  exists d, t. split; [exact Hrun|].
  intros i j Hi Hj. destruct (is_matrix_entry n n d i j Hd Hi Hj) as [v Hv].
  exists v. split; [exact Hv|].
  pose proof (detrend_returned_values savgol_fit matrix d t Hrun) as Hall.
  rewrite entry_elem in Hall. apply (Hall i j v Hv).
Qed.

Lemma detrend_result_is_numeric_and_not_negative_witness :
  exists detrended threshold,
    detrend (fun _ _ y => y) example_contacts = Ok (detrended, threshold) /\
    forall i j, i < 17 -> j < 17 ->
      exists v, entry detrended i j = Some v /\
        PrimFloat.is_nan v = false /\ (v <? 0)%float = false.
Proof.
  apply (detrend_result_is_numeric_and_not_negative (fun _ _ y => y) example_contacts 17).
  - reflexivity.
  - split; [reflexivity|]. repeat constructor.
  - lia.
Defined.

(** X16. On every square matrix with fewer than 17 bins [detrend] raises
    the [ValueError] of [savgol_filter], whose window of 17 points is
    longer than the distance law it is given. *)
Theorem detrend_needs_seventeen_bins
    (savgol_fit : nat -> nat -> list float -> list float)
    (matrix : list (list float)) (n : nat) :
  is_matrix n n matrix ->
  n < 17 ->
  detrend savgol_fit matrix =
    Raise (ValueError
      "If mode is 'interp', window_length must be less than or equal to the size of x.").
Proof.
  intros Hm Hn. unfold detrend. cbv zeta.
  destruct (scn_func_run matrix
              (np_median (np_sum_axis0 matrix) - 2 * np_std (np_sum_axis0 matrix))%float
              n Hm) as (matscn & -> & Hscn & _). simpl.
  destruct (despeckles_run matscn 10%float n Hscn)
    as (dist & matscn' & n_speckles & outlier & -> & _ & _ & (Hdes & _)).
  simpl in Hdes. simpl.
  unfold savgol_filter.
  destruct (decide (17 <= 5)) as [Hle|_]; [lia|].
  rewrite length_map. unfold distance_law.
  rewrite insert_loop_length, length_replicate.
  destruct Hdes as [-> _].
  destruct (decide (n < 17)) as [_|Hbig]; [reflexivity | lia].
Qed.

Lemma detrend_needs_seventeen_bins_witness :
  detrend (fun _ _ y => y) [[1; 2]; [3; 4]]%float =
    Raise (ValueError
      "If mode is 'interp', window_length must be less than or equal to the size of x.").
Proof.
  apply (detrend_needs_seventeen_bins (fun _ _ y => y) [[1; 2]; [3; 4]]%float 2); [|lia].
  split; [reflexivity|]. repeat constructor.
Defined.

(** ** [xcorr2]: the two modes *)

(** X17. For a kernel with at least one row and one column that fits in
    the signal, the region [Ki : Ms-(Mk-1-Ki), Kj : Ns-(Nk-1-Kj)] of the
    result of the centered mode is the result of the "valid" mode. *)
Theorem xcorr2_centered_core_is_valid_mode (signal kernel : list (list float)) :
  rectangular signal ->
  1 <= length kernel <= length signal ->
  1 <= ncols kernel <= ncols signal ->
  exists full core,
    xcorr2 signal kernel true = Ok full /\
    xcorr2 signal kernel false = Ok core /\
    let Ms := Z.of_nat (length signal) in
    let Ns := Z.of_nat (ncols signal) in
    let Mk := Z.of_nat (length kernel) in
    let Nk := Z.of_nat (ncols kernel) in
    let Ki := ((Mk - 1) / 2)%Z in
    let Kj := ((Nk - 1) / 2)%Z in
    py_slice2 full Ki (Ms - (Mk - 1 - Ki)) Kj (Ns - (Nk - 1 - Kj)) = core.
Proof.
  intros Hsignal HMk HNk.
  destruct (xcorr2_run signal kernel Hsignal HMk HNk)
    as [(core & Hcore & Hvalid) (full & Hfull & Hcentered)].
  exists full, core. split; [exact Hfull|]. split; [exact Hcore|]. cbv zeta.
  unfold centered_output in Hcentered. cbv zeta in Hcentered.
  unfold valid_output in Hvalid.
  rewrite !center_offset by lia.
  pose proof (half_le (length kernel - 1)) as Hhalf1.
  pose proof (half_le (ncols kernel - 1)) as Hhalf2.
  set (Ki := (length kernel - 1) / 2) in *.
  set (Kj := (ncols kernel - 1) / 2) in *.
  replace (Z.of_nat (length signal) - (Z.of_nat (length kernel) - 1 - Z.of_nat Ki))%Z
    with (Z.of_nat (length signal - (length kernel - 1 - Ki))) by lia.
  replace (Z.of_nat (ncols signal) - (Z.of_nat (ncols kernel) - 1 - Z.of_nat Kj))%Z
    with (Z.of_nat (ncols signal - (ncols kernel - 1 - Kj))) by lia.
  pose proof (has_entries_slice2 _ _ _ full Ki (length signal - (length kernel - 1 - Ki))
                Kj (ncols signal - (ncols kernel - 1 - Kj)) Hcentered) as Hslice.
  eapply (has_entries_unique _ _ _ _ core); [|exact Hvalid].
  replace (length signal - length kernel + 1)
    with (length signal - (length kernel - 1 - Ki) - Ki) by lia.
  replace (ncols signal - ncols kernel + 1)
    with (ncols signal - (ncols kernel - 1 - Kj) - Kj) by lia.
  eapply has_entries_ext; [apply Hslice; lia|].
  intros i j Hi Hj. cbv beta.
  rewrite !center_offset by lia. fold Ki Kj.
  assert (R1 : centered_region (Z.of_nat (length signal)) (Z.of_nat (length kernel)) (Ki + i)
               = true) by (apply centered_region_spec; fold Ki; lia).
  assert (R2 : centered_region (Z.of_nat (ncols signal)) (Z.of_nat (ncols kernel)) (Kj + j)
               = true) by (apply centered_region_spec; fold Kj; lia).
  rewrite R1, R2. simpl. f_equal; lia.
Qed.

Lemma xcorr2_centered_core_is_valid_mode_witness :
  exists full core,
    xcorr2 [[1; 2; 3]; [4; 5; 6]; [7; 8; 9]]%float [[1; 0]; [0; 1]]%float true = Ok full /\
    xcorr2 [[1; 2; 3]; [4; 5; 6]; [7; 8; 9]]%float [[1; 0]; [0; 1]]%float false = Ok core /\
    py_slice2 full 0 2 0 2 = core.
Proof.
  apply (xcorr2_centered_core_is_valid_mode
           [[1; 2; 3]; [4; 5; 6]; [7; 8; 9]]%float [[1; 0]; [0; 1]]%float).
  - split; [reflexivity|]. repeat constructor.
  - simpl; lia.
  - simpl; lia.
Defined.

(** X18. A kernel without columns passes the size check and the loops
    over it add nothing: in the "valid" mode [xcorr2] returns an array of
    zeros with [Ms - Mk + 1] rows and [Ns + 1] columns, one column more
    than the signal has. *)
Theorem xcorr2_kernel_without_columns (signal kernel : list (list float)) :
  length kernel <= length signal -> ncols kernel = 0 ->
  xcorr2 signal kernel false =
    Ok (np_zeros (length signal - length kernel + 1) (ncols signal + 1)).
Proof.
  intros Hrows Hcols. rewrite xcorr2_guard_passes by lia. cbv zeta. simpl negb. cbv iota.
  rewrite Hcols. unfold range. rewrite !Nat2Z.id. simpl seq at 2.
  replace (Z.to_nat (Z.of_nat (length signal) - Z.of_nat (length kernel) + 1))
    with (length signal - length kernel + 1) by lia.
  replace (Z.to_nat (Z.of_nat (ncols signal) - Z.of_nat 0 + 1)) with (ncols signal + 1) by lia.
  generalize (np_zeros (length signal - length kernel + 1) (ncols signal + 1)).
  generalize (seq 0 (length kernel)).
  induction l as [|ki l IH]; intros out; simpl; [reflexivity | apply IH].
Qed.

Lemma xcorr2_kernel_without_columns_witness :
  xcorr2 [[1; 2]; [3; 4]]%float [[]] false = Ok (np_zeros 2 3).
Proof.
  apply (xcorr2_kernel_without_columns [[1; 2]; [3; 4]]%float [[]]); [simpl; lia | reflexivity].
Defined.

(** ** [corrcoef2d] *)

Lemma np_subtract_entries (r c : nat) (f g : nat -> nat -> float) (a b : list (list float)) :
  has_entries r c f a -> has_entries r c g b ->
  exists d, np_subtract a b = Ok d /\ has_entries r c (fun i j => (f i j - g i j)%float) d.
Proof.
  intros Ha Hb. unfold np_subtract.
  rewrite (is_matrix_map_length r c a b (proj1 Ha) (proj1 Hb)).
  destruct (decide _) as [_|Hne]; [|contradiction].
  eexists; split; [reflexivity|]. apply (has_entries_zip_with PrimFloat.sub); assumption.
Qed.

Lemma np_divide_entries (r c : nat) (f g : nat -> nat -> float) (a b : list (list float)) :
  has_entries r c f a -> has_entries r c g b ->
  exists d, np_divide a b = Ok d /\ has_entries r c (fun i j => (f i j / g i j)%float) d.
Proof.
  intros Ha Hb. unfold np_divide.
  rewrite (is_matrix_map_length r c a b (proj1 Ha) (proj1 Hb)).
  destruct (decide _) as [_|Hne]; [|contradiction].
  eexists; split; [reflexivity|]. apply (has_entries_zip_with PrimFloat.div); assumption.
Qed.

(** The part of [corrcoef2d] that follows the three correlations. *)
Lemma corrcoef2d_combine (r c : nat) (f1 f2 f3 : nat -> nat -> float)
    (m1 m2 m3 : list (list float)) (mean_kernel std_kernel : float) :
  has_entries r c f1 m1 -> has_entries r c f2 m2 -> has_entries r c f3 m3 ->
  exists out,
    (variance ← np_subtract m2 (np_square m1);
     numerator ← np_subtract m3 (np_multiply_scalar m1 mean_kernel);
     np_divide numerator
       (np_multiply_scalar (map (map PrimFloat.sqrt) variance) std_kernel)) = Ok out /\
    has_entries r c
      (fun i j => ((f3 i j - f1 i j * mean_kernel)
                   / (PrimFloat.sqrt (f2 i j - f1 i j * f1 i j) * std_kernel))%float) out.
Proof.
  intros H1 H2 H3.
  destruct (np_subtract_entries r c _ _ m2 (np_square m1) H2
              (has_entries_map (fun v => (v * v)%float) r c f1 m1 H1)) as (var & -> & Hvar).
  simpl.
  destruct (np_subtract_entries r c _ _ m3 (np_multiply_scalar m1 mean_kernel) H3
              (has_entries_map (fun v => (v * mean_kernel)%float) r c f1 m1 H1))
    as (num & -> & Hnum).
  simpl.
  apply (np_divide_entries r c _ _ num _ Hnum).
  apply (has_entries_map (fun v => (v * std_kernel)%float)).
  apply (has_entries_map PrimFloat.sqrt). exact Hvar.
Qed.

Lemma corrcoef2d_run (signal kernel : list (list float)) :
  rectangular signal ->
  1 <= length kernel <= length signal ->
  1 <= ncols kernel <= ncols signal ->
  (exists out, corrcoef2d signal kernel false = Ok out /\
     corrcoef_valid_output signal kernel out) /\
  (exists out, corrcoef2d signal kernel true = Ok out /\
     corrcoef_centered_output signal kernel out).
Proof.
  intros Hsignal HMk HNk.
  set (size := float_of_nat (np_size kernel)).
  set (kernel1 := np_divide_scalar (np_ones (length kernel) (ncols kernel)) size).
  set (kernel2 := np_divide_scalar kernel size).
  assert (Hk1 : length kernel1 = length kernel /\ ncols kernel1 = ncols kernel).
  { unfold kernel1, np_divide_scalar, np_ones.
    rewrite length_map, ncols_map, length_replicate, ncols_replicate by lia. auto. }
  assert (Hk2 : length kernel2 = length kernel /\ ncols kernel2 = ncols kernel).
  { unfold kernel2, np_divide_scalar. rewrite length_map, ncols_map. auto. }
  assert (Hsq : length (np_square signal) = length signal /\
                ncols (np_square signal) = ncols signal).
  { unfold np_square. rewrite length_map, ncols_map. auto. }
  destruct Hk1 as [Hk1r Hk1c], Hk2 as [Hk2r Hk2c], Hsq as [Hsqr Hsqc].
  destruct (xcorr2_run signal kernel1 Hsignal) as [Hv1 Hc1]; [lia | lia |].
  destruct (xcorr2_run (np_square signal) kernel1) as [Hv2 Hc2];
    [apply rectangular_map; exact Hsignal | lia | lia |].
  destruct (xcorr2_run signal kernel2 Hsignal) as [Hv3 Hc3]; [lia | lia |].
  split.
  - destruct Hv1 as (m1 & Hrun1 & Hm1), Hv2 as (m2 & Hrun2 & Hm2),
      Hv3 as (m3 & Hrun3 & Hm3).
    unfold valid_output in Hm1, Hm2, Hm3.
    rewrite Hk1r, Hk1c in Hm1. rewrite Hk1r, Hk1c, Hsqr, Hsqc in Hm2.
    rewrite Hk2r, Hk2c in Hm3.
    unfold corrcoef2d. cbv zeta. fold size. fold kernel1. fold kernel2.
    rewrite Hrun1. simpl. rewrite Hrun2. simpl.
    destruct (corrcoef2d_combine _ _ _ _ _ m1 m2 m3
                (np_mean (mjoin kernel)) (np_std (mjoin kernel)) Hm1 Hm2 Hm3)
      as (out & Hout & Hentries).
    apply bind_Ok in Hout as (var & Hvar & Hout). rewrite Hvar. simpl.
    rewrite Hrun3. simpl. exists out. split; [exact Hout|].
    exact Hentries.
  - destruct Hc1 as (m1 & Hrun1 & Hm1), Hc2 as (m2 & Hrun2 & Hm2),
      Hc3 as (m3 & Hrun3 & Hm3).
    unfold centered_output in Hm1, Hm2, Hm3. cbv zeta in Hm1, Hm2, Hm3.
    rewrite Hk1r, Hk1c in Hm1. rewrite Hk1r, Hk1c, Hsqr, Hsqc in Hm2.
    rewrite Hk2r, Hk2c in Hm3.
    unfold corrcoef2d. cbv zeta. fold size. fold kernel1. fold kernel2.
    rewrite Hrun1. simpl. rewrite Hrun2. simpl.
    destruct (corrcoef2d_combine _ _ _ _ _ m1 m2 m3
                (np_mean (mjoin kernel)) (np_std (mjoin kernel)) Hm1 Hm2 Hm3)
      as (out & Hout & Hentries).
    apply bind_Ok in Hout as (var & Hvar & Hout). rewrite Hvar. simpl.
    rewrite Hrun3. simpl. exists out. split; [exact Hout|].
    unfold corrcoef_centered_output. cbv zeta.
    apply (has_entries_ext _ _ _ _ _ Hentries).
    intros i j _ _. cbv beta.
    destruct (centered_region _ _ i && centered_region _ _ j); [reflexivity|].
    rewrite sub_nan_l. apply div_nan_l.
Qed.

Lemma xcorr2_guard_fails (signal kernel : list (list float)) (centered_p : bool) :
  length signal < length kernel \/ ncols signal < ncols kernel ->
  xcorr2 signal kernel centered_p = Raise (ValueError "cannot have kernel bigger than signal").
Proof.
  intros Hbig. unfold xcorr2. cbv zeta.
  destruct (decide _) as [_|Hfits]; [reflexivity | lia].
Qed.

(** X19. For a kernel with at least one row and one column,
    [corrcoef2d] raises the [ValueError] of [xcorr2] when the kernel has
    more rows or more columns than the signal, and returns an array
    otherwise. *)
Theorem corrcoef2d_kernel_bigger_than_signal (signal kernel : list (list float))
    (centered_p : bool) :
  rectangular signal -> 1 <= length kernel -> 1 <= ncols kernel ->
  (length signal < length kernel \/ ncols signal < ncols kernel ->
     corrcoef2d signal kernel centered_p =
       Raise (ValueError "cannot have kernel bigger than signal")) /\
  (length kernel <= length signal -> ncols kernel <= ncols signal ->
     exists out, corrcoef2d signal kernel centered_p = Ok out).
Proof.
  intros Hsignal HMk HNk. split.
  - intros Hbig. unfold corrcoef2d. cbv zeta.
    rewrite (xcorr2_guard_fails signal
               (np_divide_scalar (np_ones (length kernel) (ncols kernel))
                  (float_of_nat (np_size kernel)))); [reflexivity|].
    unfold np_divide_scalar, np_ones.
    rewrite length_map, ncols_map, length_replicate, ncols_replicate by lia.
    exact Hbig.
  - intros Hrows Hcols.
    destruct (corrcoef2d_run signal kernel Hsignal) as [Hv Hc]; [lia | lia |].
    destruct centered_p.
    + destruct Hc as (out & -> & _); eauto.
    + destruct Hv as (out & -> & _); eauto.
Qed.

Lemma corrcoef2d_kernel_bigger_than_signal_witness :
  (length [[1; 2]; [3; 4]]%float < length [[1; 1; 1]]%float \/
   ncols [[1; 2]; [3; 4]]%float < ncols [[1; 1; 1]]%float ->
     corrcoef2d [[1; 2]; [3; 4]]%float [[1; 1; 1]]%float true =
       Raise (ValueError "cannot have kernel bigger than signal")) /\
  (length [[1; 1; 1]]%float <= length [[1; 2]; [3; 4]]%float ->
   ncols [[1; 1; 1]]%float <= ncols [[1; 2]; [3; 4]]%float ->
     exists out, corrcoef2d [[1; 2]; [3; 4]]%float [[1; 1; 1]]%float true = Ok out).
Proof.
  apply (corrcoef2d_kernel_bigger_than_signal [[1; 2]; [3; 4]]%float [[1; 1; 1]]%float true).
  - split; [reflexivity|]. repeat constructor.
  - simpl; lia.
  - simpl; lia.
Defined.

(** X20. In the "valid" mode [corrcoef2d] returns the
    [(Ms-Mk+1)] by [(Ns-Nk+1)] array whose entry [(i, j)] is the
    coefficient of the window with top left corner [(i, j)]: the window
    sum with the kernel divided by its size, minus the product of the
    means, over the product of the standard deviations. *)
Theorem corrcoef2d_valid_mode (signal kernel : list (list float)) :
  rectangular signal ->
  1 <= length kernel <= length signal ->
  1 <= ncols kernel <= ncols signal ->
  exists out, corrcoef2d signal kernel false = Ok out /\
    corrcoef_valid_output signal kernel out.
Proof.
  intros Hsignal HMk HNk. apply (corrcoef2d_run signal kernel Hsignal HMk HNk).
Qed.

Lemma corrcoef2d_valid_mode_witness :
  exists out,
    corrcoef2d [[1; 2; 1]; [2; 4; 2]; [1; 2; 1]]%float [[1; 2]; [2; 4]]%float false = Ok out /\
    corrcoef_valid_output [[1; 2; 1]; [2; 4; 2]; [1; 2; 1]]%float [[1; 2]; [2; 4]]%float out.
Proof.
  apply (corrcoef2d_valid_mode [[1; 2; 1]; [2; 4; 2]; [1; 2; 1]]%float [[1; 2]; [2; 4]]%float).
  - split; [reflexivity|]. repeat constructor.
  - simpl; lia.
  - simpl; lia.
Defined.

(** X21. In the centered mode [corrcoef2d] returns an [Ms] by [Ns] array
    that holds the coefficient of the window at every index of the
    region [(Mk-1)//2 <= i < Ms-(Mk-1-(Mk-1)//2)],
    [(Nk-1)//2 <= j < Ns-(Nk-1-(Nk-1)//2)] and not-a-number at every
    other index. *)
Theorem corrcoef2d_centered_mode (signal kernel : list (list float)) :
  rectangular signal ->
  1 <= length kernel <= length signal ->
  1 <= ncols kernel <= ncols signal ->
  exists out, corrcoef2d signal kernel true = Ok out /\
    corrcoef_centered_output signal kernel out.
Proof.
  intros Hsignal HMk HNk. apply (corrcoef2d_run signal kernel Hsignal HMk HNk).
Qed.

Lemma corrcoef2d_centered_mode_witness :
  exists out,
    corrcoef2d [[1; 2; 1]; [2; 4; 2]; [1; 2; 1]]%float [[1; 2]; [2; 4]]%float true = Ok out /\
    corrcoef_centered_output [[1; 2; 1]; [2; 4; 2]; [1; 2; 1]]%float [[1; 2]; [2; 4]]%float
      out.
Proof.
  apply (corrcoef2d_centered_mode [[1; 2; 1]; [2; 4; 2]; [1; 2; 1]]%float
           [[1; 2]; [2; 4]]%float).
  - split; [reflexivity|]. repeat constructor.
  - simpl; lia.
  - simpl; lia.
Defined.
